(** * Xpress-Huffman compressor: shallow embedding and verified properties

    The development follows the C sources of the encoder:
    - [Bitstream.h]       : the 16-bit-unit output bitstream,
    - [XpressDictionary.h]: the hash-chain match finder,
    - [sorting.h]         : stable insertion / merge sort on symbol indices,
    - [HuffmanEncoder.h]  : the two length-limited Huffman code builders,
    - the compressor file : LZ77 stage, literal-only fallback, size
                            computation, bit-level encoder and the entry point.

    Conventions.  Fixed-width C integers are [Z] values with the wrap-around
    written out ([u8], [u16], [u32], [u64]).  Byte-addressed buffers are total
    functions from addresses to byte values, updated with stdpp's function
    insert [<[a:=v]> m]; the caller owns the buffers, so a store never fails.
    Fixed-size C arrays indexed by a symbol or node number are lists of the
    array's size, read with [!!!] and updated with [<[i:=v]>]; the sources
    index them in range, where both agree with C (out of range [!!!] yields
    the element type's default and the update does nothing). *)

From Stdlib Require Import ZArith Lia List Bool.
From Stdlib.Strings Require Import Byte.
From stdpp Require Import base tactics functions numbers list.

Local Open Scope Z_scope.

(** ** Machine integers *)

Definition u8  (x : Z) : Z := x mod 2^8.
Definition u16 (x : Z) : Z := x mod 2^16.
Definition u32 (x : Z) : Z := x mod 2^32.
Definition u64 (x : Z) : Z := x mod 2^64.

(** [uint_fast8_t] is [unsigned char] and [uint_fast16_t] is [unsigned long]
    on the LP64 glibc targets the sources are built for. *)
Definition ufast8  := u8.
Definition ufast16 := u64.

Abbreviation memory := (Z → Z).

(** The portable (byte-wise, little-endian) variants of the access macros. *)
Definition GET_UINT16_RAW (m : memory) (x : Z) : Z :=
  Z.lor (m x) (Z.shiftl (m (x + 1)) 8).

Definition GET_UINT32_RAW (m : memory) (x : Z) : Z :=
  Z.lor (Z.lor (Z.lor (m x) (Z.shiftl (m (x + 1)) 8))
               (Z.shiftl (m (x + 2)) 16))
        (Z.shiftl (m (x + 3)) 24).

Definition SET_UINT16_RAW (m : memory) (x val : Z) : memory :=
  <[x + 1 := u8 (Z.shiftr val 8)]> (<[x := u8 val]> m).

Definition SET_UINT32_RAW (m : memory) (x val : Z) : memory :=
  <[x + 3 := u8 (Z.shiftr val 24)]>
    (<[x + 2 := u8 (Z.shiftr val 16)]>
       (<[x + 1 := u8 (Z.shiftr val 8)]> (<[x := u8 val]> m))).

Definition SET_UINT16 := SET_UINT16_RAW.
Definition SET_UINT32 := SET_UINT32_RAW.

(** A byte sequence placed at address [base]: the memory a caller's
    buffer holding [B] presents (cells outside the buffer read as 0). *)
Definition byte_val (b : Byte.byte) : Z := Z.of_N (Byte.to_N b).

Definition load (base : Z) (B : list Byte.byte) : memory :=
  fun a =>
    if a <? base then 0
    else match B !! Z.to_nat (a - base) with
         | Some b => byte_val b
         | None => 0
         end.


(** ** Bitstream.h *)

Module Bitstream.

Record OutputBitstream := mkOutputBitstream {
  out   : Z;   (* output cursor *)
  pntr0 : Z;   (* pntr[0]: the pending 16-bit slot *)
  pntr1 : Z;   (* pntr[1]: the next-pending 16-bit slot *)
  mask  : Z;   (* uint32_t accumulator *)
  bits  : Z    (* uint_fast8_t count of valid bits in [mask] *)
}.

Definition OutputBitstream_init (o : Z) : OutputBitstream :=
  {| out := o + 4; mask := 0; bits := 0; pntr0 := o; pntr1 := o + 2 |}.

Definition RawStream (ctx : OutputBitstream) : Z := out ctx.

Definition WriteBits (s : OutputBitstream * memory) (b n : Z)
  : OutputBitstream * memory :=
  let '(ctx, m) := s in
  let bits1 := ufast8 (bits ctx + n) in
  let mask1 := Z.lor (mask ctx) (u32 (Z.shiftl b (32 - bits1))) in
  if 16 <? bits1 then
    ({| out := out ctx + 2;
        pntr0 := pntr1 ctx;
        pntr1 := out ctx;
        mask := u32 (Z.shiftl mask1 16);
        bits := Z.land bits1 15 |},
     SET_UINT16 m (pntr0 ctx) (Z.shiftr mask1 16))
  else
    ({| out := out ctx; pntr0 := pntr0 ctx; pntr1 := pntr1 ctx;
        mask := mask1; bits := bits1 |}, m).

Definition WriteRawByte (s : OutputBitstream * memory) (x : Z)
  : OutputBitstream * memory :=
  let '(ctx, m) := s in
  ({| out := out ctx + 1; pntr0 := pntr0 ctx; pntr1 := pntr1 ctx;
      mask := mask ctx; bits := bits ctx |},
   <[out ctx := u8 x]> m).

Definition WriteRawUInt16 (s : OutputBitstream * memory) (x : Z)
  : OutputBitstream * memory :=
  let '(ctx, m) := s in
  ({| out := out ctx + 2; pntr0 := pntr0 ctx; pntr1 := pntr1 ctx;
      mask := mask ctx; bits := bits ctx |},
   SET_UINT16 m (out ctx) x).

Definition WriteRawUInt32 (s : OutputBitstream * memory) (x : Z)
  : OutputBitstream * memory :=
  let '(ctx, m) := s in
  ({| out := out ctx + 4; pntr0 := pntr0 ctx; pntr1 := pntr1 ctx;
      mask := mask ctx; bits := bits ctx |},
   SET_UINT32 m (out ctx) x).

Definition Finish (s : OutputBitstream * memory) : memory :=
  let '(ctx, m) := s in
  SET_UINT16_RAW (SET_UINT16 m (pntr0 ctx) (Z.shiftr (mask ctx) 16))
                 (pntr1 ctx) 0.

End Bitstream.

(** ** XpressDictionary.h *)

Module Dictionary.

Definition MAX_OFFSET  : Z := 0xFFFF.
Definition CHUNK_SIZE  : Z := 0x10000.
Definition HASH_BITS   : Z := 15.
Definition MAX_CHAIN   : nat := 11.
Definition NICE_LENGTH : Z := 48.

(** Pointers into the input are absolute addresses; [NULL] is address 0.
    [table] and [window] hold such pointers. *)
Definition NULL : Z := 0.

Record XpressDictionary := mkXpressDictionary {
  WindowSize : Z;
  WindowMask : Z;
  HashSize   : Z;
  HashMask   : Z;
  HashShift  : Z;
  start : Z;
  end_  : Z;
  end2  : Z;
  table  : Z → Z;
  window : Z → Z
}.

(** [window0] stands for the uninitialised contents of the freshly
    allocated window array; the table is cleared by [memset]. *)
Definition XpressDictionary_init (window0 : Z → Z) (start_ end__ : Z)
  : XpressDictionary :=
  let ws := Z.shiftl CHUNK_SIZE 1 in
  let hs := Z.shiftl 1 HASH_BITS in
  {| WindowSize := ws;
     WindowMask := ws - 1;
     HashSize := hs;
     HashMask := hs - 1;
     HashShift := (HASH_BITS + 2) / 3;
     start := start_;
     end_ := end__;
     end2 := end__ - 2;
     table := fun _ => NULL;
     window := window0 |}.

Definition WindowPos (ctx : XpressDictionary) (x : Z) : Z :=
  u32 (Z.land (x - start ctx) (WindowMask ctx)).

Definition HashUpdate (ctx : XpressDictionary) (h c : Z) : Z :=
  ufast16 (Z.land (Z.lxor (ufast16 (Z.shiftl h (HashShift ctx))) c)
                  (HashMask ctx)).

Section WithInput.

(** The read-only input buffer, as the memory the pointers refer to. *)
Variable rd : memory.

(** The [do ... while] of [GetMatchLength]: one call runs the body at the
    cursors [a], [b] and then tests the loop condition; [fuel] bounds the
    number of further iterations.  The result is the final [b]. *)
Fixpoint GetMatchLength_loop (fuel : nat) (a b end__ : Z) : Z :=
  let a0 := rd a in
  let b0 := rd b in
  let a' := a + 1 in
  let b' := b + 1 in
  if (b' <? end__) && (a0 =? b0) then
    match fuel with
    | O => b'
    | S k => GetMatchLength_loop k a' b' end__
    end
  else b'.

Definition GetMatchLength (a b end__ : Z) : Z :=
  u32 (GetMatchLength_loop (Z.to_nat (end__ - b)) a b end__ - b - 1).

(** The state threaded through [Fill]'s loop. *)
Fixpoint Fill_loop (n : nat) (ctx : XpressDictionary) (data pos hash : Z)
  : XpressDictionary :=
  match n with
  | O => ctx
  | S k =>
      let hash' := HashUpdate ctx hash (rd (data + 2)) in
      let ctx' :=
        {| WindowSize := WindowSize ctx; WindowMask := WindowMask ctx;
           HashSize := HashSize ctx; HashMask := HashMask ctx;
           HashShift := HashShift ctx;
           start := start ctx; end_ := end_ ctx; end2 := end2 ctx;
           table := <[hash' := data]> (table ctx);
           window := <[pos := table ctx hash']> (window ctx) |} in
      Fill_loop k ctx' (data + 1) (pos + 1) hash'
  end.

(** Returns the updated dictionary and the returned pointer. *)
Definition Fill (ctx : XpressDictionary) (data : Z) : XpressDictionary * Z :=
  if end2 ctx <=? data then (ctx, end2 ctx)
  else
    let pos := WindowPos ctx data in
    let endx := if data + CHUNK_SIZE <? end2 ctx
                then data + CHUNK_SIZE else end2 ctx in
    let hash := HashUpdate ctx (rd data) (rd (data + 1)) in
    (Fill_loop (Z.to_nat (endx - data)) ctx data pos hash, endx).

(** The chain walk of [Find].  [x] is the current candidate, [len] the
    best length so far and [off] the current contents of [*offset]. *)
Fixpoint Find_loop (ctx : XpressDictionary) (data xend endx : Z)
  (chain_length : nat) (x len off : Z) : Z * Z :=
  match chain_length with
  | O => (len, off)
  | S k =>
      if x <? xend then (len, off)
      else
        let next := window ctx (WindowPos ctx x) in
        if (rd x =? rd data) && (rd (x + 1) =? rd (data + 1)) then
          let l := GetMatchLength x data endx in
          if len <? l then
            if NICE_LENGTH <=? l then (l, u32 (data - x))
            else Find_loop ctx data xend endx k next l (u32 (data - x))
          else Find_loop ctx data xend endx k next len off
        else Find_loop ctx data xend endx k next len off
  end.

(** [PNTR_BITS] is not defined by the sources, so the preprocessor takes
    the first branch and [endx] is [ctx->end].  [off0] is the value
    [*offset] holds on entry; the result is the returned length and the
    final [*offset]. *)
Definition Find (ctx : XpressDictionary) (data off0 : Z) : Z * Z :=
  let endx := end_ ctx in
  let xend := data - MAX_OFFSET in
  Find_loop ctx data xend endx MAX_CHAIN
            (window ctx (WindowPos ctx data)) 2 off0.

(** *** Instrumentation used to state what [Find] does

    [Find_visited] mirrors [Find_loop] and lists the candidates on which
    the loop body runs, in the order of the walk. *)
Fixpoint Find_visited (ctx : XpressDictionary) (data xend endx : Z)
  (chain_length : nat) (x len : Z) : list Z :=
  match chain_length with
  | O => []
  | S k =>
      if x <? xend then []
      else
        let next := window ctx (WindowPos ctx x) in
        x :: (if (rd x =? rd data) && (rd (x + 1) =? rd (data + 1)) then
                let l := GetMatchLength x data endx in
                if len <? l then
                  if NICE_LENGTH <=? l then []
                  else Find_visited ctx data xend endx k next l
                else Find_visited ctx data xend endx k next len
              else Find_visited ctx data xend endx k next len)
  end.

(** The first [n] entries of the hash chain that starts at [x]. *)
Fixpoint chain (ctx : XpressDictionary) (x : Z) (n : nat) : list Z :=
  match n with
  | O => []
  | S k => x :: chain ctx (window ctx (WindowPos ctx x)) k
  end.

(** The length a candidate offers: the compared length when its first two
    bytes agree with those at [data], and 0 when the loop skips it. *)
Definition cand_len (data endx x : Z) : Z :=
  if (rd x =? rd data) && (rd (x + 1) =? rd (data + 1))
  then GetMatchLength x data endx else 0.

(** What one candidate does to the best (length, offset) so far. *)
Definition best_step (data endx : Z) (best : Z * Z) (x : Z) : Z * Z :=
  if best.1 <? cand_len data endx x
  then (cand_len data endx x, u32 (data - x)) else best.

(** The dictionary states the encoder produces: [Init] on the input
    [[start_, end__)], then [Fill] at the start of chunk 0, 1, ..., [k-1]. *)
Inductive chunks_filled (window0 : memory) (start_ end__ : Z)
  : nat → XpressDictionary → Prop :=
| chunks_filled_init :
    chunks_filled window0 start_ end__ O
                  (XpressDictionary_init window0 start_ end__)
| chunks_filled_fill k ctx :
    chunks_filled window0 start_ end__ k ctx →
    chunks_filled window0 start_ end__ (S k)
                  (Fill ctx (start_ + Z.of_nat k * CHUNK_SIZE)).1.

End WithInput.

End Dictionary.

(** ** Counted loops

    [for_loop n i body s] runs [body i], [body (i+1)], ..., [n] times:
    the C loop [for (k = i; k < i + n; ++k) body]. *)

Fixpoint for_loop {St : Type} (n i : nat) (body : nat → St → St) (s : St)
  : St :=
  match n with
  | O => s
  | S k => for_loop k (S i) body (body i s)
  end.

(** ** sorting.h *)

Module Sorting.

Local Open Scope nat_scope.

Definition SORT_SWITCH_TO_INSERT_LIMIT : nat := 90.

(** All four instances of the two macros share one model: [conditions] is
    the key array ([uint8_t] or [uint32_t] values) and [syms] the array of
    symbol indices; a pointer [syms + o] is the pair of the array and the
    offset [o]. *)

(** The inner [while (j > 0 && conditions[syms[j-1]] > cond)]. *)
Fixpoint insertion_sort_shift (conditions : list Z) (cond : Z)
  (o : nat) (j : nat) (syms : list nat) : list nat * nat :=
  match j with
  | O => (syms, O)
  | S j' =>
      if Z.ltb cond (conditions !!! (syms !!! (o + j')))
      then insertion_sort_shift conditions cond o j'
             (<[o + j := syms !!! (o + j')]> syms)
      else (syms, j)
  end.

Definition insertion_sort_step (conditions : list Z) (o : nat)
  (i : nat) (syms : list nat) : list nat :=
  let x := syms !!! (o + i) in
  let cond := conditions !!! x in
  let '(syms', j) := insertion_sort_shift conditions cond o i syms in
  <[o + j := x]> syms'.

Definition insertion_sort (conditions : list Z) (o len : nat)
  (syms : list nat) : list nat :=
  for_loop (len - 1) 1 (insertion_sort_step conditions o) syms.

(** [memcpy(dst + d, src + s, n * sizeof(uint16_t))]. *)
Definition memcpy (dst : list nat) (d : nat) (src : list nat) (s n : nat)
  : list nat :=
  for_loop n 0 (fun k acc => <[d + k := src !!! (s + k)]> acc) dst.

(** The merging [while (j < m && k < len)]; returns [syms], [i], [j], [k]. *)
Fixpoint merge_loop (fuel : nat) (conditions : list Z) (temp : list nat)
  (o m len : nat) (syms : list nat) (i j k : nat)
  : list nat * nat * nat * nat :=
  match fuel with
  | O => (syms, i, j, k)
  | S f =>
      if (j <? m) && (k <? len) then
        if Z.ltb (conditions !!! (temp !!! (o + k)))
                 (conditions !!! (temp !!! (o + j)))
        then merge_loop f conditions temp o m len
               (<[o + i := temp !!! (o + k)]> syms) (S i) j (S k)
        else merge_loop f conditions temp o m len
               (<[o + i := temp !!! (o + j)]> syms) (S i) (S j) k
      else (syms, i, j, k)
  end.

(** [fuel] bounds the recursion depth; [len] halves at each level. *)
Fixpoint merge_sort (fuel : nat) (conditions : list Z) (o len : nat)
  (st : list nat * list nat) : list nat * list nat :=
  let '(syms, temp) := st in
  if len <? SORT_SWITCH_TO_INSERT_LIMIT then
    (insertion_sort conditions o len syms, temp)
  else
    match fuel with
    | O => st
    | S f =>
        let m := Nat.shiftr len 1 in
        let st1 := merge_sort f conditions o m st in
        let '(syms2, temp2) := merge_sort f conditions (o + m) (len - m) st1 in
        let temp3 := memcpy temp2 o syms2 o len in
        let '(syms3, i, j, k) :=
          merge_loop len conditions temp3 o m len syms2 0 0 m in
        if j <? m then (memcpy syms3 (o + i) temp3 (o + j) (m - j), temp3)
        else if k <? len
             then (memcpy syms3 (o + i) temp3 (o + k) (len - k), temp3)
             else (syms3, temp3)
    end.

End Sorting.

(** ** HuffmanEncoder.h *)

Module Huffman.

Local Open Scope nat_scope.

Definition HUFF_BITS_MAX : nat := 15.
Definition SYMBOLS : nat := 0x200.

Record HuffmanEncoder := mkHuffmanEncoder {
  codes : list Z;   (* uint16_t codes[SYMBOLS] *)
  lens  : list Z    (* uint8_t  lens[SYMBOLS]  *)
}.

(** *** The min-heap macros

    [heap] holds node numbers in the slots [1 .. heap_len]; slot 0 holds
    node 0, whose weight 0 is the sentinel that stops [HEAP_PUSH]. *)

Fixpoint HEAP_PUSH_loop (fuel : nat) (weights : list Z) (x : nat)
  (heap : list nat) (j : nat) : list nat * nat :=
  match fuel with
  | O => (heap, j)
  | S f =>
      let p := Nat.div2 j in
      if Z.ltb (weights !!! x) (weights !!! (heap !!! p))
      then HEAP_PUSH_loop f weights x (<[j := heap !!! p]> heap) p
      else (heap, j)
  end.

Definition HEAP_PUSH (weights : list Z) (x : nat) (h : list nat * nat)
  : list nat * nat :=
  let '(heap, heap_len) := h in
  let heap_len' := S heap_len in
  let heap1 := <[heap_len' := x]> heap in
  let '(heap2, j) := HEAP_PUSH_loop heap_len' weights x heap1 heap_len' in
  (<[j := x]> heap2, heap_len').

Fixpoint HEAP_POP_loop (fuel : nat) (weights : list Z) (t heap_len : nat)
  (heap : list nat) (i : nat) : list nat * nat :=
  match fuel with
  | O => (heap, i)
  | S f =>
      let j := 2 * i in
      if heap_len <? j then (heap, i)
      else
        let j := if (j <? heap_len)
                    && Z.ltb (weights !!! (heap !!! (j + 1)))
                             (weights !!! (heap !!! j))
                 then j + 1 else j in
        if Z.ltb (weights !!! t) (weights !!! (heap !!! j)) then (heap, i)
        else HEAP_POP_loop f weights t heap_len (<[i := heap !!! j]> heap) j
  end.

Definition HEAP_POP (weights : list Z) (h : list nat * nat)
  : list nat * nat :=
  let '(heap, heap_len) := h in
  let t := heap !!! heap_len in
  let heap1 := <[1 := t]> heap in
  let heap_len' := heap_len - 1 in
  let '(heap2, i) := HEAP_POP_loop heap_len weights t heap_len' heap1 1 in
  (<[i := t]> heap2, heap_len').

(** *** CreateCodes: the heap-based builder *)

Record tree_state := mkTree {
  weights : list Z;     (* uint32_t weights[SYMBOLS * 2] *)
  heap    : list nat;   (* heap[SYMBOLS + 2] *)
  heap_len : nat;
  n_nodes : nat;
  parents : list nat    (* parents[SYMBOLS * 2] *)
}.

Definition combine_weights (w1 w2 : Z) : Z :=
  Z.lor (u32 (Z.land w1 0xffffff00 + Z.land w2 0xffffff00))
        (1 + Z.max (Z.land w1 0xff) (Z.land w2 0xff)).

(** One iteration of [while (heap_len > 1)]. *)
Definition build_step (st : tree_state) : tree_state :=
  let n1 := heap st !!! 1 in
  let h1 := HEAP_POP (weights st) (heap st, heap_len st) in
  let n2 := h1.1 !!! 1 in
  let h2 := HEAP_POP (weights st) h1 in
  let n := S (n_nodes st) in
  let parents' := <[n1 := n]> (<[n2 := n]> (parents st)) in
  let weights' :=
    <[n := combine_weights (weights st !!! n1) (weights st !!! n2)]>
      (weights st) in
  let h3 := HEAP_PUSH weights' n h2 in
  {| weights := weights'; heap := h3.1; heap_len := h3.2;
     n_nodes := n; parents := parents' |}.

Fixpoint build_tree (fuel : nat) (st : tree_state) : tree_state :=
  match fuel with
  | O => st
  | S f => if 1 <? heap_len st then build_tree f (build_step st) else st
  end.

(** [while (parents[k] > 0) { k = parents[k]; ++j; }] with [uint8_t j]. *)
Fixpoint depth_loop (fuel : nat) (parents : list nat) (k : nat) (j : Z) : Z :=
  match fuel with
  | O => j
  | S f =>
      if 0 <? parents !!! k
      then depth_loop f parents (parents !!! k) (u8 (j + 1))
      else j
  end.

(** The loop that stores the lengths; the state is [lens] and [too_long]. *)
Definition lens_step (parents : list nat) (i : nat) (s : list Z * bool)
  : list Z * bool :=
  let j := depth_loop (2 * SYMBOLS) parents i 0 in
  (<[i - 1 := j]> s.1, (Z.ltb (Z.of_nat HUFF_BITS_MAX) j) || s.2).

Definition initial_weights (symbol_counts : list Z) : list Z :=
  for_loop SYMBOLS 0
    (fun i w =>
       let c := symbol_counts !!! i in
       <[i + 1 := u32 (Z.shiftl (if Z.eqb c 0 then 1%Z else c) 8)]> w)
    (replicate (2 * SYMBOLS) 0%Z).

Definition rescale_weights (w : list Z) : list Z :=
  for_loop SYMBOLS 1
    (fun i w => <[i := u32 (Z.shiftl (1 + Z.shiftr (w !!! i) 9) 8)]> w) w.

(** One pass of the outer [for (;;)]: heap, tree, lengths. *)
Definition lengths_pass (weights_ : list Z) (lens_ : list Z)
  : list Z * list Z * bool :=
  let h := for_loop SYMBOLS 1 (HEAP_PUSH weights_)
             (replicate (SYMBOLS + 2) 0, 0) in
  let st := build_tree SYMBOLS
              {| weights := weights_; heap := h.1; heap_len := h.2;
                 n_nodes := SYMBOLS; parents := replicate (2 * SYMBOLS) 0 |} in
  let r := for_loop SYMBOLS 1 (lens_step (parents st)) (lens_, false) in
  (weights st, r.1, r.2).

(** [fuel] bounds the number of passes; [None] when it runs out. *)
Fixpoint lengths_loop (fuel : nat) (weights_ : list Z) (lens_ : list Z)
  : option (list Z) :=
  match fuel with
  | O => None
  | S f =>
      let '(w, l, too_long) := lengths_pass weights_ lens_ in
      if too_long then lengths_loop f (rescale_weights w) l else Some l
  end.

Definition min_max_step (lens_ : list Z) (i : nat) (mm : Z * Z) : Z * Z :=
  let '(min, max) := mm in
  if Z.ltb max (lens_ !!! i) then (min, lens_ !!! i)
  else if Z.ltb (lens_ !!! i) min then (lens_ !!! i, max)
  else (min, max).

(** The inner loop of the code assignment; the state is [codes], [code]. *)
Definition assign_step (lens_ : list Z) (n : Z) (i : nat) (s : list Z * Z)
  : list Z * Z :=
  if Z.eqb (lens_ !!! i) n then (<[i := s.2]> s.1, u16 (s.2 + 1)) else s.

Definition assign_length (lens_ : list Z) (n : nat) (s : list Z * Z)
  : list Z * Z :=
  let s' := for_loop SYMBOLS 0 (assign_step lens_ (Z.of_nat n)) s in
  (s'.1, u16 (Z.shiftl s'.2 1)).

Definition assign_codes (lens_ : list Z) (codes_ : list Z) : list Z :=
  let '(min, max) :=
    for_loop (SYMBOLS - 1) 1 (min_max_step lens_)
             (lens_ !!! 0, lens_ !!! 0) in
  (for_loop (Z.to_nat (max + 1 - min)) (Z.to_nat min)
            (assign_length lens_) (codes_, 0%Z)).1.

Definition CreateCodes (fuel : nat) (ctx : HuffmanEncoder)
  (symbol_counts : list Z) : option HuffmanEncoder :=
  let codes0 := replicate SYMBOLS 0%Z in
  match lengths_loop fuel (initial_weights symbol_counts) (lens ctx) with
  | None => None
  | Some l => Some {| codes := assign_codes l codes0; lens := l |}
  end.

(** *** CreateCodesSlow: package-merge *)

Record collection := mkCollection {
  symbols : list Z;   (* uint8_t symbols[SYMBOLS] *)
  count   : Z         (* uint_fast16_t *)
}.

Definition zero_collection : collection :=
  {| symbols := replicate SYMBOLS 0%Z; count := 0 |}.

#[global] Instance collection_inhabited : Inhabited collection :=
  populate zero_collection.

(** The loop that gathers the symbols that occur; the state is
    [syms_by_count], [syms_by_len], [len] and [lens]. *)
Definition gather_step (symbol_counts : list Z) (i : nat)
  (s : list nat * list nat * nat * list Z) : list nat * list nat * nat * list Z :=
  let '(syms_by_count, syms_by_len, len, lens_) := s in
  if Z.eqb (symbol_counts !!! i) 0 then s
  else (<[len := i]> syms_by_count, <[len := i]> syms_by_len, S len,
        <[i := Z.of_nat HUFF_BITS_MAX]> lens_).

(** One pass of the [for (i = 0; i < 2; ++i)] that picks the cheaper of the
    next package and the next symbol into the package being built. *)
Definition pick (symbol_counts : list Z) (syms_by_count : list nat)
  (len : nat) (cols : list collection) (cols_len : nat)
  (s : collection * nat * nat) : collection * nat * nat :=
  let '(next, cols_pos, pos) := s in
  if (len <=? pos)
     || ((cols_pos <? cols_len)
         && Z.ltb (count (cols !!! cols_pos))
                  (symbol_counts !!! (syms_by_count !!! pos)))
  then
    let c := cols !!! cols_pos in
    ({| count := ufast16 (count next + count c);
        symbols := zip_with (fun a b => u8 (a + b)) (symbols next) (symbols c) |},
     S cols_pos, pos)
  else
    let sym := syms_by_count !!! pos in
    ({| count := ufast16 (count next + symbol_counts !!! sym);
        symbols := <[sym := u8 (symbols next !!! sym + 1)]> (symbols next) |},
     cols_pos, S pos).

(** [while ((cols_len - cols_pos + len - pos) > 1)]; the state is
    [next_cols], [next_cols_len], [cols_pos], [pos]. *)
Fixpoint package_loop (fuel : nat) (symbol_counts : list Z)
  (syms_by_count : list nat) (len : nat) (cols : list collection)
  (cols_len : nat) (s : list collection * nat * nat * nat)
  : list collection * nat * nat * nat :=
  match fuel with
  | O => s
  | S f =>
      let '(next_cols, next_cols_len, cols_pos, pos) := s in
      if 1 <? cols_len - cols_pos + len - pos then
        let p := pick symbol_counts syms_by_count len cols cols_len in
        let '(next, cols_pos', pos') := p (p (zero_collection, cols_pos, pos)) in
        package_loop f symbol_counts syms_by_count len cols cols_len
          (<[next_cols_len := next]> next_cols, S next_cols_len, cols_pos', pos')
      else s
  end.

(** One row [j] of the package-merge table; the state is [cols],
    [next_cols], [cols_len] and [lens]. *)
Definition package_merge_row (symbol_counts : list Z)
  (syms_by_count : list nat) (len : nat) (j : nat)
  (s : list collection * list collection * nat * list Z)
  : list collection * list collection * nat * list Z :=
  let '(cols, next_cols, cols_len, lens_) := s in
  let '(next_cols', next_cols_len, cols_pos, pos) :=
    package_loop (cols_len + len) symbol_counts syms_by_count len cols
                 cols_len (next_cols, 0, 0, 0) in
  let lens' :=
    if cols_pos <? cols_len then
      zip_with (fun l c => u8 (l - c)) lens_ (symbols (cols !!! cols_pos))
    else if pos <? len then
      <[syms_by_count !!! pos := u8 (lens_ !!! (syms_by_count !!! pos) - 1)]> lens_
    else lens_ in
  (next_cols', cols, next_cols_len, lens').

(** The final loop giving each symbol its code from its predecessor's. *)
Definition slow_code_step (lens_ : list Z) (syms_by_len : list nat)
  (i : nat) (codes_ : list Z) : list Z :=
  let cur := syms_by_len !!! i in
  let prev := syms_by_len !!! (i - 1) in
  <[cur := u16 (Z.shiftl (codes_ !!! prev + 1)
                         (lens_ !!! cur - lens_ !!! prev))]> codes_.

Definition CreateCodesSlow (ctx : HuffmanEncoder) (symbol_counts : list Z)
  : HuffmanEncoder :=
  let codes0 := replicate SYMBOLS 0%Z in
  let lens0 := replicate SYMBOLS 0%Z in
  let '(syms_by_count, syms_by_len, len, lens1) :=
    for_loop SYMBOLS 0 (gather_step symbol_counts)
             (replicate SYMBOLS 0, replicate SYMBOLS 0, 0, lens0) in
  let '(syms_by_count, temp) :=
    Sorting.merge_sort len symbol_counts 0 len
                       (syms_by_count, replicate SYMBOLS 0) in
  if len =? 1 then
    {| codes := codes0; lens := <[syms_by_count !!! 0 := 1%Z]> lens1 |}
  else
    let '(_, _, _, lens2) :=
      for_loop HUFF_BITS_MAX 0
        (package_merge_row symbol_counts syms_by_count len)
        (replicate SYMBOLS zero_collection, replicate SYMBOLS zero_collection,
         0, lens1) in
    let '(syms_by_len, _) :=
      Sorting.merge_sort len lens2 0 len (syms_by_len, temp) in
    {| codes := for_loop (len - 1) 1 (slow_code_step lens2 syms_by_len) codes0;
       lens := lens2 |}.

Definition EncodeSymbol (ctx : HuffmanEncoder) (sym : nat)
  (bits : Bitstream.OutputBitstream * memory)
  : Bitstream.OutputBitstream * memory :=
  Bitstream.WriteBits bits (codes ctx !!! sym) (lens ctx !!! sym).

End Huffman.

(** ** The compressor *)

Module Xpress.

Import Bitstream Dictionary Huffman.

Definition STREAM_END : nat := 0x100.
Definition STREAM_END_LEN_1 : Z := 1.
Definition HALF_SYMBOLS : Z := 0x100.
Definition MIN_DATA : Z := HALF_SYMBOLS + 4.

Definition ENOMEM  : Z := 12.
Definition ENOBUFS : Z := 105.

(** [size_t] is 64 bits wide. *)
Definition xpress_huff_max_compressed_size (in_len : Z) : Z :=
  u64 (in_len + 34 + (HALF_SYMBOLS + 2)
       + (HALF_SYMBOLS + 2) * (in_len / CHUNK_SIZE)).

(** [++symbol_counts[k]] on [uint32_t] counters. *)
Definition incr (symbol_counts : list Z) (k : nat) : list Z :=
  <[k := u32 (symbol_counts !!! k + 1)]> symbol_counts.

(** [memcpy(dst, src, n)] from the input buffer into a scratch buffer. *)
Definition memcpy (dstm : memory) (dst : Z) (srcm : memory) (src : Z)
  (n : nat) : memory :=
  for_loop n 0
    (fun k m => <[dst + Z.of_nat k := srcm (src + Z.of_nat k)]> m) dstm.

(** [memset(dst, 0, n)]. *)
Definition memset0 (dstm : memory) (dst : Z) (n : nat) : memory :=
  for_loop n 0 (fun k m => <[dst + Z.of_nat k := 0]> m) dstm.

Section WithInput.

(** The caller's input buffer. *)
Variable rd : memory.

(** *** xh_compress_lz77 *)

Record lz77_state := mkLz77 {
  lz_in   : Z;           (* in  *)
  lz_rem  : Z;           (* rem *)
  lz_out  : Z;           (* out *)
  lz_mask : Z;           (* mask *)
  lz_buf  : memory;      (* the scratch buffer [out] points into *)
  lz_counts : list Z     (* symbol_counts *)
}.

(** The three ways of storing [length - 3] after a match. *)
Definition lz77_length_ext (buf : memory) (out len : Z) : memory * Z :=
  if 0xFFFF <? len then
    (SET_UINT32_RAW (SET_UINT16_RAW (<[out := 0xFF]> buf) (out + 1) 0)
                    (out + 3) len, out + 7)
  else if 0xFF + 0xF <=? len then
    (SET_UINT16_RAW (<[out := 0xFF]> buf) (out + 1) len, out + 3)
  else if 0xF <=? len then
    (<[out := u8 (len - 0xF)]> buf, out + 1)
  else (buf, out).

(** The body of [for (i = 0; i < 32 && rem > 0; ++i)].  The local [off] is
    uninitialised when [Find] is called; it is read only after [Find] has
    stored into it, and is modelled as 0 on entry.  [log2] on the 16-bit
    argument is the position of its highest set bit. *)
Definition lz77_item (d : XpressDictionary) (st : lz77_state) : lz77_state :=
  let mask := Z.shiftr (lz_mask st) 1 in
  let found :=
    if 3 <=? lz_rem st then Find rd d (lz_in st) 0 else (0, 0) in
  if (3 <=? lz_rem st) && (3 <=? found.1) then
    let off := found.2 in
    let len := if u32 (lz_rem st) <? found.1 then lz_rem st else found.1 in
    let in' := lz_in st + len in
    let rem' := lz_rem st - len in
    let len := u32 (len - 3) in
    let mask := Z.lor mask 0x80000000 in
    let off_bits := u8 (Z.log2 (u16 (Z.lor off 1))) in
    let sym := u8 (Z.lor (Z.shiftl off_bits 4) (u8 (Z.min 0xF len))) in
    let counts := incr (lz_counts st) (Z.to_nat (Z.lor 0x100 sym)) in
    let off := u32 (Z.lxor off (Z.shiftl 1 off_bits)) in
    let out := lz_out st in
    let buf := SET_UINT16_RAW (<[out := sym]> (lz_buf st)) (out + 1) off in
    let '(buf, out) := lz77_length_ext buf (out + 3) len in
    {| lz_in := in'; lz_rem := rem'; lz_out := out; lz_mask := mask;
       lz_buf := buf; lz_counts := counts |}
  else
    let c := rd (lz_in st) in
    {| lz_in := lz_in st + 1; lz_rem := lz_rem st - 1;
       lz_out := lz_out st + 1; lz_mask := mask;
       lz_buf := <[lz_out st := c]> (lz_buf st);
       lz_counts := incr (lz_counts st) (Z.to_nat c) |}.

(** [for (i = 0; i < 32 && rem > 0; ++i)]: returns the final [i]. *)
Fixpoint lz77_group (n : nat) (d : XpressDictionary) (i : Z)
  (st : lz77_state) : Z * lz77_state :=
  match n with
  | O => (i, st)
  | S k =>
      if (i <? 32) && (0 <? lz_rem st)
      then lz77_group k d (i + 1) (lz77_item d st)
      else (i, st)
  end.

(** [while (rem > 0)]: the state also carries [i] and [mask_out]. *)
Fixpoint lz77_loop (fuel : nat) (d : XpressDictionary)
  (s : Z * Z * lz77_state) : Z * Z * lz77_state :=
  match fuel with
  | O => s
  | S f =>
      let '(i, mask_out, st) := s in
      if 0 <? lz_rem st then
        let mask_out := lz_out st in
        let st1 :=
          {| lz_in := lz_in st; lz_rem := lz_rem st; lz_out := lz_out st + 4;
             lz_mask := 0; lz_buf := lz_buf st; lz_counts := lz_counts st |} in
        let '(i, st2) := lz77_group 32 d 0 st1 in
        let st3 :=
          {| lz_in := lz_in st2; lz_rem := lz_rem st2; lz_out := lz_out st2;
             lz_mask := lz_mask st2;
             lz_buf := SET_UINT32_RAW (lz_buf st2) mask_out (lz_mask st2);
             lz_counts := lz_counts st2 |} in
        lz77_loop f d (i, mask_out, st3)
      else s
  end.

(** Returns the dictionary after [Fill], the scratch buffer, the histogram
    and the number of scratch bytes.  [i], [mask] and [mask_out] are
    uninitialised before the first group; the entry point only passes
    [in_len >= 1], so they are always assigned, and they start as 0 here. *)
Definition xh_compress_lz77 (in_ in_len in_end : Z) (buf : memory) (out : Z)
  (d : XpressDictionary) : XpressDictionary * memory * list Z * Z :=
  let d := (Fill rd d in_).1 in
  let st0 := {| lz_in := in_; lz_rem := in_len; lz_out := out; lz_mask := 0;
                lz_buf := buf;
                lz_counts := replicate Huffman.SYMBOLS 0 |} in
  let '(i, mask_out, st) := lz77_loop (Z.to_nat in_len) d (0, 0, st0) in
  let mask := Z.shiftr (lz_mask st) (32 - i) in
  let '(mask, buf, out', counts) :=
    if in_ + in_len =? in_end then
      let '(mask, buf, out') :=
        if i =? 32
        then (mask, SET_UINT32_RAW (lz_buf st) (lz_out st) 1, lz_out st + 4)
        else (u32 (Z.lor mask (Z.shiftl 1 i)), lz_buf st, lz_out st) in
      (mask, SET_UINT32_RAW buf out' 0, out' + 3,
       incr (lz_counts st) STREAM_END)
    else (mask, lz_buf st, lz_out st, lz_counts st) in
  (d, SET_UINT32_RAW buf mask_out mask, counts, out' - out).

(** *** xh_compress_no_matching *)

(** [for (i = 0; i < n; ++i) ++symbol_counts[*in++]]. *)
Definition count_bytes (in_ : Z) (n : nat) (symbol_counts : list Z) : list Z :=
  for_loop n 0
    (fun k c => incr c (Z.to_nat (rd (in_ + Z.of_nat k)))) symbol_counts.

(** [while (in < in_endx)]: the state is [in], [out], the scratch buffer
    and the histogram. *)
Fixpoint no_matching_loop (fuel : nat) (in_endx : Z)
  (s : Z * Z * memory * list Z) : Z * Z * memory * list Z :=
  match fuel with
  | O => s
  | S f =>
      let '(in_, out, buf, counts) := s in
      if in_ <? in_endx then
        let buf := SET_UINT32_RAW buf out 0 in
        let buf := memcpy buf (out + 4) rd in_ 32 in
        no_matching_loop f in_endx
          (in_ + 32, out + 4 + 32, buf, count_bytes in_ 32 counts)
      else s
  end.

Definition xh_compress_no_matching (in_ in_len : Z) (is_end : bool)
  (buf : memory) (out : Z) : memory * list Z * Z :=
  let in_end := in_ + in_len in
  let in_endx := in_end - 32 in
  let '(in1, out1, buf1, counts1) :=
    no_matching_loop (Z.to_nat in_len) in_endx
                     (in_, out, buf, replicate Huffman.SYMBOLS 0) in
  let rem := in_end - in1 in
  let buf2 := SET_UINT32_RAW buf1 out1 0 in
  let buf3 := memcpy buf2 (out1 + 4) rd in1 (Z.to_nat rem) in
  let out2 := out1 + 4 + rem in
  let counts2 := count_bytes in1 (Z.to_nat rem) counts1 in
  if is_end then
    let '(buf4, out3) :=
      if rem =? 32 then (SET_UINT32_RAW buf3 out2 1, out2 + 4)
      else (SET_UINT32_RAW buf3 (out2 - rem - 4) (u32 (Z.shiftl 1 rem)), out2) in
    (SET_UINT32_RAW buf4 out3 0, incr counts2 STREAM_END, out3 + 3 - out)
  else (buf3, counts2, out2 - out).

(** *** xh_calc_compressed_len and xh_calc_compressed_len_no_matching

    [sym_bits] is a [size_t]; the literal products are [uint32_t], the
    match products are formed in [uint_fast16_t] because of the index. *)

Definition calc_literal_step (lens_ counts : list Z) (i : nat)
  (s : Z * Z) : Z * Z :=
  (u64 (s.1 + u32 (lens_ !!! i * counts !!! i)), u32 (s.2 + counts !!! i)).

Definition calc_match_step (lens_ counts : list Z) (i : nat)
  (s : Z * Z) : Z * Z :=
  (u64 (s.1 + u64 ((lens_ !!! i + Z.land (Z.shiftr (Z.of_nat i) 4) 0xF)
                   * counts !!! i)),
   u32 (s.2 + counts !!! i)).

Definition xh_calc_compressed_len (lens_ symbol_counts : list Z)
  (buf_len : Z) : Z :=
  let '(sym_bits, literal_syms) :=
    for_loop 0x100 0 (calc_literal_step lens_ symbol_counts) (16, 0) in
  let '(sym_bits, match_syms) :=
    for_loop 0x100 0x100 (calc_match_step lens_ symbol_counts) (sym_bits, 0) in
  u64 ((sym_bits + 15) / 16 * 2
       + u64 (buf_len
              - u32 (literal_syms + match_syms * 3
                     + u32 (literal_syms + match_syms + 31) / 32 * 4))).

Definition xh_calc_compressed_len_no_matching (lens_ symbol_counts : list Z)
  : Z :=
  let sym_bits :=
    for_loop 0x101 0
      (fun i s => u64 (s + u32 (lens_ !!! i * symbol_counts !!! i))) 16 in
  u64 ((sym_bits + 15) / 16 * 2).

(** *** xh_compress_encode *)

Abbreviation bitstream := (OutputBitstream * memory)%type.

(** A match item of the scratch buffer [buf] at [in_]. *)
Definition encode_match (encoder : HuffmanEncoder) (buf : memory)
  (in_ : Z) (bstr : bitstream) : Z * bitstream :=
  let sym := buf in_ in
  let in_ := in_ + 1 in
  let off := GET_UINT16_RAW buf in_ in
  let in_ := in_ + 2 in
  let bstr := EncodeSymbol encoder (Z.to_nat (Z.lor 0x100 sym)) bstr in
  let '(in_, bstr) :=
    if Z.land sym 0xF =? 0xF then
      let len8 := buf in_ in
      let in_ := in_ + 1 in
      let bstr := WriteRawByte bstr len8 in
      if len8 =? 0xFF then
        let len16 := GET_UINT16_RAW buf in_ in
        let in_ := in_ + 2 in
        let bstr := WriteRawUInt16 bstr len16 in
        if len16 =? 0
        then (in_ + 4, WriteRawUInt32 bstr (GET_UINT32_RAW buf in_))
        else (in_, bstr)
      else (in_, bstr)
    else (in_, bstr) in
  (in_, WriteBits bstr off (Z.shiftr sym 4)).

(** [for (i = 32, mask = ..., in += 4; mask && in < in_end; --i, mask >>= 1)];
    the state is [i], [mask], [in] and the bitstream. *)
Fixpoint encode_group (n : nat) (encoder : HuffmanEncoder) (buf : memory)
  (in_end : Z) (s : Z * Z * Z * bitstream) : Z * Z * Z * bitstream :=
  match n with
  | O => s
  | S k =>
      let '(i, mask, in_, bstr) := s in
      if negb (mask =? 0) && (in_ <? in_end) then
        let '(in_, bstr) :=
          if Z.land mask 1 =? 1 then encode_match encoder buf in_ bstr
          else (in_ + 1, EncodeSymbol encoder (Z.to_nat (buf in_)) bstr) in
        encode_group k encoder buf in_end (i - 1, Z.shiftr mask 1, in_, bstr)
      else s
  end.

(** [while (in < in_end)] over the groups. *)
Fixpoint encode_loop (fuel : nat) (encoder : HuffmanEncoder) (buf : memory)
  (in_end : Z) (s : Z * bitstream) : Z * bitstream :=
  match fuel with
  | O => s
  | S f =>
      let '(in_, bstr) := s in
      if in_ <? in_end then
        let '(i, _, in_, bstr) :=
          encode_group 33 encoder buf in_end
                       (32, GET_UINT32_RAW buf in_, in_ + 4, bstr) in
        let end__ := Z.min (in_ + i) in_end in
        let bstr :=
          for_loop (Z.to_nat (end__ - in_)) 0
            (fun k b => EncodeSymbol encoder
                          (Z.to_nat (buf (in_ + Z.of_nat k))) b) bstr in
        encode_loop f encoder buf in_end (end__, bstr)
      else s
  end.

Definition xh_compress_encode (buf : memory) (in_ in_end : Z)
  (outm : memory) (out : Z) (encoder : HuffmanEncoder) : memory :=
  let bstr := (OutputBitstream_init out, outm) in
  Finish (encode_loop (Z.to_nat (in_end - in_)) encoder buf in_end
                      (in_, bstr)).2.

(** *** xpress_huff_compress *)

(** What the allocator hands out: [buf_alloc] is [None] when [malloc]
    returns [NULL], and otherwise the scratch buffer; [window0] is the
    content of the freshly allocated window array. *)
Record allocator := mkAllocator {
  buf_alloc : option memory;
  window0   : memory
}.

Record result := mkResult {
  status  : Z;        (* the returned error code *)
  out_len : Z;        (* [*_out_len] when the function returns *)
  out_mem : memory    (* the caller's output buffer *)
}.

(** [for (end = lens + SYMBOLS; lens < end; lens += 2) *out++ = ...]. *)
Definition write_lens (lens_ : list Z) (outm : memory) (out : Z) : memory :=
  for_loop 0x100 0
    (fun i m =>
       <[out + Z.of_nat i :=
           u8 (Z.lor (lens_ !!! (2 * i)%nat)
                     (Z.shiftl (lens_ !!! (2 * i + 1)%nat) 4))]> m) outm.

(** The state of the entry point's chunk loop. *)
Record compress_state := mkCompress {
  cs_in      : Z;
  cs_in_len  : Z;
  cs_out     : Z;
  cs_out_len : Z;
  cs_outm    : memory;
  cs_buf     : memory;
  cs_d       : XpressDictionary;
  cs_encoder : HuffmanEncoder
}.

(** The body shared by the chunk loop ([len = CHUNK_SIZE], not the end,
    limit [CHUNK_SIZE + 2]) and by the last chunk ([len = in_len], the end,
    limit [in_len + 36]).  The outer [option] is [None] when [CreateCodes]
    does not finish within [fuel] passes; the inner value is the new state,
    or the error code with the output buffer as it stands. *)
Definition compress_chunk (fuel : nat) (in_end len limit : Z) (is_end : bool)
  (st : compress_state) : option (compress_state + Z * memory) :=
  let '(d, buf, symbol_counts, buf_len) :=
    xh_compress_lz77 (cs_in st) len in_end (cs_buf st) 0 (cs_d st) in
  match CreateCodes fuel (cs_encoder st) symbol_counts with
  | None => None
  | Some encoder =>
      let comp_len := xh_calc_compressed_len (lens encoder) symbol_counts buf_len in
      let '(buf, symbol_counts, buf_len, encoder, comp_len) :=
        if limit <? comp_len then
          let '(buf, symbol_counts, buf_len) :=
            xh_compress_no_matching (cs_in st) len is_end buf 0 in
          let encoder := CreateCodesSlow encoder symbol_counts in
          (buf, symbol_counts, buf_len, encoder,
           xh_calc_compressed_len_no_matching (lens encoder) symbol_counts)
        else (buf, symbol_counts, buf_len, encoder, comp_len) in
      if cs_out_len st <? u64 (HALF_SYMBOLS + comp_len)
      then Some (inr (ENOBUFS, cs_outm st))
      else
        let outm := write_lens (lens encoder) (cs_outm st) (cs_out st) in
        let out := cs_out st + HALF_SYMBOLS in
        let outm := xh_compress_encode buf 0 buf_len outm out encoder in
        Some (inl {| cs_in := cs_in st + len;
                     cs_in_len := cs_in_len st - len;
                     cs_out := out + comp_len;
                     cs_out_len := u64 (cs_out_len st - u64 (HALF_SYMBOLS + comp_len));
                     cs_outm := outm;
                     cs_buf := buf;
                     cs_d := d;
                     cs_encoder := encoder |})
  end.

(** [while (in_len > CHUNK_SIZE)]. *)
Fixpoint chunk_loop (n fuel : nat) (in_end : Z) (st : compress_state)
  : option (compress_state + Z * memory) :=
  match n with
  | O => Some (inl st)
  | S k =>
      if CHUNK_SIZE <? cs_in_len st then
        match compress_chunk fuel in_end CHUNK_SIZE (CHUNK_SIZE + 2) false st with
        | Some (inl st') => chunk_loop k fuel in_end st'
        | r => r
        end
      else Some (inl st)
  end.

(** The entry point.  [in_], [in_len] describe the input held in [rd];
    [out], [out_len0] the output buffer [outm] and the capacity found in
    [*_out_len].  The encoder structure lives on the stack; all of its
    entries are stored before they are read, and it starts zeroed here. *)
Definition xpress_huff_compress (fuel : nat) (alloc : allocator)
  (in_ in_len : Z) (outm : memory) (out out_len0 : Z) : option result :=
  if in_len =? 0 then
    Some {| status := 0; out_len := 0; out_mem := outm |}
  else
    match buf_alloc alloc with
    | None => Some {| status := ENOMEM; out_len := out_len0; out_mem := outm |}
    | Some buf =>
        let out_orig := out in
        let in_end := in_ + in_len in
        let st0 :=
          {| cs_in := in_; cs_in_len := in_len; cs_out := out;
             cs_out_len := out_len0; cs_outm := outm; cs_buf := buf;
             cs_d := XpressDictionary_init (window0 alloc) in_ in_end;
             cs_encoder := {| codes := replicate Huffman.SYMBOLS 0;
                              lens := replicate Huffman.SYMBOLS 0 |} |} in
        match chunk_loop (Z.to_nat (in_len / CHUNK_SIZE)) fuel in_end st0 with
        | None => None
        | Some (inr (e, outm')) =>
            Some {| status := e; out_len := out_len0; out_mem := outm' |}
        | Some (inl st) =>
            if cs_in_len st =? 0 then
              if cs_out_len st <? MIN_DATA then
                Some {| status := ENOBUFS; out_len := out_len0;
                        out_mem := cs_outm st |}
              else
                let outm := memset0 (cs_outm st) (cs_out st) (Z.to_nat MIN_DATA) in
                let outm := <[cs_out st + Z.shiftr (Z.of_nat STREAM_END) 1
                              := STREAM_END_LEN_1]> outm in
                Some {| status := 0;
                        out_len := cs_out st + MIN_DATA - out_orig;
                        out_mem := outm |}
            else
              match compress_chunk fuel in_end (cs_in_len st)
                                   (cs_in_len st + 36) true st with
              | None => None
              | Some (inr (e, outm')) =>
                  Some {| status := e; out_len := out_len0; out_mem := outm' |}
              | Some (inl st') =>
                  Some {| status := 0; out_len := cs_out st' - out_orig;
                          out_mem := cs_outm st' |}
              end
        end
    end.

End WithInput.

End Xpress.

(** * Properties *)

(** ** Machine integers and buffers *)

Lemma u8_range x : 0 <= u8 x < 256.
Proof. unfold u8. apply Z.mod_pos_bound. lia. Qed.

Lemma u16_range x : 0 <= u16 x < 65536.
Proof. unfold u16. apply Z.mod_pos_bound. lia. Qed.

Lemma u32_range x : 0 <= u32 x < 4294967296.
Proof. unfold u32. apply Z.mod_pos_bound. lia. Qed.

Lemma u8_small x : 0 <= x < 256 → u8 x = x.
Proof. intros. unfold u8. apply Z.mod_small. lia. Qed.

Lemma u32_small x : 0 <= x < 4294967296 → u32 x = x.
Proof. intros. unfold u32. apply Z.mod_small. lia. Qed.

Lemma u64_small x : 0 <= x < 18446744073709551616 → u64 x = x.
Proof. intros. unfold u64. apply Z.mod_small. lia. Qed.


Lemma for_loop_app {St : Type} (a b i : nat) (body : nat → St → St) (s : St) :
  for_loop (a + b) i body s = for_loop b (i + a) body (for_loop a i body s).
Proof.
  revert i s. induction a as [|a IH]; intros i s; simpl.
  - by rewrite Nat.add_0_r.
  - rewrite IH. f_equal. lia.
Qed.

Lemma for_loop_S_r {St : Type} (n i : nat) (body : nat → St → St) (s : St) :
  for_loop (S n) i body s = body (i + n)%nat (for_loop n i body s).
Proof.
  replace (S n) with (n + 1)%nat by lia. by rewrite for_loop_app.
Qed.

Lemma for_loop_ext {St : Type} (n i : nat) (f g : nat → St → St) (s : St) :
  (∀ k t, (i <= k < i + n)%nat → f k t = g k t) →
  for_loop n i f s = for_loop n i g s.
Proof.
  revert i s. induction n as [|n IH]; intros i s H; simpl; [done|].
  rewrite H by lia. apply IH. intros. apply H. lia.
Qed.

(** An invariant carried through a counted loop. *)
Lemma for_loop_ind {St : Type} (P : nat → St → Prop) (n i : nat)
  (body : nat → St → St) (s : St) :
  P i s →
  (∀ k t, (i <= k < i + n)%nat → P k t → P (S k) (body k t)) →
  P (i + n)%nat (for_loop n i body s).
Proof.
  revert i s. induction n as [|n IH]; intros i s H0 Hstep; simpl.
  - by rewrite Nat.add_0_r.
  - replace (i + S n)%nat with (S i + n)%nat by lia.
    apply IH; [apply Hstep; [lia | done]|].
    intros. apply Hstep; [lia | done].
Qed.

(** ** Bitstream writer *)

Module BitstreamFacts.

Import Bitstream.

(** [WriteBits] when the accumulator does not reach 32 bits: this is the
    behaviour the writer's callers rely on (codes and offset fields are at
    most 15 bits wide). *)
Lemma WriteBits_below_32 (ctx : OutputBitstream) (m : memory) (b n : Z) :
  0 <= bits ctx <= 16 → 0 <= n → bits ctx + n < 32 →
  let mask1 := Z.lor (mask ctx) (u32 (Z.shiftl b (32 - (bits ctx + n)))) in
  WriteBits (ctx, m) b n =
    if 16 <? bits ctx + n then
      ({| out := out ctx + 2; pntr0 := pntr1 ctx; pntr1 := out ctx;
          mask := u32 (Z.shiftl mask1 16); bits := bits ctx + n - 16 |},
       <[pntr0 ctx + 1 := u8 (Z.shiftr (Z.shiftr mask1 16) 8)]>
         (<[pntr0 ctx := u8 (Z.shiftr mask1 16)]> m))
    else
      ({| out := out ctx; pntr0 := pntr0 ctx; pntr1 := pntr1 ctx;
          mask := mask1; bits := bits ctx + n |}, m).
Proof.
  intros Hb Hn Hs mask1. unfold WriteBits, ufast8.
  rewrite u8_small by lia. fold mask1.
  destruct (16 <? bits ctx + n) eqn:E; [|done].
  apply Z.ltb_lt in E.
  replace (Z.land (bits ctx + n) 15) with (bits ctx + n - 16); [done|].
  change 15 with (Z.ones 4). rewrite Z.land_ones by lia.
  change (2 ^ 4) with 16.
  apply Z.mod_unique with (q := 1); lia.
Qed.

(** C6.  The writer holds 16 valid bits and is asked for 16 more, which
    its contract allows: the accumulated word is flushed, yet the count of
    valid bits becomes 0 although 16 bits remain in the accumulator (the
    source replaces [bits -= 16] by [bits &= 0xF]). *)
Theorem WriteBits_16_16_drops_count (o p0 p1 mk : Z) (m : memory) (b : Z) :
  let ctx := {| out := o; pntr0 := p0; pntr1 := p1; mask := mk; bits := 16 |} in
  bits (WriteBits (ctx, m) b 16).1 = 0
  ∧ bits (WriteBits (ctx, m) b 16).1 ≠ bits ctx + 16 - 16
  ∧ out (WriteBits (ctx, m) b 16).1 = o + 2.
Proof. repeat split; done. Qed.

(** C8.  The three raw writers store only at the cursor, advance it by 1,
    2 and 4, and leave the slot pointers, the accumulator and the bit count
    alone; a following [WriteBits] therefore flushes into the slot that was
    pending before the raw write. *)
Theorem WriteRaw_frame (ctx : OutputBitstream) (m : memory) (x b n : Z) :
  let s1 := WriteRawByte (ctx, m) x in
  let s2 := WriteRawUInt16 (ctx, m) x in
  let s4 := WriteRawUInt32 (ctx, m) x in
  (* cursor *)
  (out s1.1 = out ctx + 1 ∧ out s2.1 = out ctx + 2 ∧ out s4.1 = out ctx + 4)
  (* slot pointers, accumulator, bit count *)
  ∧ (∀ s, s = s1 ∨ s = s2 ∨ s = s4 →
       pntr0 s.1 = pntr0 ctx ∧ pntr1 s.1 = pntr1 ctx
       ∧ mask s.1 = mask ctx ∧ bits s.1 = bits ctx)
  (* only the bytes at the cursor change *)
  ∧ (∀ a, a ≠ out ctx → s1.2 a = m a)
  ∧ (∀ a, ¬ (out ctx <= a < out ctx + 2) → s2.2 a = m a)
  ∧ (∀ a, ¬ (out ctx <= a < out ctx + 4) → s4.2 a = m a)
  (* the bytes stored, little-endian *)
  ∧ s1.2 (out ctx) = u8 x
  ∧ (s2.2 (out ctx) = u8 x ∧ s2.2 (out ctx + 1) = u8 (Z.shiftr x 8))
  ∧ (s4.2 (out ctx) = u8 x ∧ s4.2 (out ctx + 1) = u8 (Z.shiftr x 8)
     ∧ s4.2 (out ctx + 2) = u8 (Z.shiftr x 16)
     ∧ s4.2 (out ctx + 3) = u8 (Z.shiftr x 24))
  (* a later flush goes to the slot reserved before the raw write *)
  ∧ (∀ s, s = s1 ∨ s = s2 ∨ s = s4 →
       16 < ufast8 (bits ctx + n) →
       let v := Z.shiftr (Z.lor (mask ctx)
                                (u32 (Z.shiftl b (32 - ufast8 (bits ctx + n)))))
                         16 in
       (WriteBits s b n).2 = SET_UINT16 s.2 (pntr0 ctx) v
       ∧ pntr0 (WriteBits s b n).1 = pntr1 ctx
       ∧ pntr1 (WriteBits s b n).1 = out s.1).
Proof.
  simpl.
  assert (Hne : ∀ (f : memory) a c v, a ≠ c → (<[c := v]> f) a = f a).
  { intros. by apply fn_lookup_insert_ne. }
  assert (Heq : ∀ (f : memory) c v, (<[c := v]> f) c = v).
  { intros. apply fn_lookup_insert. }
  repeat split.
  1-4: destruct H as [-> | [-> | ->]]; done.
  - intros a Ha. by apply Hne.
  - intros a Ha. unfold SET_UINT16, SET_UINT16_RAW. rewrite !Hne; [done|lia..].
  - intros a Ha. unfold SET_UINT32, SET_UINT32_RAW. rewrite !Hne; [done|lia..].
  - apply Heq.
  - unfold SET_UINT16, SET_UINT16_RAW. rewrite Hne by lia. apply Heq.
  - unfold SET_UINT16, SET_UINT16_RAW. apply Heq.
  - unfold SET_UINT32, SET_UINT32_RAW. rewrite !Hne by lia. apply Heq.
  - unfold SET_UINT32, SET_UINT32_RAW. rewrite !Hne by lia. apply Heq.
  - unfold SET_UINT32, SET_UINT32_RAW. rewrite !Hne by lia. apply Heq.
  - unfold SET_UINT32, SET_UINT32_RAW. apply Heq.
  - destruct H as [-> | [-> | ->]]; unfold WriteBits; simpl;
      apply Z.ltb_lt in H0; by rewrite H0.
  - destruct H as [-> | [-> | ->]]; unfold WriteBits; simpl;
      apply Z.ltb_lt in H0; by rewrite H0.
  - destruct H as [-> | [-> | ->]]; unfold WriteBits; simpl;
      apply Z.ltb_lt in H0; by rewrite H0.
Qed.

End BitstreamFacts.

(** ** Dictionary *)

Module DictionaryFacts.

Import Dictionary.

Lemma land_ones_low (a b : Z) (n : Z) :
  0 <= n → (∀ k, 0 <= k < n → Z.testbit a k = Z.testbit b k) →
  Z.land a (Z.ones n) = Z.land b (Z.ones n).
Proof.
  intros Hn H. apply Z.bits_inj'. intros k Hk.
  rewrite !Z.land_spec.
  destruct (Z.lt_ge_cases k n).
  - by rewrite H by lia.
  - rewrite Z.ones_spec_high by lia. by rewrite !andb_false_r.
Qed.

Lemma HashUpdate_init_eq (w0 : memory) (s e h c : Z) :
  HashUpdate (XpressDictionary_init w0 s e) h c
  = Z.land (Z.lxor (Z.shiftl h 5) c) 0x7FFF.
Proof.
  unfold HashUpdate, XpressDictionary_init, ufast16; simpl.
  change (Z.shiftl 1 HASH_BITS - 1) with (Z.ones 15).
  change ((HASH_BITS + 2) / 3) with 5.
  change 32767 with (Z.ones 15).
  rewrite u64_small.
  - apply land_ones_low; [lia|]. intros k Hk.
    rewrite !Z.lxor_spec. f_equal. unfold u64.
    apply Z.mod_pow2_bits_low. lia.
  - rewrite Z.land_ones by lia.
    pose proof (Z.mod_pos_bound
                  (Z.lxor (u64 (Z.shiftl h 5)) c) (2 ^ 15) ltac:(lia)).
    lia.
Qed.

(** C7 as stated fails: the shift amount is not 6, and already for the
    hash state 1 and the byte 0 the update differs from the 6-bit formula. *)
Lemma HashUpdate_shift_not_6 :
  ¬ (HashShift (XpressDictionary_init (fun _ => 0) 65536 65546) = 6
     ∨ HashUpdate (XpressDictionary_init (fun _ => 0) 65536 65546) 1 0
       = Z.land (Z.lxor (Z.shiftl 1 6) 0) 0x7FFF).
Proof. intros [H | H]; vm_compute in H; discriminate. Qed.

(** *** The chain walk of [Find] *)

Section FindWalk.

Variable rd : memory.
Variable ctx : XpressDictionary.
Variables data xend endx : Z.

Lemma GetMatchLength_nonneg a b e : 0 <= GetMatchLength rd a b e.
Proof. unfold GetMatchLength. pose proof (u32_range
  (GetMatchLength_loop rd (Z.to_nat (e - b)) a b e - b - 1)). lia. Qed.

Lemma cand_len_nonneg x : 0 <= cand_len rd data endx x.
Proof.
  unfold cand_len. destruct (_ && _); [apply GetMatchLength_nonneg | lia].
Qed.

(** The loop computes the left fold of [best_step] over the candidates
    it visits. *)
Lemma Find_loop_fold (n : nat) (x len off : Z) :
  0 <= len →
  Find_loop rd ctx data xend endx n x len off
  = fold_left (best_step rd data endx)
              (Find_visited rd ctx data xend endx n x len) (len, off).
Proof.
  revert x len off. induction n as [|n IH]; intros x len off Hlen; simpl.
  { done. }
  destruct (x <? xend); [done|]. simpl.
  unfold best_step at 2. unfold cand_len. simpl.
  destruct ((rd x =? rd data) && (rd (x + 1) =? rd (data + 1))) eqn:Hp.
  - destruct (len <? GetMatchLength rd x data endx) eqn:Hl.
    + destruct (NICE_LENGTH <=? GetMatchLength rd x data endx); [done|].
      apply IH, GetMatchLength_nonneg.
    + by apply IH.
  - replace (len <? 0) with false by (symmetry; apply Z.ltb_ge; lia).
    by apply IH.
Qed.

(** The visited candidates are the first entries of the hash chain. *)
Lemma Find_visited_chain (n : nat) (x len : Z) :
  ∃ m, (m <= n)%nat
       ∧ Find_visited rd ctx data xend endx n x len = chain ctx x m.
Proof.
  revert x len. induction n as [|n IH]; intros x len; simpl.
  { exists O. done. }
  destruct (x <? xend); [exists O; split; [lia | done]|].
  set (next := window ctx (WindowPos ctx x)).
  assert (Hk : ∀ l, ∃ m, (m <= S n)%nat
            ∧ x :: Find_visited rd ctx data xend endx n next l
              = chain ctx x m).
  { intros l. destruct (IH next l) as (m & Hm & ->).
    exists (S m). split; [lia | done]. }
  destruct (_ && _); [|apply Hk].
  destruct (len <? _); [|apply Hk].
  destruct (NICE_LENGTH <=? _); [|apply Hk].
  exists 1%nat. split; [lia | done].
Qed.

Lemma Find_visited_ge_xend (n : nat) (x len : Z) :
  Forall (fun y => xend <= y) (Find_visited rd ctx data xend endx n x len).
Proof.
  revert x len. induction n as [|n IH]; intros x len; simpl; [constructor|].
  destruct (x <? xend) eqn:E; [constructor|].
  apply Z.ltb_ge in E. constructor; [done|].
  repeat (destruct (_ : bool); try apply IH; try constructor).
Qed.

(** Once a candidate offers [NICE_LENGTH] or more the walk is over: every
    visited candidate but the last offers less. *)
Lemma Find_visited_nice (n : nat) (x len : Z) :
  len < NICE_LENGTH →
  ∀ i y, Find_visited rd ctx data xend endx n x len !! i = Some y →
         (S i < length (Find_visited rd ctx data xend endx n x len))%nat →
         cand_len rd data endx y < NICE_LENGTH.
Proof.
  revert x len. induction n as [|n IH]; intros x len Hlen i y; simpl; [done|].
  destruct (x <? xend); [done|].
  unfold cand_len at 1.
  destruct ((rd x =? rd data) && (rd (x + 1) =? rd (data + 1))) eqn:Hp.
  - destruct (len <? GetMatchLength rd x data endx) eqn:Hl.
    + destruct (NICE_LENGTH <=? GetMatchLength rd x data endx) eqn:Hn.
      * destruct i; simpl; [lia | done].
      * apply Z.leb_gt in Hn.
        destruct i as [|i]; simpl.
        -- intros [= <-] _. unfold cand_len. rewrite Hp. lia.
        -- intros H1 H2. eapply (IH _ _ Hn i); [done | lia].
    + apply Z.ltb_ge in Hl.
      destruct i as [|i]; simpl.
      * intros [= <-] _. unfold cand_len. rewrite Hp. lia.
      * intros H1 H2. eapply (IH _ _ Hlen i); [done | lia].
  - destruct i as [|i]; simpl.
    + intros [= <-] _. unfold cand_len. rewrite Hp. unfold NICE_LENGTH. lia.
    + intros H1 H2. eapply (IH _ _ Hlen i); [done | lia].
Qed.

End FindWalk.

(** *** Left folds of [best_step] *)

Section BestFold.

Variable rd : memory.
Variables data endx : Z.

Let step := best_step rd data endx.
Let cl := cand_len rd data endx.

Lemma best_fold_ge (l : list Z) (b : Z * Z) :
  b.1 <= (fold_left step l b).1.
Proof.
  revert b. induction l as [|x l IH]; intros b; simpl; [lia|].
  etrans; [|apply IH]. unfold step, best_step.
  destruct (b.1 <? _) eqn:E; simpl; [apply Z.ltb_lt in E|]; lia.
Qed.

Lemma best_fold_upper (l : list Z) (b : Z * Z) :
  Forall (fun y => cl y <= (fold_left step l b).1) l.
Proof.
  revert b. induction l as [|x l IH]; intros b; simpl; constructor.
  - etrans; [|apply best_fold_ge]. unfold step, best_step.
    destruct (b.1 <? _) eqn:E; simpl; [|apply Z.ltb_ge in E]; unfold cl; lia.
  - apply IH.
Qed.

(** Either nothing replaced the initial best, or the result comes from the
    first candidate that offers the final length. *)
Lemma best_fold_cases (l : list Z) (b : Z * Z) :
  (fold_left step l b = b ∧ Forall (fun y => cl y <= b.1) l)
  ∨ ∃ i x, l !! i = Some x
           ∧ fold_left step l b = (cl x, u32 (data - x))
           ∧ b.1 < cl x
           ∧ (∀ j y, (j < i)%nat → l !! j = Some y → cl y < cl x)
           ∧ Forall (fun y => cl y <= cl x) l.
Proof.
  revert b. induction l as [|x l IH]; intros b; simpl.
  { left. split; [done | constructor]. }
  unfold step at 2 4, best_step. fold (cl x).
  destruct (b.1 <? cl x) eqn:E.
  - apply Z.ltb_lt in E. right.
    destruct (IH (cl x, u32 (data - x))) as [[H1 H2] | (i & y & Hi & Hf & Hlt & Hb & Ha)].
    + exists O, x. simpl in *. repeat split; try done.
      * intros j z Hj. lia.
      * constructor; [lia | done].
    + exists (S i), y. simpl in *. repeat split; try done; [lia| |].
      * intros [|j] z Hj; simpl; [intros [= <-]; lia|].
        apply Hb. lia.
      * constructor; [lia | done].
  - apply Z.ltb_ge in E.
    destruct (IH b) as [[H1 H2] | (i & y & Hi & Hf & Hlt & Hb & Ha)].
    + left. split; [done|]. constructor; done.
    + right. exists (S i), y. simpl. repeat split; try done.
      * intros [|j] z Hj; simpl; [intros [= <-]; lia|].
        apply Hb. lia.
      * constructor; [lia | done].
Qed.

End BestFold.

(** *** What [Fill] leaves in the table and the window *)

Section FillInvariant.

Variable rd : memory.

Definition same_params (a b : XpressDictionary) : Prop :=
  WindowSize a = WindowSize b ∧ WindowMask a = WindowMask b
  ∧ HashSize a = HashSize b ∧ HashMask a = HashMask b
  ∧ HashShift a = HashShift b
  ∧ start a = start b ∧ end_ a = end_ b ∧ end2 a = end2 b.

Lemma same_params_refl a : same_params a a.
Proof. by repeat split. Qed.

Lemma same_params_trans a b c :
  same_params a b → same_params b c → same_params a c.
Proof. unfold same_params. intuition congruence. Qed.

(** A stored pointer is [NULL] or an input position below [hi]. *)
Definition ptr_ok (s hi p : Z) : Prop := p = NULL ∨ s <= p < hi.

Definition table_ok (c : XpressDictionary) (hi : Z) : Prop :=
  ∀ h, ptr_ok (start c) hi (table c h).

Definition window_ok (c : XpressDictionary) (lo hi : Z) : Prop :=
  ∀ p, lo <= p < hi → ptr_ok (start c) p (window c (WindowPos c p)).

Lemma WindowPos_mod c x :
  WindowMask c = 131071 → WindowPos c x = (x - start c) mod 131072.
Proof.
  intros H. unfold WindowPos. rewrite H.
  change 131071 with (Z.ones 17). rewrite Z.land_ones by lia.
  change (2 ^ 17) with 131072.
  pose proof (Z.mod_pos_bound (x - start c) 131072 ltac:(lia)).
  apply u32_small. lia.
Qed.

Lemma Fill_loop_params n c data pos hash :
  same_params (Fill_loop rd n c data pos hash) c.
Proof.
  revert c data pos hash. induction n as [|n IH]; intros; simpl.
  - apply same_params_refl.
  - eapply same_params_trans; [apply IH|]. by repeat split.
Qed.

Lemma Fill_params c data : same_params (Fill rd c data).1 c.
Proof.
  unfold Fill. destruct (end2 c <=? data); simpl.
  - apply same_params_refl.
  - apply Fill_loop_params.
Qed.

(** The loop stores position [data + i] at window slot [pos + i]; the
    slots outside [[pos, pos + n)] keep their contents. *)
Lemma Fill_loop_inv n : ∀ c data pos hash,
  start c <= data →
  table_ok c data →
  let c' := Fill_loop rd n c data pos hash in
  table_ok c' (data + Z.of_nat n)
  ∧ (∀ i, 0 <= i < Z.of_nat n →
          ptr_ok (start c) (data + i) (window c' (pos + i)))
  ∧ (∀ slot, ¬ (pos <= slot < pos + Z.of_nat n) →
             window c' slot = window c slot).
Proof.
  induction n as [|n IH]; intros c data pos hash Hs Ht; simpl.
  { split; [|split]; [| lia | done].
    intros h. rewrite Z.add_0_r. apply Ht. }
  set (hash' := HashUpdate c hash (rd (data + 2))).
  set (c1 := {| WindowSize := WindowSize c; table := _; window := _ |}).
  destruct (IH c1 (data + 1) (pos + 1) hash') as (IH1 & IH2 & IH3).
  { simpl. lia. }
  { intros h. unfold c1; simpl.
    destruct (decide (hash' = h)) as [->|Hne].
    - rewrite fn_lookup_insert. right. lia.
    - rewrite fn_lookup_insert_ne by done.
      destruct (Ht h) as [-> | ?]; [by left | right; lia]. }
  split; [|split].
  - intros h. specialize (IH1 h).
    replace (data + Z.of_nat (S n)) with (data + 1 + Z.of_nat n) by lia.
    exact IH1.
  - intros i Hi. destruct (decide (i = 0)) as [-> | Hne].
    + rewrite IH3 by lia. unfold c1; simpl. rewrite !Z.add_0_r.
      rewrite fn_lookup_insert. apply Ht.
    + specialize (IH2 (i - 1) ltac:(lia)).
      replace (pos + 1 + (i - 1)) with (pos + i) in IH2 by lia.
      replace (data + 1 + (i - 1)) with (data + i) in IH2 by lia.
      exact IH2.
  - intros slot Hslot. rewrite IH3 by lia.
    unfold c1; simpl. apply fn_lookup_insert_ne. lia.
Qed.

(** The state after the first [k] chunks have been filled. *)
Definition filled_inv (w0 : memory) (s e : Z) (k : nat)
  (c : XpressDictionary) : Prop :=
  same_params c (XpressDictionary_init w0 s e)
  ∧ (k = O → ∀ h, table c h = NULL)
  ∧ ((1 <= k)%nat → s + (Z.of_nat k - 1) * CHUNK_SIZE < e - 2 →
     table_ok c (Z.min (s + Z.of_nat k * CHUNK_SIZE) (e - 2))
     ∧ window_ok c (Z.max s (s + (Z.of_nat k - 2) * CHUNK_SIZE))
                   (Z.min (s + Z.of_nat k * CHUNK_SIZE) (e - 2))).

Lemma chunks_filled_inv w0 s e k c :
  chunks_filled rd w0 s e k c → filled_inv w0 s e k c.
Proof.
  induction 1 as [|k c Hc (Hp & H0 & HS)].
  { split; [apply same_params_refl|]. split; [done | lia]. }
  set (data := s + Z.of_nat k * CHUNK_SIZE).
  pose proof (Fill_params c data) as Hfp.
  split; [by eapply same_params_trans|].
  split; [lia|]. intros _ Hlt.
  replace (Z.of_nat (S k) - 1) with (Z.of_nat k) in Hlt by lia.
  fold data in Hlt.
  assert (Hst : start c = s) by (destruct Hp as (_&_&_&_&_&->&_); done).
  assert (He2 : end2 c = e - 2) by (destruct Hp as (_&_&_&_&_&_&_&->); done).
  assert (Hwm : WindowMask c = 131071)
    by (destruct Hp as (_&->&_); done).
  assert (Htab : table_ok c data).
  { destruct k as [|k'].
    - intros h. left. by apply H0.
    - destruct HS as [HS _]; [lia | unfold CHUNK_SIZE in *; lia |].
      intros h. specialize (HS h).
      rewrite Z.min_l in HS by (unfold CHUNK_SIZE in *; lia). exact HS. }
  unfold Fill. rewrite He2.
  replace (e - 2 <=? data) with false by (symmetry; apply Z.leb_gt; lia).
  set (endx := if data + CHUNK_SIZE <? e - 2 then data + CHUNK_SIZE else e - 2).
  assert (Hendx : endx = Z.min (s + Z.of_nat (S k) * CHUNK_SIZE) (e - 2)).
  { unfold endx, data, CHUNK_SIZE.
    destruct (Z.ltb_spec (s + Z.of_nat k * 65536 + 65536) (e - 2)); lia. }
  simpl.
  set (n := Z.to_nat (endx - data)).
  assert (Hn : data + Z.of_nat n = endx).
  { unfold n. rewrite Hendx. unfold data, CHUNK_SIZE in *. lia. }
  assert (HnC : Z.of_nat n <= 65536).
  { rewrite Hendx in Hn. unfold data, CHUNK_SIZE in *. lia. }
  destruct (Fill_loop_inv n c data (WindowPos c data)
              (HashUpdate c (rd data) (rd (data + 1))))
    as (I1 & I2 & I3).
  { rewrite Hst. unfold data, CHUNK_SIZE. lia. }
  { exact Htab. }
  set (c' := Fill_loop rd n c data _ _) in *.
  pose proof (Fill_loop_params n c data (WindowPos c data)
                (HashUpdate c (rd data) (rd (data + 1)))) as Hp'.
  fold c' in Hp'.
  assert (Hst' : start c' = s) by (destruct Hp' as (_&_&_&_&_&->&_); done).
  assert (Hwm' : WindowMask c' = 131071)
    by (destruct Hp' as (_&->&_); done).
  split.
  - rewrite <- Hendx, <- Hn. exact I1.
  - intros p Hp0. rewrite (WindowPos_mod c' p Hwm'), Hst'.
    rewrite (WindowPos_mod c data Hwm), Hst in I2, I3.
    rewrite <- Hendx, <- Hn in Hp0.
    pose proof (Z.div_mod (p - s) 131072 ltac:(lia)) as E1.
    pose proof (Z.mod_pos_bound (p - s) 131072 ltac:(lia)) as B1.
    pose proof (Z.div_mod (data - s) 131072 ltac:(lia)) as E2.
    pose proof (Z.mod_pos_bound (data - s) 131072 ltac:(lia)) as B2.
    unfold CHUNK_SIZE in *.
    destruct (Z.lt_ge_cases p data) as [Hlt' | Hge].
    + rewrite I3 by (unfold data in *; lia).
      destruct k as [|k']; [unfold data in *; lia|].
      destruct HS as [_ HS]; [lia | lia |].
      specialize (HS p ltac:(unfold data in *; lia)).
      rewrite (WindowPos_mod c p Hwm), Hst in HS. exact HS.
    + specialize (I2 (p - data) ltac:(lia)).
      replace ((p - s) mod 131072)
        with ((data - s) mod 131072 + (p - data)).
      * replace (data + (p - data)) with p in I2 by lia. exact I2.
      * unfold data in *. lia.
Qed.

(** Along the walk every candidate is an earlier input position. *)
Lemma Find_visited_before c s lo hi data endx n :
  MAX_OFFSET < s → start c = s → s <= data →
  window_ok c lo hi → lo <= Z.max s (data - MAX_OFFSET) → data <= hi →
  ∀ x len bound, bound <= data → ptr_ok s bound x →
  Forall (fun y => s <= y < data)
         (Find_visited rd c data (data - MAX_OFFSET) endx n x len).
Proof.
  intros Hs Hst Hd Hw Hlo Hhi.
  induction n as [|n IH]; intros x len bound Hb Hx; simpl; [constructor|].
  destruct (x <? data - MAX_OFFSET) eqn:E; [constructor|].
  apply Z.ltb_ge in E. unfold MAX_OFFSET in *.
  destruct Hx as [-> | Hx]; [unfold NULL in E; lia|].
  assert (Hnext : ptr_ok s x (window c (WindowPos c x))).
  { rewrite <- Hst. apply Hw. lia. }
  constructor; [lia|].
  repeat (destruct (_ : bool); try constructor);
    apply (IH _ _ x); (lia || done).
Qed.

(** C5.  [Find] on a dictionary produced by [Init] and [Fill], queried at
    a position of the chunk filled last with at least 3 bytes left:
    the candidates are the first [m <= 11] entries of the hash chain;
    each lies 1 to 65535 bytes before the query; the result is the left
    fold of [best_step], which replaces the best only by a strictly longer
    candidate, so that the first candidate reaching the final length wins;
    every candidate but the last offers less than 48; and a result below 3
    is the initial (2, untouched offset), no candidate offering 3. *)
Theorem Find_walk_spec (w0 : memory) (s e : Z) (k : nat)
  (c : XpressDictionary) (data off0 : Z) :
  MAX_OFFSET < s →
  chunks_filled rd w0 s e (S k) c →
  s + Z.of_nat k * CHUNK_SIZE <= data < s + (Z.of_nat k + 1) * CHUNK_SIZE →
  data + 3 <= e →
  let x0 := window c (WindowPos c data) in
  let visited :=
    Find_visited rd c data (data - MAX_OFFSET) (end_ c) MAX_CHAIN x0 2 in
  let cl := cand_len rd data (end_ c) in
  let r := Find rd c data off0 in
  (∃ m, (m <= 11)%nat ∧ visited = chain c x0 m)
  ∧ Forall (fun x => 1 <= data - x <= MAX_OFFSET) visited
  ∧ r = fold_left (best_step rd data (end_ c)) visited (2, off0)
  ∧ (3 <= r.1 →
     ∃ i x, visited !! i = Some x
            ∧ r = (cl x, u32 (data - x))
            ∧ (∀ j y, (j < i)%nat → visited !! j = Some y → cl y < r.1)
            ∧ Forall (fun y => cl y <= r.1) visited)
  ∧ (∀ i y, visited !! i = Some y → (S i < length visited)%nat →
            cl y < NICE_LENGTH)
  ∧ (r.1 < 3 → r = (2, off0) ∧ Forall (fun y => cl y < 3) visited).
Proof.
  intros Hs Hc Hd He x0 visited cl r.
  destruct (chunks_filled_inv _ _ _ _ _ Hc) as (Hp & _ & HS).
  assert (Hst : start c = s) by (destruct Hp as (_&_&_&_&_&->&_); done).
  unfold CHUNK_SIZE, MAX_OFFSET in *.
  destruct HS as [Ht Hw]; [lia | unfold CHUNK_SIZE; lia |].
  unfold CHUNK_SIZE in *.
  assert (Hr : r = fold_left (best_step rd data (end_ c)) visited (2, off0)).
  { unfold r, Find. apply Find_loop_fold. lia. }
  split; [apply Find_visited_chain|].
  split.
  { pose proof (Find_visited_ge_xend rd c data (data - MAX_OFFSET) (end_ c)
                  MAX_CHAIN x0 2) as H1.
    assert (H2 : Forall (fun y => s <= y < data) visited).
    { match type of Hw with
      | window_ok _ ?lo ?hi =>
          apply (Find_visited_before c s lo hi data (end_ c) MAX_CHAIN)
            with (bound := data)
      end; try exact Hw; try exact Hst; unfold MAX_OFFSET; try lia.
      pose proof (Hw data ltac:(lia)) as Hx0. rewrite Hst in Hx0.
      exact Hx0. }
    fold visited in H1. unfold MAX_OFFSET in H1.
    rewrite Forall_forall in *. intros y Hy.
    specialize (H1 y Hy). specialize (H2 y Hy). lia. }
  split; [exact Hr|].
  pose proof (best_fold_cases rd data (end_ c) visited (2, off0)) as Hcases.
  rewrite <- Hr in Hcases. fold cl in Hcases.
  split; [|split].
  - intros H3.
    destruct Hcases as [[H1 H2] | (i & x & Hi & Hf & Hlt & Hb & Ha)].
    { rewrite H1 in H3. simpl in H3. lia. }
    exists i, x. rewrite Hf. simpl. done.
  - apply Find_visited_nice. unfold NICE_LENGTH. lia.
  - intros H3.
    destruct Hcases as [[H1 H2] | (i & x & Hi & Hf & Hlt & Hb & Ha)].
    + split; [done|]. simpl in H2.
      rewrite Forall_forall in *. intros y Hy. specialize (H2 y Hy). lia.
    + rewrite Hf in H3. cbv beta iota delta [fst] in H3, Hlt.
      clear -H3 Hlt. lia.
Qed.

End FillInvariant.

Lemma HashUpdate_params (a b : XpressDictionary) (h c : Z) :
  same_params a b → HashUpdate a h c = HashUpdate b h c.
Proof.
  intros (_&_&_&Hm&Hs&_). unfold HashUpdate. by rewrite Hm, Hs.
Qed.

(** C7, as the code has it: the shift amount is the integer quotient
    [(HASH_BITS + 2) / 3 = 5] (the ceiling of [HASH_BITS / 3]), and the update
    is [((h << 5) XOR c) AND 0x7FFF] for every hash state and byte, in the
    dictionary [Init] builds and in every dictionary [Fill] makes of it. *)
Theorem HashUpdate_shift_5 (rd w0 : memory) (s e h c : Z) :
  let d := XpressDictionary_init w0 s e in
  HashShift d = (HASH_BITS + 2) / 3
  ∧ HashShift d = 5
  ∧ HashMask d = 0x7FFF
  ∧ HashUpdate d h c = Z.land (Z.lxor (Z.shiftl h 5) c) 0x7FFF
  ∧ (∀ k d', chunks_filled rd w0 s e k d' →
       HashShift d' = 5
       ∧ HashUpdate d' h c = Z.land (Z.lxor (Z.shiftl h 5) c) 0x7FFF).
Proof.
  repeat split; try apply HashUpdate_init_eq.
  - apply chunks_filled_inv in H. destruct H as ((_&_&_&_&->&_) & _). done.
  - apply chunks_filled_inv in H. destruct H as (Hp & _).
    rewrite (HashUpdate_params _ _ _ _ Hp). apply HashUpdate_init_eq.
Qed.

(** An instance of [Find_walk_spec]: a buffer of ten bytes 65 at address
    65536, after the first [Fill], queried at its fifth byte. *)
Lemma Find_walk_spec_witness :
  let rd : memory := fun _ => 65 in
  let c := (Fill rd (XpressDictionary_init (fun _ => 0) 65536 65546) 65536).1 in
  ∃ m, (m <= 11)%nat
       ∧ Find_visited rd c 65540 (65540 - MAX_OFFSET) (end_ c) MAX_CHAIN
                      (window c (WindowPos c 65540)) 2
         = chain c (window c (WindowPos c 65540)) m.
Proof.
  intros rd c.
  refine (proj1 (Find_walk_spec rd (fun _ => 0) 65536 65546 0 c 65540 0
                   _ _ _ _)).
  - unfold MAX_OFFSET. lia.
  - apply (chunks_filled_fill rd (fun _ => 0) 65536 65546 0), chunks_filled_init.
  - unfold CHUNK_SIZE. simpl. lia.
  - lia.
Defined.

End DictionaryFacts.

(** ** Huffman code builders *)

Module HuffmanFacts.

Import Huffman.

Local Open Scope nat_scope.

(** The gathering loop skips a run of symbols that do not occur. *)
Lemma gather_skip (symbol_counts : list Z) (n i : nat)
  (st : list nat * list nat * nat * list Z) :
  (∀ k, i <= k < i + n → symbol_counts !!! k = 0%Z) →
  for_loop n i (gather_step symbol_counts) st = st.
Proof.
  revert i st. induction n as [|n IH]; intros i st H; simpl; [done|].
  unfold gather_step at 2. destruct st as [[[a b] c] d].
  rewrite H by lia. simpl. apply IH. intros. apply H. lia.
Qed.

(** C10.  When exactly one symbol [s] occurs, [CreateCodesSlow] gives it
    length 1 and code 0 and every other symbol length 0 (and code 0); the
    returned lengths are therefore not all zero. *)
Theorem CreateCodesSlow_single (ctx : HuffmanEncoder)
  (symbol_counts : list Z) (s : nat) :
  length symbol_counts = SYMBOLS →
  s < SYMBOLS →
  symbol_counts !!! s ≠ 0%Z →
  (∀ i, i < SYMBOLS → i ≠ s → symbol_counts !!! i = 0%Z) →
  let e := CreateCodesSlow ctx symbol_counts in
  lens e = <[s := 1%Z]> (replicate SYMBOLS 0%Z)
  ∧ codes e = replicate SYMBOLS 0%Z
  ∧ lens e !!! s = 1%Z ∧ codes e !!! s = 0%Z
  ∧ (∀ i, i < SYMBOLS → i ≠ s → lens e !!! i = 0%Z)
  ∧ lens e ≠ replicate SYMBOLS 0%Z.
Proof.
  intros Hlen Hlt Hs Hz.
  assert (Hg : for_loop SYMBOLS 0 (gather_step symbol_counts)
                 (replicate SYMBOLS 0, replicate SYMBOLS 0, 0, replicate SYMBOLS 0%Z)
               = (<[0 := s]> (replicate SYMBOLS 0), <[0 := s]> (replicate SYMBOLS 0),
                  1, <[s := Z.of_nat HUFF_BITS_MAX]> (replicate SYMBOLS 0%Z))).
  { replace SYMBOLS with (s + (1 + (SYMBOLS - 1 - s))) at 1 by lia.
    rewrite !for_loop_app.
    rewrite gather_skip by (intros; apply Hz; lia).
    rewrite (gather_skip _ s 0) by (intros; apply Hz; lia).
    simpl. unfold gather_step.
    destruct (Z.eqb_spec (symbol_counts !!! s) 0); [done|]. done. }
  assert (Hl : lens (CreateCodesSlow ctx symbol_counts)
               = <[s := 1%Z]> (replicate SYMBOLS 0%Z)
             ∧ codes (CreateCodesSlow ctx symbol_counts) = replicate SYMBOLS 0%Z).
  { unfold CreateCodesSlow. rewrite Hg.
    change (Sorting.merge_sort 1 symbol_counts 0 1
              (<[0:=s]> (replicate SYMBOLS 0), replicate SYMBOLS 0))
      with (<[0:=s]> (replicate SYMBOLS 0), replicate SYMBOLS 0).
    cbv beta iota. change (1 =? 1) with true. cbv iota. simpl lens. simpl codes.
    split; [|done].
    change (<[0:=s]> (replicate SYMBOLS 0) !!! 0) with s.
    apply list_insert_insert_eq. }
  destruct Hl as [Hl Hc]. cbv zeta. rewrite Hl, Hc.
  assert (Hs1 : <[s:=1%Z]> (replicate SYMBOLS 0%Z) !!! s = 1%Z).
  { apply list_lookup_total_insert_eq. rewrite length_replicate. done. }
  repeat split.
  - exact Hs1.
  - rewrite list_lookup_total_alt. rewrite lookup_replicate_2 by done. done.
  - intros i Hi Hne. rewrite list_lookup_total_insert_ne by done.
    rewrite list_lookup_total_alt. by rewrite lookup_replicate_2.
  - intros Heq. rewrite Heq in Hs1.
    rewrite list_lookup_total_alt, lookup_replicate_2 in Hs1 by done. done.
Qed.

(** An instance of [CreateCodesSlow_single]: only the byte 65 occurs. *)
Lemma CreateCodesSlow_single_witness :
  let h := <[65 := 7%Z]> (replicate SYMBOLS 0%Z) in
  let e := CreateCodesSlow {| codes := []; lens := [] |} h in
  lens e !!! 65 = 1%Z ∧ codes e !!! 65 = 0%Z.
Proof.
  intros h e.
  assert (H := CreateCodesSlow_single {| codes := []; lens := [] |} h 65).
  refine (let H' := H _ _ _ _ in conj (proj1 (proj2 (proj2 H')))
                                      (proj1 (proj2 (proj2 (proj2 H'))))).
  - reflexivity.
  - unfold SYMBOLS. lia.
  - vm_compute. discriminate.
  - intros i Hi Hne. unfold h.
    rewrite list_lookup_total_insert_ne by done.
    rewrite list_lookup_total_alt. by rewrite lookup_replicate_2.
Defined.

End HuffmanFacts.

(** ** The compressor *)

Module XpressFacts.

Import Bitstream Dictionary Huffman Xpress.






(** *** The histogram built by the literal-only path *)









(** *** The entry point on the empty input *)

(** C3, as the code has it: on an input of length 0 the entry point
    returns success at once; it stores nothing in the output buffer and
    reports a written length of 0. *)
Theorem xpress_huff_compress_empty (rd : memory) (fuel : nat)
  (alloc : allocator) (in_ : Z) (outm : memory) (out out_len0 : Z) :
  xpress_huff_compress rd fuel alloc in_ 0 outm out out_len0
  = Some {| status := 0; out_len := 0; out_mem := outm |}.
Proof. reflexivity. Qed.

(** C3 as stated fails: with room for 1000 bytes the empty input does not
    yield a written length of 260, and byte 128 of the output buffer is
    not set to 1. *)
Lemma xpress_huff_compress_empty_not_260 :
  let alloc := {| buf_alloc := Some (fun _ => 0); window0 := fun _ => 0 |} in
  ¬ ∃ r, xpress_huff_compress (fun _ => 0) 1 alloc 70000 0 (fun _ => 0) 0 1000
         = Some r
         ∧ (out_len r = 260 ∨ out_mem r 128 = 1).
Proof.
  intros alloc [r [H [H1 | H1]]];
    rewrite xpress_huff_compress_empty in H; injection H as <-;
    simpl in H1; discriminate.
Qed.

End XpressFacts.

(** * Further properties of the encoder *)

(** ** Byte-wise stores and loads *)

Module MemoryFacts.

Lemma u16_small x : 0 <= x < 65536 → u16 x = x.
Proof. intros. unfold u16. apply Z.mod_small. lia. Qed.

Lemma u64_range x : 0 <= u64 x < 2 ^ 64.
Proof. unfold u64. apply Z.mod_pos_bound. lia. Qed.

Lemma land_low_high (hi lo k : Z) :
  0 <= k → 0 <= lo < 2 ^ k → Z.land (hi * 2 ^ k) lo = 0.
Proof.
  intros Hk Hlo. apply Z.bits_inj'. intros n Hn.
  rewrite Z.land_spec, Z.bits_0.
  destruct (Z.lt_ge_cases n k).
  - rewrite Z.mul_pow2_bits_low by lia. done.
  - rewrite <- (Z.mod_small lo (2 ^ k)) by lia.
    rewrite Z.mod_pow2_bits_high by lia. apply andb_false_r.
Qed.

Lemma lor_low_high (hi lo k : Z) :
  0 <= k → 0 <= lo < 2 ^ k → Z.lor (hi * 2 ^ k) lo = hi * 2 ^ k + lo.
Proof.
  intros Hk Hlo. pose proof (land_low_high hi lo k Hk Hlo) as H.
  rewrite <- Z.lxor_lor by done. symmetry. by apply Z.add_nocarry_lxor.
Qed.

Lemma get_set_16 (m : memory) (a w : Z) :
  0 <= w < 65536 → GET_UINT16_RAW (SET_UINT16_RAW m a w) a = w.
Proof.
  intros Hw. unfold GET_UINT16_RAW, SET_UINT16_RAW.
  rewrite fn_lookup_insert_ne by lia.
  rewrite !fn_lookup_insert. unfold u8.
  rewrite Z.shiftl_mul_pow2, Z.shiftr_div_pow2 by lia.
  change (2 ^ 8) with 256.
  pose proof (Z.div_mod w 256 ltac:(lia)) as Hd.
  pose proof (Z.mod_pos_bound w 256 ltac:(lia)) as Hm.
  rewrite (Z.mod_small (w / 256)) by lia.
  rewrite Z.lor_comm. change 256 with (2 ^ 8) at 2.
  rewrite lor_low_high by (change (2 ^ 8) with 256; lia).
  change (2 ^ 8) with 256. lia.
Qed.

Lemma set_16_other (m : memory) (a w x : Z) :
  x ≠ a → x ≠ a + 1 → SET_UINT16_RAW m a w x = m x.
Proof.
  intros H1 H2. unfold SET_UINT16_RAW.
  by rewrite !fn_lookup_insert_ne by lia.
Qed.

Lemma get_set_16_other (m : memory) (a w x : Z) :
  x + 1 < a ∨ a + 1 < x →
  GET_UINT16_RAW (SET_UINT16_RAW m a w) x = GET_UINT16_RAW m x.
Proof.
  intros H. unfold GET_UINT16_RAW. by rewrite !set_16_other by lia.
Qed.

Lemma bytes32 (w : Z) :
  0 <= w < 2 ^ 32 →
  Z.lor (Z.lor (Z.lor (u8 w) (Z.shiftl (u8 (Z.shiftr w 8)) 8))
               (Z.shiftl (u8 (Z.shiftr w 16)) 16))
        (Z.shiftl (u8 (Z.shiftr w 24)) 24) = w.
Proof.
  intros Hw. unfold u8.
  rewrite !Z.shiftr_div_pow2, !Z.shiftl_mul_pow2 by lia.
  set (b0 := w mod 2 ^ 8). set (b1 := (w / 2 ^ 8) mod 2 ^ 8).
  set (b2 := (w / 2 ^ 16) mod 2 ^ 8). set (b3 := (w / 2 ^ 24) mod 2 ^ 8).
  assert (H0 : 0 <= b0 < 256) by (apply Z.mod_pos_bound; lia).
  assert (H1 : 0 <= b1 < 256) by (apply Z.mod_pos_bound; lia).
  assert (H2 : 0 <= b2 < 256) by (apply Z.mod_pos_bound; lia).
  assert (H3 : 0 <= b3 < 256) by (apply Z.mod_pos_bound; lia).
  rewrite (Z.lor_comm b0), lor_low_high by lia.
  rewrite (Z.lor_comm _ (b2 * 2 ^ 16)), lor_low_high by lia.
  rewrite (Z.lor_comm _ (b3 * 2 ^ 24)), lor_low_high by lia.
  unfold b0, b1, b2, b3.
  change (2 ^ 8) with 256 in *. change (2 ^ 16) with 65536.
  change (2 ^ 24) with 16777216. change (2 ^ 32) with 4294967296 in *.
  clear -Hw. Z.div_mod_to_equations. lia.
Qed.

Lemma get_set_32 (m : memory) (a w : Z) :
  0 <= w < 2 ^ 32 → GET_UINT32_RAW (SET_UINT32_RAW m a w) a = w.
Proof.
  intros Hw. unfold GET_UINT32_RAW, SET_UINT32_RAW.
  repeat (rewrite fn_lookup_insert || rewrite fn_lookup_insert_ne by lia).
  by apply bytes32.
Qed.

Lemma set_32_other (m : memory) (a w x : Z) :
  x < a ∨ a + 3 < x → SET_UINT32_RAW m a w x = m x.
Proof.
  intros H. unfold SET_UINT32_RAW.
  by rewrite !fn_lookup_insert_ne by lia.
Qed.

End MemoryFacts.

(** ** The bitstream writer over a run of calls *)

Module BitstreamMore.

Import Bitstream MemoryFacts.

(** A run of [WriteBits] calls, each with its value and width. *)
Definition write_all (s : OutputBitstream * memory) (l : list (Z * Z))
  : OutputBitstream * memory :=
  fold_left (fun s p => WriteBits s p.1 p.2) l s.

(** The total width of a run. *)
Definition total_bits (l : list (Z * Z)) : Z :=
  fold_right (fun p t => p.2 + t) 0 l.

(** Where the writer stands after [T] bits written from a fresh stream at
    [o]: no bit yet, or [T - 1 = 16 q + r] with [r + 1] bits pending and [q]
    flushes done. *)
Definition stands_at (o T : Z) (ctx : OutputBitstream) : Prop :=
  (T = 0 ∧ bits ctx = 0 ∧ out ctx = o + 4)
  ∨ (1 <= T ∧ bits ctx = (T - 1) mod 16 + 1
     ∧ out ctx = o + 4 + 2 * ((T - 1) / 16)).

Lemma stands_at_step o T ctx m b n :
  0 <= T → 0 <= n <= 15 → stands_at o T ctx →
  stands_at o (T + n) (WriteBits (ctx, m) b n).1.
Proof.
  intros HT Hn Hs.
  assert (Hb : 0 <= bits ctx <= 16).
  { destruct Hs as [(_ & -> & _) | (H1 & -> & _)]; [lia|].
    pose proof (Z.mod_pos_bound (T - 1) 16 ltac:(lia)). lia. }
  rewrite (BitstreamFacts.WriteBits_below_32 ctx m b n) by lia.
  destruct Hs as [(-> & Hbits & Hout) | (H1 & Hbits & Hout)].
  - rewrite Hbits. replace (16 <? 0 + n) with false
      by (symmetry; apply Z.ltb_ge; lia). cbn [fst].
    destruct (decide (n = 0)) as [-> | Hne].
    + left. cbn [bits out]. lia.
    + right. cbn [bits out]. split; [lia|].
      rewrite Z.mod_small by lia. rewrite Z.div_small by lia. lia.
  - pose proof (Z.div_mod (T - 1) 16 ltac:(lia)) as Hd.
    pose proof (Z.mod_pos_bound (T - 1) 16 ltac:(lia)) as Hm.
    set (q := (T - 1) / 16) in *. set (r := (T - 1) mod 16) in *.
    right. split; [lia|].
    destruct (Z.ltb_spec 16 (bits ctx + n)) as [Hf | Hf]; cbn [fst bits out].
    + assert ((T + n - 1) / 16 = q + 1) as ->
        by (symmetry; apply Z.div_unique with (r := r + n - 16); lia).
      assert ((T + n - 1) mod 16 = r + n - 16) as ->
        by (symmetry; apply Z.mod_unique with (q := q + 1); lia).
      lia.
    + assert ((T + n - 1) / 16 = q) as ->
        by (symmetry; apply Z.div_unique with (r := r + n); lia).
      assert ((T + n - 1) mod 16 = r + n) as ->
        by (symmetry; apply Z.mod_unique with (q := q); lia).
      lia.
Qed.

Lemma total_bits_nonneg l :
  Forall (fun p => 0 <= p.2 <= 15) l → 0 <= total_bits l.
Proof.
  induction 1 as [|p l Hp Hl IH]; simpl; lia.
Qed.

Lemma write_all_stands o l : ∀ T s,
  0 <= T → Forall (fun p => 0 <= p.2 <= 15) l → stands_at o T s.1 →
  stands_at o (T + total_bits l) (write_all s l).1.
Proof.
  induction l as [|p l IH]; intros T s HT Hl Hs; simpl.
  { by rewrite Z.add_0_r. }
  inversion Hl as [|? ? Hp Hl']; subst.
  replace (T + (p.2 + total_bits l)) with (T + p.2 + total_bits l) by lia.
  apply IH; [lia | done |]. destruct s as [ctx m].
  by apply stands_at_step.
Qed.

(** After a run of [WriteBits] calls of widths 0 to 15 on a fresh stream
    at [o], with at least one bit written in all, the cursor is
    [2 * ((16 + T + 15) / 16)] bytes past [o] (the byte count that
    [xh_calc_compressed_len] computes from the bit total [T]), and between
    1 and 16 bits wait in the accumulator. *)
Theorem write_all_cursor (o : Z) (m : memory) (l : list (Z * Z)) :
  Forall (fun p => 0 <= p.2 <= 15) l →
  1 <= total_bits l →
  let s := write_all (OutputBitstream_init o, m) l in
  out s.1 = o + (16 + total_bits l + 15) / 16 * 2
  ∧ 1 <= bits s.1 <= 16
  ∧ bits s.1 = (total_bits l - 1) mod 16 + 1.
Proof.
  intros Hl HT s.
  pose proof (write_all_stands o l 0 (OutputBitstream_init o, m)
                ltac:(lia) Hl) as H.
  destruct H as [(H0 & _) | (_ & Hb & Ho)].
  { left. done. }
  { rewrite Z.add_0_l in H0. lia. }
  rewrite Z.add_0_l in Hb, Ho. fold s in Hb, Ho.
  pose proof (Z.div_mod (total_bits l - 1) 16 ltac:(lia)) as Hd.
  pose proof (Z.mod_pos_bound (total_bits l - 1) 16 ltac:(lia)) as Hm.
  split; [|split; [lia | done]].
  rewrite Ho.
  assert ((16 + total_bits l + 15) / 16 = (total_bits l - 1) / 16 + 2) as ->.
  { symmetry. apply Z.div_unique with (r := (total_bits l - 1) mod 16); lia. }
  lia.
Qed.

(** An instance: three codes of 9, 9 and 3 bits. *)
Lemma write_all_cursor_witness :
  out (write_all (OutputBitstream_init 0, fun _ => 0)
                 [(5, 9); (300, 9); (1, 3)]).1 = 0 + (16 + 21 + 15) / 16 * 2.
Proof.
  refine (proj1 (write_all_cursor 0 (fun _ => 0) [(5, 9); (300, 9); (1, 3)]
                   _ _)).
  - repeat constructor; simpl; lia.
  - simpl. lia.
Defined.

(** *** The words a run of [WriteBits] leaves behind *)

(** The bit string of a run, read as a number: each value appended below
    the ones before it. *)
Definition bits_value (l : list (Z * Z)) : Z :=
  fold_left (fun v p => v * 2 ^ p.2 + p.1) l 0.

(** The number of words flushed once [T] bits have been written. *)
Definition flushed (T : Z) : Z := (Z.max 1 T - 1) / 16.

Lemma flushed_spec T :
  0 <= T → 0 <= flushed T ∧ 16 * flushed T <= Z.max 1 T - 1 < 16 * flushed T + 16.
Proof.
  intros HT. unfold flushed.
  pose proof (Z.div_mod (Z.max 1 T - 1) 16 ltac:(lia)).
  pose proof (Z.mod_pos_bound (Z.max 1 T - 1) 16 ltac:(lia)).
  pose proof (Z.div_pos (Z.max 1 T - 1) 16 ltac:(lia) ltac:(lia)). lia.
Qed.

Lemma flushed_unique T F :
  16 * F <= Z.max 1 T - 1 < 16 * F + 16 → flushed T = F.
Proof.
  intros H. unfold flushed. symmetry.
  apply Z.div_unique with (r := Z.max 1 T - 1 - 16 * F); lia.
Qed.

(** The writer's state after the bit string [V] of [T] bits: the pending
    bits sit at the top of the accumulator, the flushed words hold the
    earlier bits, 16 to a word, and nothing else of the memory [m0] has
    changed. *)
Record packed (o : Z) (m0 : memory) (V T : Z)
  (s : OutputBitstream * memory) : Prop := mkPacked {
  pk_bits  : bits s.1 = T - 16 * flushed T;
  pk_mask  : mask s.1 = (V mod 2 ^ bits s.1) * 2 ^ (32 - bits s.1);
  pk_pntr0 : pntr0 s.1 = o + 2 * flushed T;
  pk_pntr1 : pntr1 s.1 = o + 2 * flushed T + 2;
  pk_out   : out s.1 = o + 2 * flushed T + 4;
  pk_words : ∀ j, 0 <= j < flushed T →
               GET_UINT16_RAW s.2 (o + 2 * j)
               = (V / 2 ^ (T - 16 * (j + 1))) mod 2 ^ 16;
  pk_frame : ∀ a, a < o ∨ o + 2 * flushed T <= a → s.2 a = m0 a
}.

Lemma packed_init o m : packed o m 0 0 (OutputBitstream_init o, m).
Proof.
  assert (flushed 0 = 0) as H0 by (by apply flushed_unique).
  split; cbn [fst snd OutputBitstream_init bits mask pntr0 pntr1 out];
    rewrite ?H0; try done; try lia.
Qed.

Lemma div_pow2_append V b n k :
  0 <= n → 0 <= k → 0 <= b < 2 ^ n →
  (V * 2 ^ n + b) / 2 ^ (k + n) = V / 2 ^ k.
Proof.
  intros Hn Hk Hb. rewrite Z.pow_add_r by lia.
  rewrite (Z.mul_comm (2 ^ k)), <- Z.div_div by lia.
  f_equal. rewrite Z.add_comm, Z.div_add by lia.
  rewrite Z.div_small by lia. done.
Qed.

Lemma mod_pow2_append V b n k :
  0 <= n → 0 <= k → 0 <= b < 2 ^ n →
  (V * 2 ^ n + b) mod 2 ^ (k + n) = (V mod 2 ^ k) * 2 ^ n + b.
Proof.
  intros Hn Hk Hb.
  pose proof (Z.div_mod V (2 ^ k) ltac:(lia)) as Hd.
  pose proof (Z.mod_pos_bound V (2 ^ k) ltac:(lia)) as Hm.
  symmetry. apply Z.mod_unique with (q := V / 2 ^ k).
  - left. rewrite Z.pow_add_r by lia. nia.
  - rewrite Z.pow_add_r by lia. nia.
Qed.

Lemma top_word V r :
  0 <= r <= 16 →
  (V mod 2 ^ (r + 16) * 2 ^ (16 - r)) / 2 ^ 16 = (V / 2 ^ r) mod 2 ^ 16.
Proof.
  intros Hr.
  assert (0 < 2 ^ r) by (apply Z.pow_pos_nonneg; lia).
  assert (0 < 2 ^ (16 - r)) by (apply Z.pow_pos_nonneg; lia).
  replace (2 ^ 16) with (2 ^ r * 2 ^ (16 - r)) at 1
    by (rewrite <- Z.pow_add_r by lia; f_equal; lia).
  rewrite Z.div_mul_cancel_r by lia.
  rewrite Z.pow_add_r by lia.
  rewrite Z.rem_mul_r by lia.
  rewrite (Z.mul_comm (2 ^ r)), Z.div_add by lia.
  rewrite (Z.div_small (V mod 2 ^ r)); [lia|].
  apply Z.mod_pos_bound. lia.
Qed.

Lemma low_bits_shift V r :
  0 <= r <= 16 →
  u32 (V mod 2 ^ (16 + r) * 2 ^ (32 - r)) = V mod 2 ^ r * 2 ^ (32 - r).
Proof.
  intros Hr. unfold u32.
  assert (0 < 2 ^ r) by (apply Z.pow_pos_nonneg; lia).
  assert (0 < 2 ^ (32 - r)) by (apply Z.pow_pos_nonneg; lia).
  assert (E : 2 ^ r * 2 ^ (32 - r) = 2 ^ 32)
    by (rewrite <- Z.pow_add_r by lia; f_equal; lia).
  replace (16 + r) with (r + 16) by lia.
  rewrite Z.pow_add_r by lia.
  rewrite Z.rem_mul_r by lia.
  pose proof (Z.mod_pos_bound V (2 ^ r) ltac:(lia)) as Hm.
  set (a := V mod 2 ^ r) in *. set (q := (V / 2 ^ r) mod 2 ^ 16).
  replace ((a + 2 ^ r * q) * 2 ^ (32 - r))
    with (a * 2 ^ (32 - r) + q * 2 ^ 32) by (rewrite <- E; ring).
  rewrite Z.mod_add by lia. apply Z.mod_small. rewrite <- E. nia.
Qed.

Lemma packed_step o m0 V T s b n :
  0 <= T → 0 <= n <= 15 → 0 <= b < 2 ^ n →
  packed o m0 V T s → packed o m0 (V * 2 ^ n + b) (T + n) (WriteBits s b n).
Proof.
  intros HT Hn Hb [Pb Pm P0 P1 Po Pw Pf]. destruct s as [ctx m].
  cbn [fst snd] in *.
  destruct (flushed_spec T HT) as (HF0 & HF).
  set (F := flushed T) in *.
  assert (Hbits : 0 <= bits ctx <= 16) by lia.
  rewrite (BitstreamFacts.WriteBits_below_32 ctx m b n) by lia.
  set (k := bits ctx) in *.
  assert (Hsh : u32 (Z.shiftl b (32 - (k + n))) = b * 2 ^ (32 - (k + n))).
  { rewrite Z.shiftl_mul_pow2 by lia. apply u32_small.
    assert (2 ^ n * 2 ^ (32 - (k + n)) <= 2 ^ 32).
    { rewrite <- Z.pow_add_r by lia. apply Z.pow_le_mono_r; lia. }
    assert (0 < 2 ^ (32 - (k + n))) by (apply Z.pow_pos_nonneg; lia).
    change 4294967296 with (2 ^ 32). nia. }
  assert (Hmask1 : Z.lor (mask ctx) (u32 (Z.shiftl b (32 - (k + n))))
                   = ((V * 2 ^ n + b) mod 2 ^ (k + n)) * 2 ^ (32 - (k + n))).
  { rewrite Hsh, Pm. rewrite mod_pow2_append by lia.
    replace (32 - k) with (n + (32 - (k + n))) by lia.
    rewrite Z.pow_add_r by lia. rewrite Z.mul_assoc.
    rewrite <- !Z.shiftl_mul_pow2 with (n := 32 - (k + n)) by lia.
    rewrite <- Z.shiftl_lor. f_equal. apply lor_low_high; lia. }
  cbv zeta. rewrite Hmask1.
  set (V' := V * 2 ^ n + b).
  destruct (Z.ltb_spec 16 (k + n)) as [Hfl | Hnf].
  - (* one word is flushed *)
    assert (HF' : flushed (T + n) = F + 1) by (apply flushed_unique; lia).
    set (r := k + n - 16).
    assert (Hr : 1 <= r <= 15) by (unfold r; lia).
    assert (Hw : Z.shiftr (V' mod 2 ^ (k + n) * 2 ^ (32 - (k + n))) 16
                 = (V' / 2 ^ r) mod 2 ^ 16).
    { rewrite Z.shiftr_div_pow2 by lia.
      replace (k + n) with (r + 16) by (unfold r; lia).
      replace (32 - (r + 16)) with (16 - r) by lia.
      apply top_word. lia. }
    split; cbn [fst snd bits mask pntr0 pntr1 out]; rewrite ?HF'.
    + lia.
    + replace (k + n - 16) with r by done.
      rewrite Z.shiftl_mul_pow2 by lia. rewrite <- Z.mul_assoc.
      rewrite <- Z.pow_add_r by (unfold r; lia).
      replace (32 - (k + n) + 16) with (32 - r) by (unfold r; lia).
      replace (k + n) with (16 + r) by (unfold r; lia).
      apply low_bits_shift. lia.
    + lia.
    + lia.
    + lia.
    + intros j Hj.
      fold (SET_UINT16_RAW m (pntr0 ctx) (Z.shiftr
              (V' mod 2 ^ (k + n) * 2 ^ (32 - (k + n))) 16)).
      rewrite Hw, P0.
      destruct (decide (j = F)) as [-> | Hne].
      * rewrite get_set_16 by (apply Z.mod_pos_bound; lia).
        do 2 f_equal. f_equal. unfold r. lia.
      * rewrite get_set_16_other by lia.
        rewrite Pw by lia.
        replace (T + n - 16 * (j + 1)) with (T - 16 * (j + 1) + n) by lia.
        unfold V'. rewrite div_pow2_append by lia. done.
    + intros a Ha.
      fold (SET_UINT16_RAW m (pntr0 ctx) (Z.shiftr
              (V' mod 2 ^ (k + n) * 2 ^ (32 - (k + n))) 16)).
      rewrite set_16_other by lia. apply Pf. lia.
  - (* nothing is flushed *)
    assert (HF' : flushed (T + n) = F) by (apply flushed_unique; lia).
    split; cbn [fst snd bits mask pntr0 pntr1 out]; rewrite ?HF';
      try lia; try done.
    intros j Hj. rewrite Pw by lia.
    replace (T + n - 16 * (j + 1)) with (T - 16 * (j + 1) + n) by lia.
    unfold V'. rewrite div_pow2_append by lia. done.
Qed.

Definition append_bits (V : Z) (l : list (Z * Z)) : Z :=
  fold_left (fun v p => v * 2 ^ p.2 + p.1) l V.

Lemma write_all_packed o m0 l : ∀ V T s,
  0 <= T →
  Forall (fun p => 0 <= p.2 <= 15 ∧ 0 <= p.1 < 2 ^ p.2) l →
  packed o m0 V T s →
  packed o m0 (append_bits V l) (T + total_bits l) (write_all s l).
Proof.
  induction l as [|p l IH]; intros V T s HT Hl Hs; simpl.
  { by rewrite Z.add_0_r. }
  inversion Hl as [|? ? [Hn Hb] Hl']; subst.
  replace (T + (p.2 + total_bits l)) with (T + p.2 + total_bits l) by lia.
  apply IH; [lia | done |]. by apply packed_step.
Qed.

(** A run of [WriteBits] calls on a fresh stream at [o], each value
    fitting its width of 0 to 15 bits and at least one bit in all, followed
    by [Finish]: the bit string, padded with zero bits to the next multiple
    of 16, lies in consecutive 16-bit little-endian words from [o] on, the
    first bit written being the top bit of the first word; one zero word
    follows; every byte outside these words is untouched. *)
Theorem write_all_words (o : Z) (m : memory) (l : list (Z * Z)) :
  Forall (fun p => 0 <= p.2 <= 15 ∧ 0 <= p.1 < 2 ^ p.2) l →
  1 <= total_bits l →
  let T := total_bits l in
  let F := (T - 1) / 16 in
  let m' := Finish (write_all (OutputBitstream_init o, m) l) in
  (∀ j, 0 <= j <= F →
     GET_UINT16_RAW m' (o + 2 * j)
     = (bits_value l * 2 ^ (16 * (F + 1) - T)) / 2 ^ (16 * (F - j)) mod 2 ^ 16)
  ∧ GET_UINT16_RAW m' (o + 2 * (F + 1)) = 0
  ∧ (∀ a, a < o ∨ o + 2 * (F + 2) <= a → m' a = m a).
Proof.
  intros Hl HT T F m'.
  pose proof (write_all_packed o m l 0 0 (OutputBitstream_init o, m)
                ltac:(lia) Hl (packed_init o m)) as H.
  rewrite Z.add_0_l in H. fold (bits_value l) in H. fold T in H.
  assert (HF : flushed T = F).
  { unfold flushed, F. f_equal. lia. }
  destruct (flushed_spec T ltac:(lia)) as (HF0 & HFs). rewrite HF in HF0, HFs.
  destruct H as [Pb Pm P0 P1 Po Pw Pf]. rewrite HF in *.
  unfold m', Finish.
  destruct (write_all (OutputBitstream_init o, m) l) as [ctx m1].
  cbn [fst snd] in *. unfold SET_UINT16.
  set (k := bits ctx) in *. set (V := bits_value l) in *.
  assert (Hk : 1 <= k <= 16) by lia.
  assert (Hp : 0 < 2 ^ (16 - k)) by (apply Z.pow_pos_nonneg; lia).
  assert (Hw : Z.shiftr (mask ctx) 16 = V mod 2 ^ k * 2 ^ (16 - k)).
  { rewrite Pm, Z.shiftr_div_pow2 by lia.
    replace (32 - k) with ((16 - k) + 16) by lia.
    rewrite Z.pow_add_r, Z.mul_assoc by lia.
    apply Z.div_mul. lia. }
  assert (Hwr : 0 <= Z.shiftr (mask ctx) 16 < 65536).
  { rewrite Hw. pose proof (Z.mod_pos_bound V (2 ^ k) ltac:(lia)).
    assert (2 ^ k * 2 ^ (16 - k) = 65536)
      by (rewrite <- Z.pow_add_r by lia; replace (k + (16 - k)) with 16 by lia;
          done).
    nia. }
  split; [|split].
  - intros j Hj. rewrite get_set_16_other by lia.
    destruct (decide (j = F)) as [-> | Hne].
    + rewrite P0, get_set_16 by done. rewrite Hw.
      replace (16 * (F - F)) with 0 by lia.
      rewrite Z.pow_0_r, Z.div_1_r.
      replace (16 * (F + 1) - T) with (16 - k) by lia.
      replace (2 ^ 16) with (2 ^ k * 2 ^ (16 - k))
        by (rewrite <- Z.pow_add_r by lia; f_equal; lia).
      rewrite Z.mul_mod_distr_r by lia. done.
    + rewrite P0, get_set_16_other by lia. rewrite Pw by lia.
      f_equal.
      replace (16 * (F - j)) with ((T - 16 * (j + 1)) + (16 * (F + 1) - T))
        by lia.
      rewrite Z.pow_add_r by lia.
      rewrite Z.div_mul_cancel_r; [done | |].
      * apply Z.pow_nonzero; lia.
      * apply Z.pow_nonzero; lia.
  - rewrite P1. replace (o + 2 * (F + 1)) with (o + 2 * F + 2) by lia.
    by rewrite get_set_16.
  - intros a Ha. rewrite !set_16_other by lia. apply Pf. lia.
Qed.

(** An instance: the 9-bit value 5, the 9-bit value 300 and the 3-bit
    value 1 give the words 0x02CB and 0x0800. *)
Lemma write_all_words_witness :
  GET_UINT16_RAW (Finish (write_all (OutputBitstream_init 0, fun _ => 0)
                                    [(5, 9); (300, 9); (1, 3)])) (0 + 2 * 1)
  = 2048.
Proof.
  refine (proj1 (write_all_words 0 (fun _ => 0) [(5, 9); (300, 9); (1, 3)]
                   _ _) 1 _).
  - repeat constructor; cbn [fst snd]; lia.
  - vm_compute. discriminate.
  - vm_compute. split; discriminate.
Defined.

End BitstreamMore.

(** ** The match finder *)

Module DictionaryMore.

Import Dictionary DictionaryFacts.

Section WithInput.

Variable rd : memory.

(** *** GetMatchLength *)

Lemma GetMatchLength_loop_spec (e : Z) : ∀ fuel a b,
  b < e → e - b - 1 <= Z.of_nat fuel →
  let bf := GetMatchLength_loop rd fuel a b e in
  b < bf <= e
  ∧ (∀ i, 0 <= i < bf - b - 1 → rd (a + i) = rd (b + i))
  ∧ (bf = e ∨ rd (a + (bf - b - 1)) ≠ rd (b + (bf - b - 1))).
Proof.
  induction fuel as [|fuel IH]; intros a b Hb Hf; simpl.
  - destruct (Z.ltb_spec (b + 1) e); [lia|]. simpl.
    split; [lia|]. split; [intros; lia|]. left. lia.
  - destruct (Z.ltb_spec (b + 1) e) as [Hlt | Hge]; simpl.
    + destruct (Z.eqb_spec (rd a) (rd b)) as [Heq | Hne].
      * destruct (IH (a + 1) (b + 1) Hlt ltac:(lia)) as (I1 & I2 & I3).
        cbv zeta in I1, I2, I3.
        set (bf := GetMatchLength_loop rd fuel (a + 1) (b + 1) e) in *.
        split; [lia|]. split.
        -- intros i Hi. destruct (decide (i = 0)) as [-> | Hi0].
           ++ by rewrite !Z.add_0_r.
           ++ specialize (I2 (i - 1) ltac:(lia)).
              replace (a + 1 + (i - 1)) with (a + i) in I2 by lia.
              replace (b + 1 + (i - 1)) with (b + i) in I2 by lia. done.
        -- destruct I3 as [I3 | I3]; [by left | right].
           replace (a + (bf - b - 1)) with (a + 1 + (bf - (b + 1) - 1)) by lia.
           replace (b + (bf - b - 1)) with (b + 1 + (bf - (b + 1) - 1)) by lia.
           done.
      * split; [lia|]. split; [intros; lia|]. right.
        replace (b + 1 - b - 1) with 0 by lia. by rewrite !Z.add_0_r.
    + split; [lia|]. split; [intros; lia|]. left. lia.
Qed.

Lemma GetMatchLength_sound (a b e : Z) :
  b < e → e - b <= 2 ^ 32 →
  0 <= GetMatchLength rd a b e <= e - b - 1
  ∧ (∀ i, 0 <= i < GetMatchLength rd a b e → rd (a + i) = rd (b + i))
  ∧ (GetMatchLength rd a b e = e - b - 1
     ∨ rd (a + GetMatchLength rd a b e) ≠ rd (b + GetMatchLength rd a b e)).
Proof.
  intros Hb He.
  destruct (GetMatchLength_loop_spec e (Z.to_nat (e - b)) a b Hb ltac:(lia))
    as (I1 & I2 & I3).
  cbv zeta in I1, I2, I3. unfold GetMatchLength.
  set (bf := GetMatchLength_loop rd (Z.to_nat (e - b)) a b e) in *.
  rewrite u32_small by lia.
  split; [lia|]. split; [done|].
  destruct I3 as [I3 | I3]; [left; lia | by right].
Qed.

(** [GetMatchLength a b end] with [b < end]: the returned length [l] is at
    most [end - b - 1], so the byte just before [end] is never counted; the
    [l] bytes at [a] equal the [l] bytes at [b]; and the comparison stopped
    either at that limit or at a pair of bytes that differ. *)
Theorem GetMatchLength_spec (a b e : Z) :
  b < e → e - b <= 2 ^ 32 →
  let l := GetMatchLength rd a b e in
  0 <= l <= e - b - 1
  ∧ (∀ i, 0 <= i < l → rd (a + i) = rd (b + i))
  ∧ (l = e - b - 1 ∨ rd (a + l) ≠ rd (b + l)).
Proof. intros Hb He l. by apply GetMatchLength_sound. Qed.

(** *** Find and Fill *)

(** The best of a list of earlier positions within reach is a match. *)
Lemma best_fold_match (data e s off0 : Z) (l : list Z) :
  data < e → e - data <= 2 ^ 32 →
  Forall (fun y => s <= y < data ∧ data - MAX_OFFSET <= y) l →
  3 <= (fold_left (best_step rd data e) l (2, off0)).1 →
  1 <= (fold_left (best_step rd data e) l (2, off0)).2 <= MAX_OFFSET
  ∧ s <= data - (fold_left (best_step rd data e) l (2, off0)).2
  ∧ (fold_left (best_step rd data e) l (2, off0)).1 <= e - data - 1
  ∧ (∀ i, 0 <= i < (fold_left (best_step rd data e) l (2, off0)).1 →
       rd (data - (fold_left (best_step rd data e) l (2, off0)).2 + i)
       = rd (data + i)).
Proof.
  intros Hd He Hl H3.
  destruct (best_fold_cases rd data e l (2, off0))
    as [[E1 _] | (i & x & Hi & Hf & Hlt & _ & _)].
  { rewrite E1 in H3. cbn [fst] in H3. lia. }
  rewrite Hf in H3 |- *. cbn [fst snd] in H3 |- *.
  apply list_elem_of_lookup_2 in Hi.
  rewrite Forall_forall in Hl. specialize (Hl x Hi).
  unfold MAX_OFFSET in *.
  rewrite u32_small by lia.
  replace (data - (data - x)) with x by lia.
  unfold cand_len in H3 |- *.
  destruct ((rd x =? rd data) && (rd (x + 1) =? rd (data + 1))); [|lia].
  destruct (GetMatchLength_sound x data e ltac:(lia) ltac:(lia))
    as (G1 & G2 & _).
  split; [lia|]. split; [lia|]. split; [lia|]. exact G2.
Qed.

(** [Find] on a dictionary produced by [Init] and [Fill], queried at a
    position of the chunk filled last: a returned length of 3 or more comes
    with an offset between 1 and 65535 that stays inside the input, the
    length stops short of the last input byte, and the bytes at that
    distance before the query equal the bytes at the query over the whole
    length. *)
Theorem Find_match (w0 : memory) (s e : Z) (k : nat)
  (c : XpressDictionary) (data off0 : Z) :
  MAX_OFFSET < s → e - s <= 2 ^ 32 →
  chunks_filled rd w0 s e (S k) c →
  s + Z.of_nat k * CHUNK_SIZE <= data < s + (Z.of_nat k + 1) * CHUNK_SIZE →
  data + 3 <= e →
  3 <= (Find rd c data off0).1 →
  1 <= (Find rd c data off0).2 <= MAX_OFFSET
  ∧ s <= data - (Find rd c data off0).2
  ∧ (Find rd c data off0).1 <= e - data - 1
  ∧ (∀ i, 0 <= i < (Find rd c data off0).1 →
       rd (data - (Find rd c data off0).2 + i) = rd (data + i)).
Proof.
  intros Hs Hsz Hc Hd He.
  destruct (chunks_filled_inv rd _ _ _ _ _ Hc) as (Hp & _ & HS).
  assert (Hst : start c = s) by (destruct Hp as (_&_&_&_&_&->&_); done).
  assert (Hen : end_ c = e) by (destruct Hp as (_&_&_&_&_&_&->&_); done).
  destruct HS as [Ht Hw]; [lia | unfold CHUNK_SIZE in *; lia |].
  assert (Hl : Forall (fun y => s <= y < data ∧ data - MAX_OFFSET <= y)
                 (Find_visited rd c data (data - MAX_OFFSET) e MAX_CHAIN
                    (window c (WindowPos c data)) 2)).
  { apply Forall_and. split.
    - match type of Hw with
      | window_ok _ ?lo ?hi =>
          apply (Find_visited_before rd c s lo hi data e MAX_CHAIN)
            with (bound := data)
      end; try exact Hw; try exact Hst;
        unfold MAX_OFFSET, CHUNK_SIZE in *; try lia.
      pose proof (Hw data ltac:(lia)) as Hx0. rewrite Hst in Hx0.
      exact Hx0.
    - apply Find_visited_ge_xend. }
  unfold Find. rewrite Hen. rewrite Find_loop_fold by lia.
  apply best_fold_match; [lia | unfold CHUNK_SIZE in *; lia | exact Hl].
Qed.

(** After [Init] and the [Fill] of chunks [0 .. k], every hash-table entry
    is [NULL] or an input position below the end of chunk [k] (and below
    [end - 2]), and the window slot of each position [p] of chunks [k - 1]
    and [k] holds [NULL] or a position strictly before [p]: following the
    links walks backwards through the input and ends. *)
Theorem Fill_links_backwards (w0 : memory) (s e : Z) (k : nat)
  (c : XpressDictionary) :
  chunks_filled rd w0 s e (S k) c →
  s + Z.of_nat k * CHUNK_SIZE < e - 2 →
  let filled := Z.min (s + (Z.of_nat k + 1) * CHUNK_SIZE) (e - 2) in
  start c = s ∧ end_ c = e ∧ end2 c = e - 2
  ∧ (∀ h, table c h = NULL ∨ s <= table c h < filled)
  ∧ (∀ p, Z.max s (s + (Z.of_nat k - 1) * CHUNK_SIZE) <= p < filled →
          window c (WindowPos c p) = NULL
          ∨ s <= window c (WindowPos c p) < p).
Proof.
  intros Hc Hlt filled.
  destruct (chunks_filled_inv rd _ _ _ _ _ Hc) as (Hp & _ & HS).
  assert (Hst : start c = s) by (destruct Hp as (_&_&_&_&_&->&_); done).
  destruct HS as [Ht Hw]; [lia | lia |].
  replace (Z.of_nat (S k)) with (Z.of_nat k + 1) in Ht, Hw by lia.
  replace (Z.of_nat k + 1 - 2) with (Z.of_nat k - 1) in Hw by lia.
  split; [done|].
  split; [by destruct Hp as (_&_&_&_&_&_&->&_)|].
  split; [by destruct Hp as (_&_&_&_&_&_&_&->)|].
  split.
  - intros h. specialize (Ht h). rewrite Hst in Ht. exact Ht.
  - intros p Hpr. specialize (Hw p Hpr). rewrite Hst in Hw. exact Hw.
Qed.

End WithInput.

Lemma GetMatchLength_spec_witness :
  let rd : memory := load 70000 ["a"; "b"; "a"; "b"; "c"]%byte in
  GetMatchLength rd 70000 70002 70005 <= 70005 - 70002 - 1.
Proof.
  intros rd.
  refine (proj2 (proj1 (GetMatchLength_spec rd 70000 70002 70005 _ _))); lia.
Defined.

Lemma Find_match_witness :
  let rd : memory := fun _ => 65 in
  let c := (Fill rd (XpressDictionary_init (fun _ => 0) 65536 65546) 65536).1 in
  (Find rd c 65540 0).1 <= 65546 - 65540 - 1.
Proof.
  intros rd c.
  refine (proj1 (proj2 (proj2 (Find_match rd (fun _ => 0) 65536 65546 0 c
                                  65540 0 _ _ _ _ _ _)))).
  - unfold MAX_OFFSET. lia.
  - lia.
  - apply (chunks_filled_fill rd (fun _ => 0) 65536 65546 0), chunks_filled_init.
  - unfold CHUNK_SIZE. simpl. lia.
  - lia.
  - vm_compute. discriminate.
Defined.

Lemma Fill_links_backwards_witness :
  let rd : memory := fun _ => 65 in
  let c := (Fill rd (XpressDictionary_init (fun _ => 0) 65536 65546) 65536).1 in
  end2 c = 65546 - 2.
Proof.
  intros rd c.
  refine (proj1 (proj2 (proj2 (Fill_links_backwards rd (fun _ => 0) 65536 65546
                                  0 c _ _)))).
  - apply (chunks_filled_fill rd (fun _ => 0) 65536 65546 0), chunks_filled_init.
  - unfold CHUNK_SIZE. simpl. lia.
Defined.

(** *** The three-byte hash and the chains *)

(** The hash update with the parameters [Init] sets. *)
Definition hash_fn (h c : Z) : Z := Z.land (Z.lxor (Z.shiftl h 5) c) 0x7FFF.

Lemma hash_fn_bit (h c n : Z) :
  0 <= n →
  Z.testbit (hash_fn h c) n
  = (n <? 15) && xorb (Z.testbit h (n - 5)) (Z.testbit c n).
Proof.
  intros Hn. unfold hash_fn. change 32767 with (Z.ones 15).
  rewrite Z.land_spec, Z.lxor_spec, Z.shiftl_spec by done.
  destruct (Z.ltb_spec n 15).
  - rewrite Z.ones_spec_low by lia. by rewrite andb_true_r.
  - rewrite Z.ones_spec_high by lia. by rewrite andb_false_r.
Qed.

(** Three updates forget the state they started from: the hash kept by
    [Fill] while it moves through the input is a function of the three
    bytes at the current position. *)
Lemma hash_fn_rolling (h a b c : Z) :
  hash_fn (hash_fn (hash_fn h a) b) c = hash_fn (hash_fn a b) c.
Proof.
  apply Z.bits_inj'. intros n Hn. rewrite !(hash_fn_bit _ c n) by done.
  destruct (Z.ltb_spec n 15) as [Hlt | Hge]; [|done]. cbn [andb].
  f_equal.
  destruct (Z.lt_ge_cases (n - 5) 0) as [Hneg | Hpos].
  { by rewrite !Z.testbit_neg_r by lia. }
  rewrite !(hash_fn_bit _ b (n - 5)) by done.
  replace (n - 5 <? 15) with true by (symmetry; apply Z.ltb_lt; lia).
  cbn [andb]. f_equal.
  destruct (Z.lt_ge_cases (n - 5 - 5) 0) as [Hneg' | Hpos'].
  { by rewrite !Z.testbit_neg_r by lia. }
  rewrite hash_fn_bit by done.
  replace (n - 5 - 5 <? 15) with true by (symmetry; apply Z.ltb_lt; lia).
  cbn [andb].
  rewrite (Z.testbit_neg_r h) by lia. by rewrite xorb_false_l.
Qed.

Lemma byte_high_bits (c n : Z) : 0 <= c < 256 → 8 <= n → Z.testbit c n = false.
Proof.
  intros Hc Hn. destruct (decide (c = 0)) as [-> | Hne].
  - apply Z.bits_0.
  - apply Z.bits_above_log2; [lia|].
    assert (Z.log2 c < 8); [|lia]. apply Z.log2_lt_pow2; lia.
Qed.

(** With the first two bytes fixed the hash determines the third. *)
Lemma hash_fn_third (h c c' : Z) :
  0 <= c < 256 → 0 <= c' < 256 → hash_fn h c = hash_fn h c' → c = c'.
Proof.
  intros Hc Hc' H. apply Z.bits_inj'. intros n Hn.
  apply (f_equal (fun z => Z.testbit z n)) in H.
  rewrite !hash_fn_bit in H by done.
  destruct (Z.ltb_spec n 15) as [Hlt | Hge].
  - cbn [andb] in H. by destruct (Z.testbit h (n - 5)), (Z.testbit c n),
      (Z.testbit c' n).
  - by rewrite !byte_high_bits by lia.
Qed.

(** Two positions with the same hash and the same first two bytes have
    the same third byte. *)
Theorem hash_third_byte (w0 : memory) (s e h c c' : Z) :
  0 <= c < 256 → 0 <= c' < 256 →
  let d := XpressDictionary_init w0 s e in
  HashUpdate d h c = HashUpdate d h c' → c = c'.
Proof.
  intros Hc Hc' d. unfold d. rewrite !HashUpdate_init_eq.
  by apply hash_fn_third.
Qed.

Lemma hash_third_byte_witness : u8 321 = 65.
Proof.
  refine (hash_third_byte (fun _ => 0) 65536 65546 77 (u8 321) 65 _ _ _).
  - vm_compute. split; [discriminate | reflexivity].
  - lia.
  - reflexivity.
Defined.

Section WithInput.

Variable rd : memory.

(** The hash of the three bytes at [p]. *)
Definition hash3 (p : Z) : Z :=
  hash_fn (hash_fn (rd p) (rd (p + 1))) (rd (p + 2)).

Definition hash_params (c : XpressDictionary) : Prop :=
  ∀ h x, HashUpdate c h x = hash_fn h x.

(** A link is [NULL] or an earlier position with the same hash. *)
Definition link_ok (s p w : Z) : Prop :=
  w = NULL ∨ (s <= w < p ∧ hash3 w = hash3 p).

Definition table_hash (c : XpressDictionary) (hi : Z) : Prop :=
  ∀ h, table c h = NULL
       ∨ (start c <= table c h < hi ∧ hash3 (table c h) = h).

Definition window_hash (c : XpressDictionary) (lo hi : Z) : Prop :=
  ∀ p, lo <= p < hi → link_ok (start c) p (window c (WindowPos c p)).

Lemma hash_params_of (w0 : memory) (s e : Z) (c : XpressDictionary) :
  same_params c (XpressDictionary_init w0 s e) → hash_params c.
Proof.
  intros Hp h x. rewrite (HashUpdate_params _ _ _ _ Hp).
  apply HashUpdate_init_eq.
Qed.

Lemma Fill_loop_hash n : ∀ c data pos hash,
  hash_params c →
  start c <= data →
  table_hash c data →
  HashUpdate c hash (rd (data + 2)) = hash3 data →
  table_hash (Fill_loop rd n c data pos hash) (data + Z.of_nat n)
  ∧ (∀ i, 0 <= i < Z.of_nat n →
          link_ok (start c) (data + i)
                  (window (Fill_loop rd n c data pos hash) (pos + i)))
  ∧ (∀ slot, ¬ (pos <= slot < pos + Z.of_nat n) →
             window (Fill_loop rd n c data pos hash) slot = window c slot).
Proof.
  induction n as [|n IH]; intros c data pos hash Hhp Hs Ht Hh;
    cbn [Fill_loop].
  { split; [|split]; [| lia | done].
    intros h. rewrite Z.add_0_r. apply Ht. }
  rewrite Hh.
  set (c1 := {| WindowSize := WindowSize c; table := _; window := _ |}).
  assert (Hhp1 : hash_params c1) by (intros h x; apply Hhp).
  destruct (IH c1 (data + 1) (pos + 1) (hash3 data)) as (IH1 & IH2 & IH3).
  { exact Hhp1. }
  { cbn [start c1]. lia. }
  { intros h. unfold c1; cbn [table start].
    destruct (decide (hash3 data = h)) as [<- | Hne].
    - rewrite fn_lookup_insert. right. split; [lia | done].
    - rewrite fn_lookup_insert_ne by done.
      destruct (Ht h) as [-> | [? ?]]; [by left | right; split; [lia | done]]. }
  { rewrite Hhp1. unfold hash3.
    replace (data + 1 + 2) with (data + 3) by lia.
    replace (data + 1 + 1) with (data + 2) by lia.
    apply hash_fn_rolling. }
  split; [|split].
  - intros h. specialize (IH1 h).
    replace (data + Z.of_nat (S n)) with (data + 1 + Z.of_nat n) by lia.
    exact IH1.
  - intros i Hi. destruct (decide (i = 0)) as [-> | Hne].
    + rewrite IH3 by lia. unfold c1; cbn [window]. rewrite !Z.add_0_r.
      rewrite fn_lookup_insert.
      destruct (Ht (hash3 data)) as [-> | [? ?]]; [by left | right; done].
    + specialize (IH2 (i - 1) ltac:(lia)).
      replace (pos + 1 + (i - 1)) with (pos + i) in IH2 by lia.
      replace (data + 1 + (i - 1)) with (data + i) in IH2 by lia.
      exact IH2.
  - intros slot Hslot. rewrite IH3 by lia.
    unfold c1; cbn [window]. apply fn_lookup_insert_ne. lia.
Qed.

(** The links after the first [k] chunks have been filled. *)
Definition filled_hash (s e : Z) (k : nat) (c : XpressDictionary) : Prop :=
  (k = O → ∀ h, table c h = NULL)
  ∧ ((1 <= k)%nat → s + (Z.of_nat k - 1) * CHUNK_SIZE < e - 2 →
     table_hash c (Z.min (s + Z.of_nat k * CHUNK_SIZE) (e - 2))
     ∧ window_hash c (Z.max s (s + (Z.of_nat k - 2) * CHUNK_SIZE))
                     (Z.min (s + Z.of_nat k * CHUNK_SIZE) (e - 2))).

Lemma chunks_filled_hash w0 s e k c :
  chunks_filled rd w0 s e k c → filled_hash s e k c.
Proof.
  induction 1 as [|k c Hc (H0 & HS)].
  { split; [done | lia]. }
  destruct (chunks_filled_inv rd _ _ _ _ _ Hc) as (Hp & _ & _).
  pose proof (hash_params_of _ _ _ _ Hp) as Hhp.
  set (data := s + Z.of_nat k * CHUNK_SIZE).
  split; [lia|]. intros _ Hlt.
  replace (Z.of_nat (S k) - 1) with (Z.of_nat k) in Hlt by lia.
  fold data in Hlt.
  assert (Hst : start c = s) by (destruct Hp as (_&_&_&_&_&->&_); done).
  assert (He2 : end2 c = e - 2) by (destruct Hp as (_&_&_&_&_&_&_&->); done).
  assert (Hwm : WindowMask c = 131071)
    by (destruct Hp as (_&->&_); done).
  assert (Htab : table_hash c data).
  { destruct k as [|k'].
    - intros h. left. by apply H0.
    - destruct HS as [HS _]; [lia | unfold CHUNK_SIZE in *; lia |].
      intros h. specialize (HS h).
      rewrite Z.min_l in HS by (unfold CHUNK_SIZE in *; lia). exact HS. }
  unfold Fill. rewrite He2.
  replace (e - 2 <=? data) with false by (symmetry; apply Z.leb_gt; lia).
  set (endx := if data + CHUNK_SIZE <? e - 2 then data + CHUNK_SIZE else e - 2).
  assert (Hendx : endx = Z.min (s + Z.of_nat (S k) * CHUNK_SIZE) (e - 2)).
  { unfold endx, data, CHUNK_SIZE.
    destruct (Z.ltb_spec (s + Z.of_nat k * 65536 + 65536) (e - 2)); lia. }
  cbn [fst].
  set (n := Z.to_nat (endx - data)).
  assert (Hn : data + Z.of_nat n = endx).
  { unfold n. rewrite Hendx. unfold data, CHUNK_SIZE in *. lia. }
  assert (HnC : Z.of_nat n <= 65536).
  { rewrite Hendx in Hn. unfold data, CHUNK_SIZE in *. lia. }
  destruct (Fill_loop_hash n c data (WindowPos c data)
              (HashUpdate c (rd data) (rd (data + 1))))
    as (I1 & I2 & I3).
  { exact Hhp. }
  { rewrite Hst. unfold data, CHUNK_SIZE. lia. }
  { exact Htab. }
  { rewrite !Hhp. done. }
  pose proof (Fill_loop_params rd n c data (WindowPos c data)
                (HashUpdate c (rd data) (rd (data + 1)))) as Hp'.
  set (c' := Fill_loop rd n c data _ _) in *.
  assert (Hst' : start c' = s) by (destruct Hp' as (_&_&_&_&_&->&_); done).
  assert (Hwm' : WindowMask c' = 131071)
    by (destruct Hp' as (_&->&_); done).
  split.
  - rewrite <- Hendx, <- Hn. intros h. specialize (I1 h).
    rewrite Hst' in *. exact I1.
  - intros p Hp0. rewrite (WindowPos_mod c' p Hwm'), Hst'.
    rewrite (WindowPos_mod c data Hwm), Hst in I2, I3.
    rewrite <- Hendx, <- Hn in Hp0.
    pose proof (Z.div_mod (p - s) 131072 ltac:(lia)) as E1.
    pose proof (Z.mod_pos_bound (p - s) 131072 ltac:(lia)) as B1.
    pose proof (Z.div_mod (data - s) 131072 ltac:(lia)) as E2.
    pose proof (Z.mod_pos_bound (data - s) 131072 ltac:(lia)) as B2.
    unfold CHUNK_SIZE in *.
    destruct (Z.lt_ge_cases p data) as [Hlt' | Hge].
    + rewrite I3 by (unfold data in *; lia).
      destruct k as [|k']; [unfold data in *; lia|].
      destruct HS as [_ HS]; [lia | lia |].
      specialize (HS p ltac:(unfold data in *; lia)).
      rewrite (WindowPos_mod c p Hwm), Hst in HS. exact HS.
    + specialize (I2 (p - data) ltac:(lia)).
      replace ((p - s) mod 131072)
        with ((data - s) mod 131072 + (p - data)).
      * replace (data + (p - data)) with p in I2 by lia. exact I2.
      * unfold data in *. lia.
Qed.

(** Along the walk every candidate has the hash of the query position. *)
Lemma Find_visited_hash c s lo hi data endx n :
  MAX_OFFSET < s → start c = s → s <= data →
  window_hash c lo hi → lo <= Z.max s (data - MAX_OFFSET) → data <= hi →
  ∀ x len bound, bound <= data →
  x = NULL ∨ (s <= x < bound ∧ hash3 x = hash3 data) →
  Forall (fun y => s <= y < data ∧ hash3 y = hash3 data)
         (Find_visited rd c data (data - MAX_OFFSET) endx n x len).
Proof.
  intros Hs Hst Hd Hw Hlo Hhi.
  induction n as [|n IH]; intros x len bound Hb Hx; cbn [Find_visited];
    [constructor|].
  destruct (x <? data - MAX_OFFSET) eqn:E; [constructor|].
  apply Z.ltb_ge in E. unfold MAX_OFFSET in *.
  destruct Hx as [-> | [Hx Hhx]]; [unfold NULL in E; lia|].
  assert (Hnext : window c (WindowPos c x) = NULL
                  ∨ (s <= window c (WindowPos c x) < x
                     ∧ hash3 (window c (WindowPos c x)) = hash3 data)).
  { destruct (Hw x ltac:(lia)) as [-> | [H1 H2]]; [by left | right].
    rewrite Hst in H1. split; [done | congruence]. }
  constructor; [split; [lia | done]|].
  repeat (destruct (_ : bool); try constructor);
    apply (IH _ _ x); (lia || done).
Qed.

(** The comment in [Find] is right: every candidate the walk examines has
    the three-byte hash of the query position, and a candidate whose first
    two bytes match matches on the third byte as well, so that the
    comparison never yields a length of 1 or 2.  The dictionary is one
    produced by [Init] and [Fill], the query lies in the chunk filled last
    with at least 4 bytes left, and the input consists of bytes. *)
Theorem Find_candidates_three_bytes (w0 : memory) (s e : Z) (k : nat)
  (c : XpressDictionary) (data : Z) :
  (∀ a, 0 <= rd a < 256) →
  MAX_OFFSET < s → e - s <= 2 ^ 32 →
  chunks_filled rd w0 s e (S k) c →
  s + Z.of_nat k * CHUNK_SIZE <= data < s + (Z.of_nat k + 1) * CHUNK_SIZE →
  data + 4 <= e →
  Forall (fun x =>
            HashUpdate c (HashUpdate c (rd x) (rd (x + 1))) (rd (x + 2))
            = HashUpdate c (HashUpdate c (rd data) (rd (data + 1)))
                         (rd (data + 2))
            ∧ (rd x = rd data → rd (x + 1) = rd (data + 1) →
               rd (x + 2) = rd (data + 2))
            ∧ (cand_len rd data e x = 0 ∨ 3 <= cand_len rd data e x))
         (Find_visited rd c data (data - MAX_OFFSET) (end_ c) MAX_CHAIN
                       (window c (WindowPos c data)) 2).
Proof.
  intros Hbytes Hs Hsz Hc Hd He.
  destruct (chunks_filled_inv rd _ _ _ _ _ Hc) as (Hp & _ & _).
  pose proof (hash_params_of _ _ _ _ Hp) as Hhp.
  assert (Hst : start c = s) by (destruct Hp as (_&_&_&_&_&->&_); done).
  destruct (chunks_filled_hash _ _ _ _ _ Hc) as (_ & HS).
  destruct HS as [Ht Hw]; [lia | unfold CHUNK_SIZE in *; lia |].
  assert (Hl : Forall (fun y => s <= y < data ∧ hash3 y = hash3 data)
                 (Find_visited rd c data (data - MAX_OFFSET) (end_ c)
                    MAX_CHAIN (window c (WindowPos c data)) 2)).
  { match type of Hw with
    | window_hash _ ?lo ?hi =>
        apply (Find_visited_hash c s lo hi data (end_ c) MAX_CHAIN)
          with (bound := data)
    end; try exact Hw; try exact Hst;
      unfold MAX_OFFSET, CHUNK_SIZE in *; try lia.
    destruct (Hw data ltac:(lia)) as [-> | [H1 H2]]; [by left | right].
    rewrite Hst in H1. done. }
  eapply Forall_impl; [exact Hl|]. cbv beta. intros x [Hx Hh].
  rewrite !Hhp. fold (hash3 x) (hash3 data).
  split; [exact Hh|].
  assert (H3 : rd x = rd data → rd (x + 1) = rd (data + 1) →
               rd (x + 2) = rd (data + 2)).
  { intros E0 E1. unfold hash3 in Hh. rewrite E0, E1 in Hh.
    by apply hash_fn_third in Hh. }
  split; [exact H3|].
  unfold cand_len.
  destruct (Z.eqb_spec (rd x) (rd data)) as [E0 | ?]; [|by left].
  destruct (Z.eqb_spec (rd (x + 1)) (rd (data + 1))) as [E1 | ?]; [|by left].
  cbn [andb]. right. specialize (H3 E0 E1).
  unfold CHUNK_SIZE in *.
  destruct (GetMatchLength_sound rd x data e ltac:(lia) ltac:(lia))
    as (G1 & _ & G3).
  destruct G3 as [G3 | G3]; [lia|].
  destruct (decide (GetMatchLength rd x data e = 0)) as [Z0 | ?].
  { rewrite Z0, !Z.add_0_r in G3. done. }
  destruct (decide (GetMatchLength rd x data e = 1)) as [Z1 | ?].
  { rewrite Z1 in G3. done. }
  destruct (decide (GetMatchLength rd x data e = 2)) as [Z2 | ?].
  { rewrite Z2 in G3. done. }
  lia.
Qed.

End WithInput.

Lemma Find_candidates_three_bytes_witness :
  let rd : memory := fun _ => 65 in
  let c := (Fill rd (XpressDictionary_init (fun _ => 0) 65536 65546) 65536).1 in
  Forall (fun x =>
            HashUpdate c (HashUpdate c (rd x) (rd (x + 1))) (rd (x + 2))
            = HashUpdate c (HashUpdate c (rd 65540) (rd (65540 + 1)))
                         (rd (65540 + 2))
            ∧ (rd x = rd 65540 → rd (x + 1) = rd (65540 + 1) →
               rd (x + 2) = rd (65540 + 2))
            ∧ (cand_len rd 65540 65546 x = 0
               ∨ 3 <= cand_len rd 65540 65546 x))
         (Find_visited rd c 65540 (65540 - MAX_OFFSET) (end_ c) MAX_CHAIN
                       (window c (WindowPos c 65540)) 2).
Proof.
  intros rd c.
  refine (Find_candidates_three_bytes rd (fun _ => 0) 65536 65546 0 c 65540
            _ _ _ _ _ _).
  - intros a. unfold rd. lia.
  - unfold MAX_OFFSET. lia.
  - lia.
  - apply (chunks_filled_fill rd (fun _ => 0) 65536 65546 0), chunks_filled_init.
  - unfold CHUNK_SIZE. simpl. lia.
  - lia.
Defined.

End DictionaryMore.

(** ** The LZ77 stage and its reader *)

Module Lz77More.

Import Bitstream Dictionary Huffman Xpress MemoryFacts.

(** *** The offset field *)

Lemma lxor_top_bit (off : Z) :
  0 < off →
  Z.lxor off (Z.shiftl 1 (Z.log2 off)) = off - 2 ^ Z.log2 off.
Proof.
  intros H. pose proof (Z.log2_spec off H) as [H1 H2].
  pose proof (Z.log2_nonneg off) as HL.
  rewrite Z.shiftl_1_l.
  set (L := Z.log2 off) in *. set (r := off - 2 ^ L).
  assert (Hland : Z.land (1 * 2 ^ L) r = 0).
  { apply land_low_high; [done|]. unfold r.
    rewrite Z.pow_succ_r in H2 by done. lia. }
  rewrite Z.mul_1_l in Hland.
  assert (E : off = Z.lxor (2 ^ L) r).
  { rewrite <- (Z.add_nocarry_lxor _ _ Hland). unfold r. lia. }
  rewrite E at 1.
  rewrite (Z.lxor_comm (2 ^ L) r), Z.lxor_assoc, Z.lxor_nilpotent.
  apply Z.lxor_0_r.
Qed.

Lemma log2_lor_1 (off : Z) : 0 < off → Z.log2 (Z.lor off 1) = Z.log2 off.
Proof.
  intros H. rewrite Z.log2_lor by lia.
  change (Z.log2 1) with 0. pose proof (Z.log2_nonneg off). lia.
Qed.

Lemma log2_u16 (off : Z) : 1 <= off <= 0xFFFF → 0 <= Z.log2 off <= 15.
Proof.
  intros H. split; [apply Z.log2_nonneg|].
  assert (Z.log2 off < 16); [|lia].
  apply Z.log2_lt_pow2; lia.
Qed.

Lemma symbol_byte (L n : Z) :
  0 <= L <= 15 → 0 <= n <= 15 →
  u8 (Z.lor (Z.shiftl L 4) (u8 n)) = 16 * L + n.
Proof.
  intros HL Hn. rewrite (u8_small n) by lia.
  rewrite Z.shiftl_mul_pow2 by lia.
  rewrite lor_low_high by (change (2 ^ 4) with 16; lia).
  change (2 ^ 4) with 16. rewrite u8_small; lia.
Qed.

Section WithInput.

Variable rd : memory.

(** [lz77_item] on a match, with the machine arithmetic resolved. *)
Lemma lz77_item_match (d : XpressDictionary) (st : lz77_state) :
  3 <= lz_rem st < 2 ^ 31 →
  3 <= (Find rd d (lz_in st) 0).1 →
  1 <= (Find rd d (lz_in st) 0).2 <= 0xFFFF →
  let off := (Find rd d (lz_in st) 0).2 in
  let len := Z.min (lz_rem st) (Find rd d (lz_in st) 0).1 in
  let sym := 16 * Z.log2 off + Z.min 0xF (len - 3) in
  let buf1 := SET_UINT16_RAW (<[lz_out st := sym]> (lz_buf st))
                             (lz_out st + 1) (off - 2 ^ Z.log2 off) in
  lz77_item rd d st =
  {| lz_in := lz_in st + len; lz_rem := lz_rem st - len;
     lz_out := (lz77_length_ext buf1 (lz_out st + 3) (len - 3)).2;
     lz_mask := Z.lor (Z.shiftr (lz_mask st) 1) 0x80000000;
     lz_buf := (lz77_length_ext buf1 (lz_out st + 3) (len - 3)).1;
     lz_counts := incr (lz_counts st) (Z.to_nat (256 + sym)) |}.
Proof.
  intros Hrem Hlen Hoff off len sym buf1.
  unfold lz77_item.
  replace (3 <=? lz_rem st) with true by (symmetry; apply Z.leb_le; lia).
  replace (3 <=? (Find rd d (lz_in st) 0).1) with true
    by (symmetry; apply Z.leb_le; lia).
  cbn [andb]. fold off.
  rewrite (u32_small (lz_rem st)) by lia.
  assert (Hmin : (if lz_rem st <? (Find rd d (lz_in st) 0).1
                  then lz_rem st else (Find rd d (lz_in st) 0).1) = len).
  { unfold len. destruct (Z.ltb_spec (lz_rem st) (Find rd d (lz_in st) 0).1);
      lia. }
  rewrite Hmin.
  assert (Hl3 : 0 <= len - 3 < 2 ^ 31) by (unfold len; lia).
  rewrite (u32_small (len - 3)) by lia.
  pose proof (log2_u16 off Hoff) as HL.
  assert (Hob : u8 (Z.log2 (u16 (Z.lor off 1))) = Z.log2 off).
  { assert (Z.log2 (Z.lor off 1) = Z.log2 off) as E by (apply log2_lor_1; lia).
    assert (0 <= Z.lor off 1) by (apply Z.lor_nonneg; lia).
    rewrite u16_small.
    - rewrite E. apply u8_small. lia.
    - split; [done|]. apply Z.log2_lt_cancel.
      rewrite E. change (Z.log2 65536) with 16. lia. }
  rewrite Hob.
  rewrite symbol_byte by lia. fold sym.
  assert (Hsym : 0 <= sym < 256) by (unfold sym; lia).
  assert (Hor : Z.lor 256 sym = 256 + sym).
  { change 256 with (1 * 2 ^ 8) at 1. rewrite lor_low_high by lia. lia. }
  rewrite Hor.
  rewrite lxor_top_bit by lia.
  pose proof (Z.log2_spec off ltac:(lia)) as [Hs1 Hs2].
  rewrite (u32_small (off - 2 ^ Z.log2 off)) by lia.
  fold buf1.
  by destruct (lz77_length_ext buf1 (lz_out st + 3) (len - 3)).
Qed.

(** The bytes after symbol and offset, by the value of [length - 3]. *)
Lemma lz77_length_ext_cases (buf : memory) (o len3 : Z) :
  0 <= len3 →
  let r := lz77_length_ext buf o len3 in
  (len3 < 0xF ∧ r = (buf, o))
  ∨ (0xF <= len3 < 0xFF + 0xF ∧ r = (<[o := len3 - 0xF]> buf, o + 1))
  ∨ (0xFF + 0xF <= len3 <= 0xFFFF
     ∧ r = (SET_UINT16_RAW (<[o := 0xFF]> buf) (o + 1) len3, o + 3))
  ∨ (0xFFFF < len3
     ∧ r = (SET_UINT32_RAW (SET_UINT16_RAW (<[o := 0xFF]> buf) (o + 1) 0)
                           (o + 3) len3, o + 7)).
Proof.
  intros H r. unfold r, lz77_length_ext.
  destruct (Z.ltb_spec 65535 len3); [right; right; right; done|].
  destruct (Z.leb_spec (255 + 15) len3); [right; right; left; done|].
  destruct (Z.leb_spec 15 len3).
  - right; left. split; [lia|]. rewrite u8_small by lia. done.
  - left. done.
Qed.

(** The record [lz77_item] writes for a match found by [Find], with an
    offset of 1 to 65535: the histogram symbol is [0x100 + sym]; the high
    nibble of the symbol byte is the position of the offset's top bit and
    the 16-bit field after it holds the offset without that bit, so that
    field plus [2 ^ (sym >> 4)] is the offset again; the low nibble is
    [min(15, length - 3)], and lengths that do not fit are continued in
    1, 3 or 7 further bytes that hold [length - 3 - 15], [length - 3] as
    16 bits, or a zero 16-bit field and [length - 3] as 32 bits. *)
Theorem lz77_item_match_record (d : XpressDictionary) (st : lz77_state) :
  3 <= lz_rem st < 2 ^ 31 →
  3 <= (Find rd d (lz_in st) 0).1 →
  1 <= (Find rd d (lz_in st) 0).2 <= 0xFFFF →
  let off := (Find rd d (lz_in st) 0).2 in
  let len := Z.min (lz_rem st) (Find rd d (lz_in st) 0).1 in
  let st' := lz77_item rd d st in
  let o := lz_out st in
  let sym := lz_buf st' o in
  lz_in st' = lz_in st + len ∧ lz_rem st' = lz_rem st - len
  ∧ lz_mask st' = Z.lor (Z.shiftr (lz_mask st) 1) 0x80000000
  ∧ lz_counts st' = incr (lz_counts st) (Z.to_nat (0x100 + sym))
  ∧ 0 <= sym < 256
  ∧ Z.shiftr sym 4 = Z.log2 off
  ∧ Z.land sym 0xF = Z.min 0xF (len - 3)
  ∧ GET_UINT16_RAW (lz_buf st') (o + 1) + 2 ^ Z.shiftr sym 4 = off
  ∧ ((len - 3 < 0xF ∧ lz_out st' = o + 3)
     ∨ (0xF <= len - 3 < 0xFF + 0xF
        ∧ lz_buf st' (o + 3) = len - 3 - 0xF ∧ lz_out st' = o + 4)
     ∨ (0xFF + 0xF <= len - 3 <= 0xFFFF
        ∧ lz_buf st' (o + 3) = 0xFF
        ∧ GET_UINT16_RAW (lz_buf st') (o + 4) = len - 3
        ∧ lz_out st' = o + 6)
     ∨ (0xFFFF < len - 3
        ∧ lz_buf st' (o + 3) = 0xFF
        ∧ GET_UINT16_RAW (lz_buf st') (o + 4) = 0
        ∧ GET_UINT32_RAW (lz_buf st') (o + 6) = len - 3
        ∧ lz_out st' = o + 10)).
Proof.
  intros Hrem Hlen Hoff off len st' o sym.
  pose proof (lz77_item_match d st Hrem Hlen Hoff) as E.
  cbv zeta in E. fold off len o in E.
  pose proof (log2_u16 off Hoff) as HL.
  pose proof (Z.log2_spec off ltac:(lia)) as [Hs1 Hs2].
  rewrite Z.pow_succ_r in Hs2 by lia.
  assert (H2L : 2 ^ Z.log2 off <= 2 ^ 15) by (apply Z.pow_le_mono_r; lia).
  set (L := Z.log2 off) in *.
  assert (Hl3 : 0 <= len - 3 < 2 ^ 31) by (unfold len; lia).
  set (n := Z.min 15 (len - 3)) in *.
  assert (Hn : 0 <= n <= 15) by (unfold n; lia).
  set (b1 := SET_UINT16_RAW (<[o := 16 * L + n]> (lz_buf st)) (o + 1)
                            (off - 2 ^ L)) in *.
  assert (Hb1o : ∀ b', (∀ a, a < o + 3 → b' a = b1 a) →
             b' o = 16 * L + n ∧ GET_UINT16_RAW b' (o + 1) = off - 2 ^ L).
  { intros b' Hb'. unfold GET_UINT16_RAW. rewrite !Hb' by lia.
    split.
    - unfold b1. rewrite set_16_other by lia. apply fn_lookup_insert.
    - replace (o + 1 + 1) with (o + 1 + 1) by lia.
      apply (get_set_16 (<[o := 16 * L + n]> (lz_buf st)) (o + 1)).
      change (2 ^ 15) with 32768 in H2L. lia. }
  assert (Hfr : ∀ a, a < o + 3 →
            (lz77_length_ext b1 (o + 3) (len - 3)).1 a = b1 a).
  { intros a Ha.
    destruct (lz77_length_ext_cases b1 (o + 3) (len - 3) ltac:(lia))
      as [(_ & ->) | [(_ & ->) | [(_ & ->) | (_ & ->)]]]; cbn [fst].
    - done.
    - by rewrite fn_lookup_insert_ne by lia.
    - rewrite set_16_other by lia. by rewrite fn_lookup_insert_ne by lia.
    - rewrite set_32_other, set_16_other by lia.
      by rewrite fn_lookup_insert_ne by lia. }
  unfold sym, st'. rewrite E. cbn [lz_in lz_rem lz_out lz_mask lz_buf lz_counts].
  destruct (Hb1o _ Hfr) as [Hsym Hoffs]. rewrite Hsym, Hoffs.
  assert (Hsh : Z.shiftr (16 * L + n) 4 = L).
  { rewrite Z.shiftr_div_pow2 by lia. change (2 ^ 4) with 16.
    symmetry. apply Z.div_unique with (r := n); lia. }
  assert (Hla : Z.land (16 * L + n) 15 = n).
  { change 15 with (Z.ones 4). rewrite Z.land_ones by lia.
    change (2 ^ 4) with 16. symmetry.
    apply Z.mod_unique with (q := L); lia. }
  rewrite Hsh, Hla.
  do 4 (split; [done|]). split; [lia|]. split; [done|]. split; [done|].
  split; [lia|].
  destruct (lz77_length_ext_cases b1 (o + 3) (len - 3) ltac:(lia))
    as [(Hc & ->) | [(Hc & ->) | [(Hc & ->) | (Hc & ->)]]]; cbn [fst snd].
  - left. done.
  - right; left. rewrite fn_lookup_insert. split; [done|]. split; [done|]. lia.
  - right; right; left. split; [done|].
    rewrite set_16_other, fn_lookup_insert by lia. split; [done|].
    replace (o + 4) with (o + 3 + 1) by lia.
    rewrite get_set_16 by lia. split; [done | lia].
  - right; right; right. split; [done|].
    rewrite set_32_other, set_16_other, fn_lookup_insert by lia.
    split; [done|].
    replace (o + 4) with (o + 3 + 1) by lia.
    replace (o + 6) with (o + 3 + 3) by lia.
    rewrite get_set_32 by lia.
    unfold GET_UINT16_RAW. rewrite !set_32_other by lia.
    fold (GET_UINT16_RAW (SET_UINT16_RAW (<[o + 3 := 255]> b1) (o + 3 + 1) 0)
                         (o + 3 + 1)).
    rewrite get_set_16 by lia. split; [done|]. split; [done | lia].
Qed.

(** What the encoder emits between the symbol's code and the offset bits,
    by the value of [length - 3]. *)
Definition length_field (len3 : Z) (bstr : OutputBitstream * memory)
  : OutputBitstream * memory :=
  if len3 <? 0xF then bstr
  else if len3 <? 0xFF + 0xF then WriteRawByte bstr (len3 - 0xF)
  else if len3 <=? 0xFFFF then WriteRawUInt16 (WriteRawByte bstr 0xFF) len3
  else WriteRawUInt32 (WriteRawUInt16 (WriteRawByte bstr 0xFF) 0) len3.

(** [encode_match] reads a match record exactly as [lz77_item] wrote it:
    it stops where the writer stopped, and it emits the code of symbol
    [0x100 + sym], the length continuation, and the offset without its
    top bit on as many bits as the position of that bit. *)
Theorem encode_match_reads_item (d : XpressDictionary) (st : lz77_state)
  (encoder : HuffmanEncoder) (bstr : OutputBitstream * memory) :
  3 <= lz_rem st < 2 ^ 31 →
  3 <= (Find rd d (lz_in st) 0).1 →
  1 <= (Find rd d (lz_in st) 0).2 <= 0xFFFF →
  let off := (Find rd d (lz_in st) 0).2 in
  let len := Z.min (lz_rem st) (Find rd d (lz_in st) 0).1 in
  let sym := 16 * Z.log2 off + Z.min 0xF (len - 3) in
  let st' := lz77_item rd d st in
  encode_match encoder (lz_buf st') (lz_out st) bstr
  = (lz_out st',
     WriteBits (length_field (len - 3)
                  (EncodeSymbol encoder (Z.to_nat (0x100 + sym)) bstr))
               (off - 2 ^ Z.log2 off) (Z.log2 off)).
Proof.
  intros Hrem Hlen Hoff off len sym st'.
  pose proof (lz77_item_match d st Hrem Hlen Hoff) as E.
  cbv zeta in E. fold off len sym in E.
  pose proof (log2_u16 off Hoff) as HL.
  pose proof (Z.log2_spec off ltac:(lia)) as [Hs1 Hs2].
  rewrite Z.pow_succ_r in Hs2 by lia.
  assert (H2L : 2 ^ Z.log2 off <= 2 ^ 15) by (apply Z.pow_le_mono_r; lia).
  change (2 ^ 15) with 32768 in H2L.
  set (L := Z.log2 off) in *.
  assert (Hl3 : 0 <= len - 3 < 2 ^ 31) by (unfold len; lia).
  set (n := Z.min 15 (len - 3)) in *.
  assert (Hn : 0 <= n <= 15) by (unfold n; lia).
  set (o := lz_out st) in *.
  set (b1 := SET_UINT16_RAW (<[o := sym]> (lz_buf st)) (o + 1)
                            (off - 2 ^ L)) in *.
  assert (Hsh : Z.shiftr sym 4 = L).
  { unfold sym. rewrite Z.shiftr_div_pow2 by lia. change (2 ^ 4) with 16.
    symmetry. apply Z.div_unique with (r := n); lia. }
  assert (Hla : Z.land sym 15 = n).
  { unfold sym. change 15 with (Z.ones 4). rewrite Z.land_ones by lia.
    change (2 ^ 4) with 16. symmetry.
    apply Z.mod_unique with (q := L); lia. }
  assert (Hor : Z.lor 256 sym = 256 + sym).
  { change 256 with (1 * 2 ^ 8) at 1.
    rewrite lor_low_high by (unfold sym; lia). lia. }
  assert (Hread : ∀ b', (∀ a, a < o + 3 → b' a = b1 a) →
             b' o = sym ∧ GET_UINT16_RAW b' (o + 1) = off - 2 ^ L).
  { intros b' Hb'. unfold GET_UINT16_RAW. rewrite !Hb' by lia.
    split.
    - unfold b1. rewrite set_16_other by lia. apply fn_lookup_insert.
    - apply (get_set_16 (<[o := sym]> (lz_buf st)) (o + 1)). lia. }
  unfold st'. rewrite E. cbn [lz_in lz_rem lz_out lz_mask lz_buf lz_counts].
  unfold encode_match, length_field.
  destruct (lz77_length_ext_cases b1 (o + 3) (len - 3) ltac:(lia))
    as [(Hc & ->) | [(Hc & ->) | [(Hc & ->) | (Hc & ->)]]]; cbn [fst snd].
  - destruct (Hread b1 ltac:(done)) as [-> ->].
    rewrite Hor, Hsh, Hla.
    replace (n =? 15) with false by (symmetry; apply Z.eqb_neq; unfold n; lia).
    replace (len - 3 <? 15) with true by (symmetry; apply Z.ltb_lt; lia).
    first [done | f_equal; lia].
  - set (b2 := <[o + 3 := len - 3 - 15]> b1).
    destruct (Hread b2) as [-> ->].
    { intros. unfold b2. by rewrite fn_lookup_insert_ne by lia. }
    rewrite Hor, Hsh, Hla.
    replace (n =? 15) with true by (symmetry; apply Z.eqb_eq; unfold n; lia).
    replace (o + 1 + 2) with (o + 3) by lia.
    assert (Hb2 : b2 (o + 3) = len - 3 - 15) by apply fn_lookup_insert.
    rewrite !Hb2.
    replace (len - 3 - 15 =? 255) with false
      by (symmetry; apply Z.eqb_neq; lia).
    replace (len - 3 <? 15) with false by (symmetry; apply Z.ltb_ge; lia).
    replace (len - 3 <? 255 + 15) with true by (symmetry; apply Z.ltb_lt; lia).
    first [done | f_equal; lia].
  - set (b2 := SET_UINT16_RAW (<[o + 3 := 255]> b1) (o + 3 + 1) (len - 3)).
    destruct (Hread b2) as [-> ->].
    { intros. unfold b2. rewrite set_16_other by lia.
      by rewrite fn_lookup_insert_ne by lia. }
    rewrite Hor, Hsh, Hla.
    replace (n =? 15) with true by (symmetry; apply Z.eqb_eq; unfold n; lia).
    replace (o + 1 + 2) with (o + 3) by lia.
    assert (b2 (o + 3) = 255) as ->.
    { unfold b2. rewrite set_16_other by lia. apply fn_lookup_insert. }
    cbn [Z.eqb Pos.eqb].
    assert (GET_UINT16_RAW b2 (o + 3 + 1) = len - 3) as ->
      by (apply get_set_16; lia).
    replace (len - 3 =? 0) with false by (symmetry; apply Z.eqb_neq; lia).
    replace (len - 3 <? 15) with false by (symmetry; apply Z.ltb_ge; lia).
    replace (len - 3 <? 255 + 15) with false by (symmetry; apply Z.ltb_ge; lia).
    replace (len - 3 <=? 65535) with true by (symmetry; apply Z.leb_le; lia).
    first [done | f_equal; lia].
  - set (b2 := SET_UINT16_RAW (<[o + 3 := 255]> b1) (o + 3 + 1) 0).
    set (b3 := SET_UINT32_RAW b2 (o + 3 + 3) (len - 3)).
    assert (Hb32 : ∀ a, a < o + 6 → b3 a = b2 a).
    { intros. unfold b3. by rewrite set_32_other by lia. }
    destruct (Hread b3) as [-> ->].
    { intros. rewrite Hb32 by lia. unfold b2. rewrite set_16_other by lia.
      by rewrite fn_lookup_insert_ne by lia. }
    rewrite Hor, Hsh, Hla.
    replace (n =? 15) with true by (symmetry; apply Z.eqb_eq; unfold n; lia).
    replace (o + 1 + 2) with (o + 3) by lia.
    assert (b3 (o + 3) = 255) as ->.
    { rewrite Hb32 by lia. unfold b2. rewrite set_16_other by lia.
      apply fn_lookup_insert. }
    cbn [Z.eqb Pos.eqb].
    assert (GET_UINT16_RAW b3 (o + 3 + 1) = 0) as ->.
    { unfold GET_UINT16_RAW. rewrite !Hb32 by lia.
      apply (get_set_16 (<[o + 3 := 255]> b1) (o + 3 + 1) 0). lia. }
    cbn [Z.eqb].
    assert (GET_UINT32_RAW b3 (o + 3 + 1 + 2) = len - 3) as ->.
    { replace (o + 3 + 1 + 2) with (o + 3 + 3) by lia.
      apply get_set_32. lia. }
    replace (len - 3 <? 15) with false by (symmetry; apply Z.ltb_ge; lia).
    replace (len - 3 <? 255 + 15) with false by (symmetry; apply Z.ltb_ge; lia).
    replace (len - 3 <=? 65535) with false by (symmetry; apply Z.leb_gt; lia).
    first [done | f_equal; lia].
Qed.

End WithInput.

Lemma lz77_item_match_record_witness :
  let rd : memory := fun _ => 65 in
  let d := (Fill rd (XpressDictionary_init (fun _ => 0) 65536 65546) 65536).1 in
  let st := {| lz_in := 65540; lz_rem := 6; lz_out := 0; lz_mask := 0;
               lz_buf := fun _ => 0;
               lz_counts := replicate (Z.to_nat 512) 0 |} in
  lz_in (lz77_item rd d st)
  = 65540 + Z.min 6 (Find rd d 65540 0).1.
Proof.
  intros rd d st.
  refine (proj1 (lz77_item_match_record rd d st _ _ _)).
  - vm_compute. split; [discriminate | reflexivity].
  - vm_compute. discriminate.
  - vm_compute. split; discriminate.
Defined.

Lemma encode_match_reads_item_witness :
  let rd : memory := fun _ => 65 in
  let d := (Fill rd (XpressDictionary_init (fun _ => 0) 65536 65546) 65536).1 in
  let st := {| lz_in := 65540; lz_rem := 6; lz_out := 0; lz_mask := 0;
               lz_buf := fun _ => 0;
               lz_counts := replicate (Z.to_nat 512) 0 |} in
  let enc := {| codes := replicate (Z.to_nat 512) 1;
                lens := replicate (Z.to_nat 512) 9 |} in
  (encode_match enc (lz_buf (lz77_item rd d st)) (lz_out st)
                (OutputBitstream_init 1000, fun _ => 0)).1
  = lz_out (lz77_item rd d st).
Proof.
  intros rd d st enc.
  rewrite (encode_match_reads_item rd d st enc
             (OutputBitstream_init 1000, fun _ => 0)).
  - reflexivity.
  - vm_compute. split; [discriminate | reflexivity].
  - vm_compute. discriminate.
  - vm_compute. split; discriminate.
Defined.

(** *** The size of the scratch buffer *)

Section WithInput.

Variable rd : memory.

(** One item reads [n >= 1] input bytes and writes between 1 and [n]
    scratch bytes, all of them at the cursor. *)
Definition item_ok (st st' : lz77_state) : Prop :=
  lz_in st' - lz_in st = lz_rem st - lz_rem st'
  ∧ 1 <= lz_rem st - lz_rem st'
  ∧ 0 <= lz_rem st'
  ∧ 1 <= lz_out st' - lz_out st <= lz_rem st - lz_rem st'
  ∧ (∀ a, a < lz_out st ∨ lz_out st' <= a → lz_buf st' a = lz_buf st a).

Lemma lz77_item_ok (d : XpressDictionary) (st : lz77_state) :
  1 <= lz_rem st < 2 ^ 31 → item_ok st (lz77_item rd d st).
Proof.
  intros Hrem. unfold lz77_item.
  destruct ((3 <=? lz_rem st) &&
            (3 <=? (if 3 <=? lz_rem st
                    then Find rd d (lz_in st) 0 else (0, 0)).1)) eqn:Hc.
  - apply andb_true_iff in Hc as [H3 Hf]. rewrite H3 in *.
    apply Z.leb_le in H3, Hf.
    set (found := Find rd d (lz_in st) 0) in *.
    rewrite (u32_small (lz_rem st)) by lia.
    set (len := if lz_rem st <? found.1 then lz_rem st else found.1).
    assert (Hlen : 3 <= len <= lz_rem st).
    { unfold len. destruct (Z.ltb_spec (lz_rem st) found.1); lia. }
    rewrite (u32_small (len - 3)) by lia.
    set (b1 := SET_UINT16_RAW _ _ _).
    assert (Hb1 : ∀ a, a < lz_out st ∨ lz_out st + 3 <= a →
                       b1 a = lz_buf st a).
    { intros a Ha. unfold b1. rewrite set_16_other by lia.
      by rewrite fn_lookup_insert_ne by lia. }
    destruct (lz77_length_ext_cases b1 (lz_out st + 3) (len - 3) ltac:(lia))
      as [(Hk & E) | [(Hk & E) | [(Hk & E) | (Hk & E)]]];
      cbv zeta in E; rewrite E; unfold item_ok;
      cbn [lz_in lz_rem lz_out lz_buf];
      (split; [lia|]); (split; [lia|]); (split; [lia|]); (split; [lia|]);
      intros a Ha.
    + apply Hb1. lia.
    + rewrite fn_lookup_insert_ne by lia. apply Hb1. lia.
    + rewrite set_16_other by lia.
      rewrite fn_lookup_insert_ne by lia. apply Hb1. lia.
    + rewrite set_32_other, set_16_other by lia.
      rewrite fn_lookup_insert_ne by lia. apply Hb1. lia.
  - unfold item_ok. cbn [lz_in lz_rem lz_out lz_buf].
    repeat split; try lia.
    intros a Ha. by rewrite fn_lookup_insert_ne by lia.
Qed.

(** A group of items. *)
Lemma lz77_group_ok (d : XpressDictionary) : ∀ n i st,
  0 <= lz_rem st < 2 ^ 31 →
  let r := lz77_group rd n d i st in
  i <= r.1 <= Z.max i 32
  ∧ r.1 - i <= lz_rem st - lz_rem r.2
  ∧ 0 <= lz_rem r.2
  ∧ 0 <= lz_out r.2 - lz_out st <= lz_rem st - lz_rem r.2
  ∧ (∀ a, a < lz_out st ∨ lz_out r.2 <= a → lz_buf r.2 a = lz_buf st a)
  ∧ (32 <= i + Z.of_nat n → r.1 < 32 → lz_rem r.2 = 0)
  ∧ (0 < lz_rem st → i < 32 → (1 <= n)%nat → i < r.1).
Proof.
  induction n as [|n IH]; intros i st Hrem; cbn [lz77_group].
  { cbn [fst snd]. repeat split; lia. }
  destruct ((i <? 32) && (0 <? lz_rem st)) eqn:Hc.
  - apply andb_true_iff in Hc as [Hi Hr].
    apply Z.ltb_lt in Hi, Hr.
    destruct (lz77_item_ok d st ltac:(lia)) as (I1 & I2 & I3 & I4 & I5).
    specialize (IH (i + 1) (lz77_item rd d st) ltac:(lia)).
    cbv zeta in IH. destruct IH as (G1 & G2 & G3 & G4 & G5 & G6 & G7).
    set (r := lz77_group rd n d (i + 1) (lz77_item rd d st)) in *.
    split; [lia|]. split; [lia|]. split; [lia|]. split; [lia|].
    split; [|split].
    + intros a Ha. rewrite G5 by lia. apply I5. lia.
    + intros Hn Hlt. apply G6; lia.
    + lia.
  - cbn [fst snd]. apply andb_false_iff in Hc.
    split; [lia|]. split; [lia|]. split; [lia|]. split; [lia|].
    split; [done|]. split.
    + intros Hn Hlt. destruct Hc as [Hc | Hc].
      * apply Z.ltb_ge in Hc. lia.
      * apply Z.ltb_ge in Hc. lia.
    + intros H1 H2. destruct Hc as [Hc | Hc]; apply Z.ltb_ge in Hc; lia.
Qed.

(** The state of the group loop once [g] groups are complete, for a
    slice of [in_len] bytes and a scratch buffer [buf0] used from [out0]. *)
Definition groups_ok (in_len out0 : Z) (buf0 : memory) (g : Z)
  (s : Z * Z * lz77_state) : Prop :=
  let '(i, mask_out, st) := s in
  let c := in_len - lz_rem st in
  0 <= lz_rem st <= in_len
  ∧ 0 <= lz_out st - out0 <= c + 4 * g
  ∧ (∀ a, a < out0 ∨ lz_out st <= a → lz_buf st a = buf0 a)
  ∧ ((g = 0 ∧ c = 0)
     ∨ (1 <= g ∧ 32 * (g - 1) < c ∧ (0 < lz_rem st → 32 * g <= c)
        ∧ out0 <= mask_out ∧ mask_out + 4 <= lz_out st
        ∧ 1 <= i <= 32)).

Lemma lz77_loop_ok (d : XpressDictionary) (in_len out0 : Z) (buf0 : memory) :
  in_len < 2 ^ 31 →
  ∀ fuel g s, 0 <= g → groups_ok in_len out0 buf0 g s →
  ∃ g', g <= g' ∧ groups_ok in_len out0 buf0 g' (lz77_loop rd fuel d s)
        ∧ ((1 <= fuel)%nat → 0 < lz_rem s.2 → 1 <= g').
Proof.
  intros Hin. induction fuel as [|fuel IH]; intros g [[i mask_out] st] Hg Hs.
  { exists g. split; [lia|]. split; [done | lia]. }
  cbn [lz77_loop].
  destruct (Z.ltb_spec 0 (lz_rem st)) as [Hr | Hr].
  2:{ exists g. split; [lia|]. split; [done|]. cbn [snd]. lia. }
  destruct Hs as (S1 & S2 & S3 & S4).
  set (st1 := {| lz_in := lz_in st; lz_rem := lz_rem st;
                 lz_out := lz_out st + 4; lz_mask := 0;
                 lz_buf := lz_buf st; lz_counts := lz_counts st |}).
  pose proof (lz77_group_ok d 32 0 st1 ltac:(cbn [lz_rem st1]; lia)) as G.
  cbv zeta in G. destruct (lz77_group rd 32 d 0 st1) as [i2 st2].
  cbn [fst snd lz_rem lz_out lz_buf st1] in G.
  destruct G as (G1 & G2 & G3 & G4 & G5 & G6 & G7).
  rewrite Z.max_r in G1 by lia.
  specialize (G7 Hr ltac:(lia) ltac:(lia)).
  specialize (G6 ltac:(lia)).
  edestruct (IH (g + 1)) as (g' & Hg' & Hs' & _); [lia | | ].
  2:{ exists g'. split; [lia|]. split; [exact Hs'|]. intros _ _. lia. }
  unfold groups_ok. cbn [lz_rem lz_out lz_buf].
  split; [lia|]. split; [lia|]. split.
  - intros a Ha. rewrite set_32_other by lia.
    rewrite G5 by lia. apply S3. lia.
  - right. split; [lia|].
    destruct S4 as [(-> & Hc0) | (Hg1 & Hc1 & Hc2 & _)].
    + split; [lia|]. split; [|lia]. intros Hpos.
      assert (¬ i2 < 32) by (intros Hlt; specialize (G6 Hlt); lia). lia.
    + specialize (Hc2 Hr). split; [lia|]. split; [|lia]. intros Hpos.
      assert (¬ i2 < 32) by (intros Hlt; specialize (G6 Hlt); lia). lia.
Qed.

(** The size of the scratch buffer the entry point allocates for an
    input of [in_len] bytes ([size_t] arithmetic). *)
Definition scratch_size (in_len : Z) : Z :=
  if CHUNK_SIZE <=? in_len then 0x1200C
  else u64 ((in_len + 31) / 32 * 36 + 4 + 8).

(** [xh_compress_lz77] on a slice of [len] bytes, [1 <= len <= CHUNK_SIZE],
    of an input of [in_len >= len] bytes: the number of scratch bytes it
    returns is at most [len + 4 * ceil(len / 32) + 7], which is less than
    the size allocated for the scratch buffer, and it stores nowhere but
    in the first [scratch_size in_len] bytes of that buffer. *)
Theorem xh_compress_lz77_within_scratch (in_ len in_end : Z) (buf : memory)
  (out : Z) (d : XpressDictionary) (in_len : Z) :
  1 <= len <= CHUNK_SIZE → len <= in_len →
  let r := xh_compress_lz77 rd in_ len in_end buf out d in
  0 <= r.2 <= len + 4 * ((len + 31) / 32) + 7
  ∧ r.2 < scratch_size in_len
  ∧ (∀ a, a < out ∨ out + scratch_size in_len <= a → r.1.1.2 a = buf a).
Proof.
  intros Hlen Hin r. unfold CHUNK_SIZE in *.
  pose proof (Z.div_mod (len + 31) 32 ltac:(lia)) as Hd.
  pose proof (Z.mod_pos_bound (len + 31) 32 ltac:(lia)) as Hm.
  set (q := (len + 31) / 32) in *.
  assert (Hsz : len + 4 * q + 8 <= scratch_size in_len).
  { unfold scratch_size, CHUNK_SIZE.
    destruct (Z.leb_spec 65536 in_len); [lia|].
    pose proof (Z.div_mod (in_len + 31) 32 ltac:(lia)) as Hd'.
    pose proof (Z.mod_pos_bound (in_len + 31) 32 ltac:(lia)) as Hm'.
    rewrite u64_small by lia. lia. }
  unfold r, xh_compress_lz77.
  set (d1 := (Fill rd d in_).1).
  set (st0 := {| lz_in := in_; lz_rem := len; lz_out := out; lz_mask := 0;
                 lz_buf := buf; lz_counts := replicate SYMBOLS 0 |}).
  destruct (lz77_loop_ok d1 len out buf ltac:(lia) (Z.to_nat len) 0
              (0, 0, st0) ltac:(lia)) as (g & Hg0 & Hg & Hg1).
  { unfold groups_ok. cbn [lz_rem lz_out lz_buf st0].
    split; [lia|]. split; [lia|]. split; [done|]. left. lia. }
  specialize (Hg1 ltac:(lia) ltac:(cbn [snd lz_rem st0]; lia)).
  destruct (lz77_loop rd (Z.to_nat len) d1 (0, 0, st0)) as [[i mask_out] st].
  destruct Hg as (S1 & S2 & S3 & S4).
  destruct S4 as [(-> & _) | (_ & Hc1 & _ & Hm1 & Hm2 & Hi)]; [lia|].
  assert (Hgq : g <= q) by lia.
  destruct (in_ + len =? in_end); [destruct (i =? 32)|]; cbn [fst snd].
  - split; [lia|]. split; [lia|]. intros a Ha.
    rewrite !set_32_other by lia. apply S3. lia.
  - split; [lia|]. split; [lia|]. intros a Ha.
    rewrite !set_32_other by lia. apply S3. lia.
  - split; [lia|]. split; [lia|]. intros a Ha.
    rewrite !set_32_other by lia. apply S3. lia.
Qed.

End WithInput.

Lemma xh_compress_lz77_within_scratch_witness :
  let rd : memory := fun _ => 65 in
  (xh_compress_lz77 rd 65536 10 65546 (fun _ => 0) 0
     (XpressDictionary_init (fun _ => 0) 65536 65546)).2
  < scratch_size 10.
Proof.
  intros rd.
  refine (proj1 (proj2 (xh_compress_lz77_within_scratch rd 65536 10 65546
                          (fun _ => 0) 0
                          (XpressDictionary_init (fun _ => 0) 65536 65546)
                          10 _ _))).
  - vm_compute. split; discriminate.
  - lia.
Defined.

End Lz77More.

(** ** The entry point *)

Module EntryPoint.

Import Bitstream Dictionary Huffman Xpress MemoryFacts.

Lemma Some_eq_inv {A : Type} (a b : A) : Some a = Some b → a = b.
Proof. by intros [= ->]. Qed.

Lemma no_matching_len_bound (lens_ counts : list Z) :
  0 <= xh_calc_compressed_len_no_matching lens_ counts < 2 ^ 62.
Proof.
  unfold xh_calc_compressed_len_no_matching.
  change 257%nat with (S 256). rewrite for_loop_S_r.
  set (x := (_ + u32 _)). pose proof (u64_range x) as Hx.
  set (sb := u64 x) in *.
  pose proof (Z.div_mod (sb + 15) 16 ltac:(lia)) as Hd.
  pose proof (Z.mod_pos_bound (sb + 15) 16 ltac:(lia)) as Hm.
  change (2 ^ 64) with 18446744073709551616 in Hx.
  rewrite u64_small by lia. change (2 ^ 62) with 4611686018427387904. lia.
Qed.

Lemma calc_len_nonneg (lens_ counts : list Z) (buf_len : Z) :
  0 <= xh_calc_compressed_len lens_ counts buf_len.
Proof.
  unfold xh_calc_compressed_len.
  destruct (for_loop 256 0 _ _) as [sb ls].
  destruct (for_loop 256 256 _ _) as [sb' ms].
  apply u64_range.
Qed.

(** *** The table of code lengths *)

Definition lens_written (lens_ : list Z) (outm : memory) (out : Z)
  (k : nat) (m : memory) : Prop :=
  (∀ i, (i < k)%nat →
     m (out + Z.of_nat i)
     = u8 (Z.lor (lens_ !!! (2 * i)%nat)
                 (Z.shiftl (lens_ !!! (2 * i + 1)%nat) 4)))
  ∧ (∀ a, a < out ∨ out + Z.of_nat k <= a → m a = outm a).

Lemma write_lens_written (lens_ : list Z) (outm : memory) (out : Z) :
  lens_written lens_ outm out 256 (write_lens lens_ outm out).
Proof.
  unfold write_lens.
  apply (for_loop_ind (lens_written lens_ outm out) 256 0).
  - split; [lia | done].
  - intros k m Hk [H1 H2]. split.
    + intros i Hi. destruct (decide (i = k)) as [-> | Hne].
      * apply fn_lookup_insert.
      * rewrite fn_lookup_insert_ne by lia. apply H1. lia.
    + intros a Ha. rewrite fn_lookup_insert_ne by lia. apply H2. lia.
Qed.

(** The 256 bytes [write_lens] stores hold the 512 code lengths, two to a
    byte: the length of symbol [2 i] is the low nibble of byte [i] and the
    length of symbol [2 i + 1] the high nibble, as long as every length is
    at most 15; the rest of the output buffer is untouched. *)
Theorem write_lens_nibbles (lens_ : list Z) (outm : memory) (out : Z) :
  (∀ s, (s < 512)%nat → 0 <= lens_ !!! s <= 15) →
  let m := write_lens lens_ outm out in
  (∀ i, (i < 256)%nat →
     Z.land (m (out + Z.of_nat i)) 0xF = lens_ !!! (2 * i)%nat
     ∧ Z.shiftr (m (out + Z.of_nat i)) 4 = lens_ !!! (2 * i + 1)%nat)
  ∧ (∀ a, a < out ∨ out + 256 <= a → m a = outm a).
Proof.
  intros Hl m. destruct (write_lens_written lens_ outm out) as [H1 H2].
  fold m in H1, H2. split; [|exact H2].
  intros i Hi. rewrite H1 by done.
  pose proof (Hl (2 * i)%nat ltac:(lia)) as Ha.
  pose proof (Hl (2 * i + 1)%nat ltac:(lia)) as Hb.
  set (a := lens_ !!! (2 * i)%nat) in *.
  set (b := lens_ !!! (2 * i + 1)%nat) in *.
  assert (E : u8 (Z.lor a (Z.shiftl b 4)) = 16 * b + a).
  { rewrite Z.shiftl_mul_pow2, Z.lor_comm by lia.
    rewrite lor_low_high by (change (2 ^ 4) with 16; lia).
    change (2 ^ 4) with 16. rewrite u8_small by lia. lia. }
  rewrite E. split.
  - change 15 with (Z.ones 4). rewrite Z.land_ones by lia.
    change (2 ^ 4) with 16. symmetry. apply Z.mod_unique with (q := b); lia.
  - rewrite Z.shiftr_div_pow2 by lia. change (2 ^ 4) with 16.
    symmetry. apply Z.div_unique with (r := a); lia.
Qed.

Lemma write_lens_nibbles_witness :
  write_lens (replicate 512 9) (fun _ => 0) 1000 2000 = 0.
Proof.
  refine (proj2 (write_lens_nibbles (replicate 512 9) (fun _ => 0) 1000 _)
                2000 _).
  - intros s Hs. rewrite list_lookup_total_alt, lookup_replicate_2 by done.
    cbn. lia.
  - lia.
Defined.

Section WithInput.

Variable rd : memory.

(** What one chunk does to the cursors and to the remaining capacity. *)
Lemma compress_chunk_shape (fuel : nat) (in_end len limit : Z)
  (is_end : bool) (st : compress_state) (r : compress_state + Z * memory) :
  compress_chunk rd fuel in_end len limit is_end st = Some r →
  0 <= limit < 2 ^ 62 → 0 <= cs_out_len st < 2 ^ 64 →
  match r with
  | inl st' =>
      cs_in st' = cs_in st + len
      ∧ cs_in_len st' = cs_in_len st - len
      ∧ HALF_SYMBOLS <= cs_out st' - cs_out st
      ∧ cs_out_len st' = cs_out_len st - (cs_out st' - cs_out st)
      ∧ 0 <= cs_out_len st'
  | inr (e, m) => e = ENOBUFS ∧ m = cs_outm st
  end.
Proof.
  intros Hr Hlim Hcap. unfold compress_chunk in Hr.
  destruct (xh_compress_lz77 rd (cs_in st) len in_end (cs_buf st) 0 (cs_d st))
    as [[[d' buf'] counts] buf_len].
  destruct (CreateCodes fuel (cs_encoder st) counts) as [enc|]; [|done].
  cbv zeta in Hr.
  set (comp0 := xh_calc_compressed_len (lens enc) counts buf_len) in *.
  assert (H0 : 0 <= comp0) by apply calc_len_nonneg.
  change (2 ^ 62) with 4611686018427387904 in *.
  change (2 ^ 64) with 18446744073709551616 in *.
  unfold HALF_SYMBOLS in *.
  destruct (Z.ltb_spec limit comp0).
  - destruct (xh_compress_no_matching rd (cs_in st) len is_end buf' 0)
      as [[b c] l].
    pose proof (no_matching_len_bound (lens (CreateCodesSlow enc c)) c) as Hb.
    set (comp := xh_calc_compressed_len_no_matching _ _) in *.
    change (2 ^ 62) with 4611686018427387904 in *.
    clearbody comp comp0.
    rewrite u64_small in Hr by lia.
    destruct (Z.ltb_spec (cs_out_len st) (256 + comp)).
    + apply Some_eq_inv in Hr. by rewrite <- Hr.
    + apply Some_eq_inv in Hr. rewrite <- Hr.
      cbn [cs_in cs_in_len cs_out cs_out_len].
      rewrite u64_small by lia. lia.
  - clearbody comp0. rewrite u64_small in Hr by lia.
    destruct (Z.ltb_spec (cs_out_len st) (256 + comp0)).
    + apply Some_eq_inv in Hr. by rewrite <- Hr.
    + apply Some_eq_inv in Hr. rewrite <- Hr.
      cbn [cs_in cs_in_len cs_out cs_out_len].
      rewrite u64_small by lia. lia.
Qed.

Lemma compress_chunk_error (fuel : nat) (in_end len limit : Z)
  (is_end : bool) (st : compress_state) (e : Z) (m : memory) :
  compress_chunk rd fuel in_end len limit is_end st = Some (inr (e, m)) →
  e = ENOBUFS ∧ m = cs_outm st.
Proof.
  intros Hr. unfold compress_chunk in Hr.
  destruct (xh_compress_lz77 rd (cs_in st) len in_end (cs_buf st) 0 (cs_d st))
    as [[[d' buf'] counts] buf_len].
  destruct (CreateCodes fuel (cs_encoder st) counts) as [enc|]; [|done].
  cbv zeta in Hr.
  destruct (limit <? _).
  - destruct (xh_compress_no_matching rd (cs_in st) len is_end buf' 0)
      as [[b c] l].
    destruct (cs_out_len st <? _); apply Some_eq_inv in Hr; [|done].
    by injection Hr as <- <-.
  - destruct (cs_out_len st <? _); apply Some_eq_inv in Hr; [|done].
    by injection Hr as <- <-.
Qed.

(** The chunk loop: [k] whole chunks have been encoded. *)
Lemma chunk_loop_shape (fuel : nat) (in_end : Z) : ∀ n st r,
  chunk_loop rd n fuel in_end st = Some r →
  0 <= cs_out_len st < 2 ^ 64 →
  match r with
  | inl st' =>
      ∃ k, 0 <= k <= Z.of_nat n
        ∧ cs_in st' = cs_in st + k * CHUNK_SIZE
        ∧ cs_in_len st' = cs_in_len st - k * CHUNK_SIZE
        ∧ HALF_SYMBOLS * k <= cs_out st' - cs_out st
        ∧ cs_out_len st' = cs_out_len st - (cs_out st' - cs_out st)
        ∧ 0 <= cs_out_len st'
        ∧ (1 <= cs_in_len st → 1 <= cs_in_len st')
        ∧ (cs_in_len st <= (Z.of_nat n + 1) * CHUNK_SIZE →
           cs_in_len st' <= CHUNK_SIZE)
  | inr (e, m) => e = ENOBUFS
  end.
Proof.
  induction n as [|n IH]; intros st r Hr Hcap; cbn [chunk_loop] in Hr.
  { apply Some_eq_inv in Hr. subst r. exists 0.
    unfold CHUNK_SIZE, HALF_SYMBOLS. repeat split; lia. }
  destruct (Z.ltb_spec CHUNK_SIZE (cs_in_len st)) as [Hgt | Hle].
  2:{ apply Some_eq_inv in Hr. subst r. exists 0.
      unfold CHUNK_SIZE, HALF_SYMBOLS in *. repeat split; lia. }
  destruct (compress_chunk rd fuel in_end CHUNK_SIZE (CHUNK_SIZE + 2) false st)
    as [[st1 | [e m]]|] eqn:Hc; [| |done].
  - pose proof (compress_chunk_shape _ _ _ _ _ _ _ Hc
                  ltac:(unfold CHUNK_SIZE; lia) Hcap)
      as (C1 & C2 & C3 & C4 & C5).
    unfold HALF_SYMBOLS in C3.
    specialize (IH st1 r Hr ltac:(lia)).
    destruct r as [st' | [e m]]; [|done].
    destruct IH as (k & Hk & I1 & I2 & I3 & I4 & I5 & I6 & I7).
    exists (k + 1). unfold CHUNK_SIZE, HALF_SYMBOLS in *.
    repeat split; try lia.
  - apply Some_eq_inv in Hr. subst r.
    by destruct (compress_chunk_error _ _ _ _ _ _ _ _ Hc).
Qed.

(** Whenever the entry point returns, the status is 0, [ENOMEM] or
    [ENOBUFS]; it is [ENOMEM] exactly when the input is not empty and the
    allocation of the scratch buffer fails; and on every failure
    [*_out_len] still holds the capacity the caller passed in. *)
Theorem xpress_huff_compress_status (fuel : nat) (alloc : allocator)
  (in_ in_len : Z) (outm : memory) (out out_len0 : Z) (r : result) :
  xpress_huff_compress rd fuel alloc in_ in_len outm out out_len0 = Some r →
  0 <= out_len0 < 2 ^ 64 →
  (status r = 0 ∨ status r = ENOMEM ∨ status r = ENOBUFS)
  ∧ (status r = ENOMEM ↔ in_len ≠ 0 ∧ buf_alloc alloc = None)
  ∧ (status r ≠ 0 → out_len r = out_len0).
Proof.
  intros Hr Hcap. unfold xpress_huff_compress in Hr.
  assert (Hne : ENOBUFS ≠ ENOMEM) by done.
  assert (Hne0 : 0 ≠ ENOMEM) by done.
  destruct (Z.eqb_spec in_len 0) as [-> | Hin].
  { apply Some_eq_inv in Hr. subst r. cbn [status out_len].
    split; [by left|]. split; [|done]. split; [done | by intros [? _]]. }
  destruct (buf_alloc alloc) as [buf|] eqn:Ha.
  2:{ apply Some_eq_inv in Hr. subst r. cbn [status out_len].
      split; [right; by left|]. split; [|done]. done. }
  cbv zeta in Hr.
  assert (Hfin : (status r = 0 ∨ status r = ENOBUFS)
                 ∧ (status r ≠ 0 → out_len r = out_len0)).
  2:{ destruct Hfin as [Hs Ho]. split; [tauto|]. split; [|done].
      split; [|by intros [_ ?]]. intros E. rewrite E in Hs.
      destruct Hs; done. }
  destruct (chunk_loop rd _ fuel _ _) as [[st | [e m]]|] eqn:Hl; [| |done].
  - destruct (cs_in_len st =? 0).
    + destruct (cs_out_len st <? MIN_DATA); apply Some_eq_inv in Hr; subst r;
        cbn [status out_len]; split; tauto.
    + destruct (compress_chunk rd fuel _ _ _ true st)
        as [[st1 | [e m]]|] eqn:Hc; [| |done].
      * apply Some_eq_inv in Hr; subst r; cbn [status out_len]. split; tauto.
      * apply Some_eq_inv in Hr; subst r; cbn [status out_len].
        destruct (compress_chunk_error _ _ _ _ _ _ _ _ Hc) as [-> _].
        split; tauto.
  - apply Some_eq_inv in Hr; subst r; cbn [status out_len].
    pose proof (chunk_loop_shape _ _ _ _ _ Hl Hcap) as He.
    cbn beta iota in He. rewrite He. split; tauto.
Qed.

(** A successful call on a non-empty input reports a length that is at
    most the capacity it was given, and at least 256 bytes, the table of
    code lengths, for each chunk of 65536 input bytes or part thereof. *)
Theorem xpress_huff_compress_out_len (fuel : nat) (alloc : allocator)
  (in_ in_len : Z) (outm : memory) (out out_len0 : Z) (r : result) :
  xpress_huff_compress rd fuel alloc in_ in_len outm out out_len0 = Some r →
  status r = 0 →
  1 <= in_len < 2 ^ 61 → 0 <= out_len0 < 2 ^ 64 →
  HALF_SYMBOLS * ((in_len + CHUNK_SIZE - 1) / CHUNK_SIZE) <= out_len r
  ∧ out_len r <= out_len0.
Proof.
  intros Hr Hst Hin Hcap. unfold xpress_huff_compress in Hr.
  destruct (Z.eqb_spec in_len 0) as [-> | _]; [lia|].
  destruct (buf_alloc alloc) as [buf|].
  2:{ apply Some_eq_inv in Hr. subst r. done. }
  cbv zeta in Hr.
  destruct (chunk_loop rd _ fuel _ _) as [[st | [e m]]|] eqn:Hl; [| |done].
  2:{ apply Some_eq_inv in Hr. subst r. cbn [status] in Hst.
      pose proof (chunk_loop_shape _ _ _ _ _ Hl Hcap) as He.
      cbn beta iota in He. by rewrite He in Hst. }
  pose proof (chunk_loop_shape _ _ _ _ _ Hl Hcap) as He.
  cbn beta iota in He. cbn [cs_in cs_in_len cs_out cs_out_len] in He.
  destruct He as (k & Hk & I1 & I2 & I3 & I4 & I5 & I6 & I7).
  specialize (I6 ltac:(lia)). unfold HALF_SYMBOLS in I3.
  assert (Hdm := Z.div_mod in_len CHUNK_SIZE ltac:(done)).
  assert (Hmb := Z.mod_pos_bound in_len CHUNK_SIZE ltac:(done)).
  assert (H0q : 0 <= in_len / CHUNK_SIZE) by (apply Z.div_pos; [lia | done]).
  rewrite Z2Nat.id in Hk, I7 by done.
  specialize (I7 ltac:(unfold CHUNK_SIZE in *; lia)).
  replace (cs_in_len st =? 0) with false in Hr
    by (symmetry; apply Z.eqb_neq; lia).
  destruct (compress_chunk rd fuel _ _ _ true st)
    as [[st1 | [e m]]|] eqn:Hc; [| |done].
  2:{ apply Some_eq_inv in Hr. subst r. cbn [status] in Hst.
      destruct (compress_chunk_error _ _ _ _ _ _ _ _ Hc) as [-> _]. done. }
  apply Some_eq_inv in Hr. subst r. cbn [out_len].
  pose proof (compress_chunk_shape _ _ _ _ _ _ _ Hc
                ltac:(unfold CHUNK_SIZE in *; lia) ltac:(lia))
    as (C1 & C2 & C3 & C4 & C5).
  assert (Hq : (in_len + CHUNK_SIZE - 1) / CHUNK_SIZE = k + 1).
  { symmetry. unfold CHUNK_SIZE in *.
    apply Z.div_unique with (r := cs_in_len st - 1); lia. }
  rewrite Hq. unfold HALF_SYMBOLS, CHUNK_SIZE in *. lia.
Qed.

End WithInput.

Lemma xpress_huff_compress_status_witness :
  status {| status := ENOMEM; out_len := 300; out_mem := fun _ => 0 |} = 0
  ∨ status {| status := ENOMEM; out_len := 300; out_mem := fun _ => 0 |}
    = ENOMEM
  ∨ status {| status := ENOMEM; out_len := 300; out_mem := fun _ => 0 |}
    = ENOBUFS.
Proof.
  refine (proj1 (xpress_huff_compress_status (fun _ => 65) 1
            {| buf_alloc := None; window0 := fun _ => 0 |}
            65536 5 (fun _ => 0) 0 300 _ _ _)).
  - reflexivity.
  - lia.
Defined.

Lemma option_eta {A : Type} (o : option A) (d : A) :
  match o with Some _ => true | None => false end = true → o = Some (default d o).
Proof. by destruct o. Qed.

(** An instance: the one-byte input 65 with room for 1000 bytes. *)
Lemma xpress_huff_compress_out_len_witness :
  out_len (default {| status := 1; out_len := 0; out_mem := fun _ => 0 |}
             (xpress_huff_compress (fun _ => 65) 8
                {| buf_alloc := Some (fun _ => 0); window0 := fun _ => 0 |}
                65536 1 (fun _ => 0) 0 1000))
  <= 1000.
Proof.
  refine (proj2 (xpress_huff_compress_out_len (fun _ => 65) 8
            {| buf_alloc := Some (fun _ => 0); window0 := fun _ => 0 |}
            65536 1 (fun _ => 0) 0 1000 _ _ _ _ _)).
  - apply option_eta. vm_compute. reflexivity.
  - vm_compute. reflexivity.
  - lia.
  - lia.
Defined.

End EntryPoint.

(** ** The codes of [CreateCodes] *)

Module CanonicalCodes.

Import Huffman MemoryFacts.

(** *** Finite sums over symbol indices *)

Fixpoint Zsum (n : nat) (f : nat → Z) : Z :=
  match n with
  | O => 0
  | S k => Zsum k f + f k
  end.

Lemma Zsum_ext n f g :
  (∀ i, (i < n)%nat → f i = g i) → Zsum n f = Zsum n g.
Proof.
  induction n as [|n IH]; intros H; simpl; [done|].
  rewrite IH, H by (intros; try apply H; lia). done.
Qed.

Lemma Zsum_le n f g :
  (∀ i, (i < n)%nat → f i <= g i) → Zsum n f <= Zsum n g.
Proof.
  induction n as [|n IH]; intros H; simpl; [lia|].
  specialize (H n ltac:(lia)) as Hn.
  specialize (IH ltac:(intros; apply H; lia)). lia.
Qed.

Lemma Zsum_nonneg n f :
  (∀ i, (i < n)%nat → 0 <= f i) → 0 <= Zsum n f.
Proof.
  induction n as [|n IH]; intros H; simpl; [lia|].
  specialize (H n ltac:(lia)) as Hn.
  specialize (IH ltac:(intros; apply H; lia)). lia.
Qed.

Lemma Zsum_zero n f :
  (∀ i, (i < n)%nat → f i = 0) → Zsum n f = 0.
Proof.
  induction n as [|n IH]; intros H; simpl; [done|].
  rewrite IH, H by (intros; try apply H; lia). done.
Qed.

Lemma Zsum_add n f g :
  Zsum n (fun i => f i + g i) = Zsum n f + Zsum n g.
Proof. induction n as [|n IH]; simpl; lia. Qed.

Lemma Zsum_mul n c f :
  Zsum n (fun i => c * f i) = c * Zsum n f.
Proof. induction n as [|n IH]; simpl; lia. Qed.

(** Taking one index out of a sum. *)
Lemma Zsum_remove n f k :
  (k < n)%nat →
  Zsum n f = f k + Zsum n (fun i => if decide (i = k) then 0 else f i).
Proof.
  induction n as [|n IH]; intros Hk; [lia|]. simpl.
  destruct (decide (n = k)) as [->|Hne].
  - rewrite (Zsum_ext k (fun i => if decide (i = k) then 0 else f i) f).
    + lia.
    + intros i Hi. by rewrite decide_False by lia.
  - rewrite IH by lia. lia.
Qed.

Lemma Zsum_pos n f k :
  (k < n)%nat → (∀ i, (i < n)%nat → 0 <= f i) → f k <= Zsum n f.
Proof.
  intros Hk H. rewrite (Zsum_remove n f k Hk).
  assert (0 <= Zsum n (fun i => if decide (i = k) then 0 else f i)).
  { apply Zsum_nonneg. intros i Hi. destruct (decide _); [lia | by apply H]. }
  lia.
Qed.

(** *** Canonical prefix codes

    [L i] is the code length of symbol [i] (0 when the symbol has no code),
    over an alphabet of [n] symbols.  Symbols are ordered by length and then
    by index. *)

Section Canonical.

Variable L : nat → Z.
Variable n : nat.

(** [prec j i]: symbol [j] has a code and comes before symbol [i]. *)
Definition prec (j i : nat) : bool :=
  (0 <? L j) && ((L j <? L i) || ((L j =? L i) && (j <? i)%nat)).

(** The canonical code of symbol [i]: each earlier symbol [j] accounts for
    [2 ^ (L i - L j)] codes of length [L i]. *)
Definition canon (i : nat) : Z :=
  Zsum n (fun j => if prec j i then 2 ^ (L i - L j) else 0).

(** The same position counted in codes of length 15. *)
Definition pos15 (i : nat) : Z :=
  Zsum n (fun j => if prec j i then 2 ^ (15 - L j) else 0).

(** The Kraft sum in units of [2 ^ -15]. *)
Definition kraft15 : Z :=
  Zsum n (fun j => if 0 <? L j then 2 ^ (15 - L j) else 0).

Hypothesis L_range : ∀ i, (i < n)%nat → 0 <= L i <= 15.

Lemma prec_irrefl i : prec i i = false.
Proof.
  unfold prec. rewrite Z.ltb_irrefl, Nat.ltb_irrefl, andb_false_r. simpl.
  apply andb_false_r.
Qed.

Lemma prec_spec j i :
  prec j i = true ↔ 0 < L j ∧ (L j < L i ∨ (L j = L i ∧ (j < i)%nat)).
Proof.
  unfold prec. rewrite andb_true_iff, orb_true_iff, andb_true_iff.
  rewrite !Z.ltb_lt, Z.eqb_eq, Nat.ltb_lt. done.
Qed.

Lemma prec_trans k j i : prec k j = true → prec j i = true → prec k i = true.
Proof. rewrite !prec_spec. lia. Qed.

Lemma prec_total i j :
  i ≠ j → 0 < L i → 0 < L j → prec i j = true ∨ prec j i = true.
Proof. rewrite !prec_spec. lia. Qed.

Lemma canon_nonneg i : 0 <= canon i.
Proof.
  apply Zsum_nonneg. intros j Hj. destruct (prec j i); [|lia].
  apply Z.pow_nonneg. lia.
Qed.

Lemma pos15_canon i :
  (i < n)%nat → pos15 i = canon i * 2 ^ (15 - L i).
Proof.
  intros Hi. unfold pos15, canon.
  rewrite Z.mul_comm, <- Zsum_mul. apply Zsum_ext. intros j Hj.
  destruct (prec j i) eqn:E; [|lia].
  apply prec_spec in E. pose proof (L_range i Hi). pose proof (L_range j Hj).
  rewrite <- Z.pow_add_r by lia. f_equal. lia.
Qed.

Lemma pos15_next i :
  (i < n)%nat → 0 < L i → pos15 i + 2 ^ (15 - L i) <= kraft15.
Proof.
  intros Hi HL. unfold pos15, kraft15.
  rewrite (Zsum_remove n (fun j => if 0 <? L j then _ else _) i Hi).
  replace (0 <? L i) with true by (symmetry; apply Z.ltb_lt; lia).
  cut (Zsum n (λ j : nat, if prec j i then 2 ^ (15 - L j) else 0)
       <= Zsum n (λ i0 : nat, if decide (i0 = i) then 0
                              else if 0 <? L i0 then 2 ^ (15 - L i0) else 0)).
  { lia. }
  apply Zsum_le. intros j Hj.
  destruct (decide (j = i)) as [->|Hne].
  - rewrite prec_irrefl. lia.
  - destruct (prec j i) eqn:E.
    + apply prec_spec in E. replace (0 <? L j) with true
        by (symmetry; apply Z.ltb_lt; lia). lia.
    + destruct (0 <? L j); [apply Z.pow_nonneg|]; lia.
Qed.

Lemma pos15_mono i j :
  (i < n)%nat → prec i j = true → pos15 i + 2 ^ (15 - L i) <= pos15 j.
Proof.
  intros Hi Hp. unfold pos15.
  rewrite (Zsum_remove n (fun k => if prec k j then _ else _) i Hi).
  rewrite Hp.
  cut (Zsum n (λ k : nat, if prec k i then 2 ^ (15 - L k) else 0)
       <= Zsum n (λ i0 : nat, if decide (i0 = i) then 0
                              else if prec i0 j then 2 ^ (15 - L i0) else 0)).
  { lia. }
  apply Zsum_le. intros k Hk.
  destruct (decide (k = i)) as [->|Hne].
  - rewrite prec_irrefl. lia.
  - destruct (prec k i) eqn:E.
    + rewrite (prec_trans _ _ _ E Hp). lia.
    + destruct (prec k j); [apply Z.pow_nonneg|]; lia.
Qed.

(** With a Kraft sum of at most 1 every canonical code fits its length. *)
Lemma canon_lt i :
  kraft15 <= 2 ^ 15 → (i < n)%nat → 0 < L i → canon i < 2 ^ L i.
Proof.
  intros Hk Hi HL. pose proof (pos15_next i Hi HL) as H.
  rewrite (pos15_canon i Hi) in H. pose proof (L_range i Hi).
  assert (0 < 2 ^ (15 - L i)) by (apply Z.pow_pos_nonneg; lia).
  assert (2 ^ 15 = 2 ^ L i * 2 ^ (15 - L i)) as E.
  { rewrite <- Z.pow_add_r by lia. f_equal. lia. }
  nia.
Qed.

(** No canonical code is a prefix of another. *)
Lemma canon_prefix_free i j :
  (i < n)%nat → (j < n)%nat → i ≠ j → 0 < L i → 0 < L j → L i <= L j →
  Z.shiftr (canon j) (L j - L i) ≠ canon i.
Proof.
  intros Hi Hj Hne HLi HLj Hle Heq.
  rewrite Z.shiftr_div_pow2 in Heq by lia.
  pose proof (L_range i Hi). pose proof (L_range j Hj).
  assert (0 < 2 ^ (L j - L i)) as Hp by (apply Z.pow_pos_nonneg; lia).
  pose proof (Z.div_mod (canon j) (2 ^ (L j - L i)) ltac:(lia)) as Hd.
  pose proof (Z.mod_pos_bound (canon j) (2 ^ (L j - L i)) Hp) as Hm.
  rewrite Heq in Hd.
  assert (0 < 2 ^ (15 - L j)) as Hq by (apply Z.pow_pos_nonneg; lia).
  assert (2 ^ (15 - L i) = 2 ^ (L j - L i) * 2 ^ (15 - L j)) as E.
  { rewrite <- Z.pow_add_r by lia. f_equal. lia. }
  assert (pos15 i <= pos15 j < pos15 i + 2 ^ (15 - L i)) as Hin.
  { rewrite (pos15_canon i Hi), (pos15_canon j Hj), E. nia. }
  destruct (prec_total i j Hne HLi HLj) as [Hp1 | Hp1].
  - pose proof (pos15_mono i j Hi Hp1). lia.
  - pose proof (pos15_mono j i Hj Hp1). lia.
Qed.

(** Within one length the codes ascend by one with the symbol index. *)
Lemma canon_same_length i j :
  (j < n)%nat → (i < j)%nat → 0 < L i → L i = L j →
  (∀ k, (i < k < j)%nat → L k ≠ L i) →
  canon j = canon i + 1.
Proof.
  intros Hj Hij HL Heq Hbetween. unfold canon.
  rewrite (Zsum_remove n (fun k => if prec k j then _ else _) i ltac:(lia)).
  replace (prec i j) with true by (symmetry; apply prec_spec; lia).
  rewrite Heq, Z.sub_diag. simpl (2 ^ 0).
  rewrite Z.add_comm. f_equal. apply Zsum_ext. intros k Hk.
  destruct (decide (k = i)) as [->|Hne].
  - rewrite prec_irrefl. done.
  - assert (prec k j = prec k i) as ->; [|done].
    apply eq_true_iff_eq. rewrite !prec_spec.
    destruct (decide (i < k < j)%nat) as [Hb | Hb].
    + specialize (Hbetween k Hb). lia.
    + lia.
Qed.

(** From the last code of one length to the first code of the next
    length in use: add one and shift by the difference. *)
Lemma canon_next_length i j :
  (i < n)%nat → (j < n)%nat → 0 < L i → L i < L j →
  (∀ k, (i < k < n)%nat → L k ≠ L i) →
  (∀ k, (k < j)%nat → L k ≠ L j) →
  (∀ k, (k < n)%nat → ¬ (L i < L k < L j)) →
  canon j = Z.shiftl (canon i + 1) (L j - L i).
Proof.
  intros Hi Hj HL Hlt Hlast Hfirst Hgap.
  rewrite Z.shiftl_mul_pow2 by lia. unfold canon.
  rewrite (Zsum_remove n (fun k => if prec k j then _ else _) i Hi).
  replace (prec i j) with true by (symmetry; apply prec_spec; lia).
  rewrite Z.mul_add_distr_r, Z.mul_1_l, Z.add_comm. f_equal.
  rewrite Z.mul_comm, <- Zsum_mul. apply Zsum_ext. intros k Hk.
  destruct (decide (k = i)) as [->|Hne].
  - rewrite prec_irrefl. lia.
  - assert (prec k j = prec k i) as ->.
    { apply eq_true_iff_eq. rewrite !prec_spec.
      specialize (Hgap k Hk).
      destruct (decide (i < k)%nat) as [Hb | Hb].
      - specialize (Hlast k ltac:(lia)). 
        destruct (decide (k < j)%nat) as [Hc | Hc];
          [specialize (Hfirst k Hc)|]; lia.
      - destruct (decide (k < j)%nat) as [Hc | Hc];
          [specialize (Hfirst k Hc)|]; lia. }
    destruct (prec k i) eqn:E; [|lia].
    apply prec_spec in E.
    pose proof (L_range i Hi). pose proof (L_range k Hk).
    rewrite <- Z.pow_add_r by lia. f_equal. lia.
Qed.

End Canonical.

Lemma u16_add_l x y : u16 (u16 x + y) = u16 (x + y).
Proof. unfold u16. apply Zplus_mod_idemp_l. Qed.

Lemma u16_shiftl1 x : u16 (Z.shiftl (u16 x) 1) = u16 (2 * x).
Proof.
  rewrite Z.shiftl_mul_pow2 by lia. unfold u16.
  rewrite Zmult_mod_idemp_l. f_equal. lia.
Qed.

(** A sum whose terms vanish from [m] on. *)
Lemma Zsum_truncate n m f :
  (m <= n)%nat → (∀ i, (m <= i < n)%nat → f i = 0) → Zsum n f = Zsum m f.
Proof.
  intros Hm H. induction n as [|n IH]; [by replace m with O by lia|].
  destruct (decide (m = S n)) as [->|Hne]; [done|].
  simpl. rewrite H by lia. rewrite IH by (intros; try apply H; lia). lia.
Qed.

Lemma SYMBOLS_eq : SYMBOLS = 512%nat.
Proof. reflexivity. Qed.

#[local] Arguments SYMBOLS : simpl never.
#[local] Opaque SYMBOLS.

(** The code length of symbol [i]. *)
Definition len_of (lens_ : list Z) (i : nat) : Z := lens_ !!! i.

Section AssignCodes.

Variable lens_ : list Z.
Hypothesis lens_range : ∀ i, (i < SYMBOLS)%nat → 1 <= lens_ !!! i <= 15.

Local Abbreviation L := (len_of lens_).

(** The first code of length [n]. *)
Definition first_code (n : Z) : Z :=
  Zsum SYMBOLS (fun k => if (0 <? L k) && (L k <? n) then 2 ^ (n - L k) else 0).

(** The number of symbols of length [n] below [i]. *)
Definition rank_in (n : Z) (i : nat) : Z :=
  Zsum i (fun k => if L k =? n then 1 else 0).

Lemma len_of_range (i : nat) : (i < SYMBOLS)%nat → 1 <= L i <= 15.
Proof. apply lens_range. Qed.

Lemma canon_split (i : nat) :
  (i < SYMBOLS)%nat →
  canon L SYMBOLS i = first_code (L i) + rank_in (L i) i.
Proof.
  intros Hi. unfold canon, first_code, rank_in.
  assert (Zsum i (fun k => if L k =? L i then 1 else 0)
          = Zsum SYMBOLS
              (fun k => if (L k =? L i) && (k <? i)%nat then 1 else 0)) as ->.
  { rewrite (Zsum_truncate SYMBOLS i
               (fun k => if (L k =? L i) && (k <? i)%nat then 1 else 0)).
    - apply Zsum_ext. intros k Hk. replace (k <? i)%nat with true
        by (symmetry; apply Nat.ltb_lt; lia). by rewrite andb_true_r.
    - lia.
    - intros k Hk. replace (k <? i)%nat with false
        by (symmetry; apply Nat.ltb_ge; lia). by rewrite andb_false_r. }
  rewrite <- Zsum_add. apply Zsum_ext. intros k Hk. unfold prec.
  pose proof (len_of_range k Hk).
  replace (0 <? L k) with true by (symmetry; apply Z.ltb_lt; lia).
  cbn [andb].
  destruct (Z.ltb_spec (L k) (L i)); cbn [orb].
  - replace (L k =? L i) with false by (symmetry; apply Z.eqb_neq; lia).
    cbn [andb]. lia.
  - destruct (Z.eqb_spec (L k) (L i)) as [->|]; cbn [andb]; [|done].
    destruct (k <? i)%nat; [|done]. by rewrite Z.sub_diag.
Qed.

Lemma first_code_succ (n : Z) :
  1 <= n →
  first_code (n + 1) = 2 * (first_code n + rank_in n SYMBOLS).
Proof.
  intros Hn. unfold first_code, rank_in.
  rewrite <- Zsum_add, <- Zsum_mul. apply Zsum_ext. intros k Hk.
  pose proof (len_of_range k Hk).
  replace (0 <? L k) with true by (symmetry; apply Z.ltb_lt; lia).
  cbn [andb].
  destruct (Z.ltb_spec (L k) n).
  - replace (L k <? n + 1) with true by (symmetry; apply Z.ltb_lt; lia).
    replace (L k =? n) with false by (symmetry; apply Z.eqb_neq; lia).
    replace (n + 1 - L k) with (Z.succ (n - L k)) by lia.
    rewrite Z.pow_succ_r by lia. lia.
  - destruct (Z.eqb_spec (L k) n) as [->|].
    + replace (n <? n + 1) with true by (symmetry; apply Z.ltb_lt; lia).
      replace (n + 1 - n) with 1 by lia. done.
    + replace (L k <? n + 1) with false by (symmetry; apply Z.ltb_ge; lia).
      done.
Qed.

Lemma first_code_min (n : Z) :
  (∀ i, (i < SYMBOLS)%nat → n <= L i) → first_code n = 0.
Proof.
  intros H. apply Zsum_zero. intros k Hk. specialize (H k Hk).
  replace (L k <? n) with false by (symmetry; apply Z.ltb_ge; lia).
  by rewrite andb_false_r.
Qed.

Lemma rank_in_S (n : Z) (k : nat) :
  rank_in n (S k) = rank_in n k + (if L k =? n then 1 else 0).
Proof. reflexivity. Qed.

(** The inner loop at length [n], after the symbols below [i]. *)
Definition assign_inner_inv (n : Z) (codes_ : list Z) (code : Z)
  (i : nat) (s : list Z * Z) : Prop :=
  length s.1 = SYMBOLS
  ∧ s.2 = u16 (code + rank_in n i)
  ∧ (∀ j, (j < i)%nat → L j = n → s.1 !!! j = u16 (code + rank_in n j))
  ∧ (∀ j, (j < SYMBOLS)%nat → (L j ≠ n ∨ (i <= j)%nat) →
          s.1 !!! j = codes_ !!! j).

Lemma assign_step_inv (n : Z) (codes_ : list Z) (code : Z)
  (k : nat) (s : list Z * Z) :
  (k < SYMBOLS)%nat →
  assign_inner_inv n codes_ code k s →
  assign_inner_inv n codes_ code (S k) (assign_step lens_ n k s).
Proof.
  intros Hk (H1 & H2 & H3 & H4). destruct s as [c cd].
  cbn [fst snd] in H1, H2, H3, H4.
  unfold assign_inner_inv, assign_step. cbn [fst snd].
  fold (L k). rewrite rank_in_S.
  destruct (Z.eqb_spec (L k) n) as [E | E]; cbn [fst snd].
  - split; [by rewrite length_insert|].
    split; [rewrite H2, !u16_add_l; f_equal; lia|].
    split.
    + intros j Hj Hn.
      destruct (decide (j = k)) as [->|Hne].
      * rewrite list_lookup_total_insert_eq by lia.
        rewrite H2. f_equal.
      * rewrite list_lookup_total_insert_ne by done.
        apply H3; [lia | done].
    + intros j Hj Hor. rewrite list_lookup_total_insert_ne.
      * apply H4; [done | lia].
      * intros ->. lia.
  - split; [done|]. split; [rewrite H2; f_equal; lia|].
    split.
    + intros j Hj Hn. apply H3; [|done].
      destruct (decide (j = k)) as [->|]; [done | lia].
    + intros j Hj Hor. apply H4; [done|].
      destruct (decide (j = k)) as [->|]; [by left | lia].
Qed.

Lemma assign_inner (n : Z) (codes_ : list Z) (code : Z) :
  length codes_ = SYMBOLS → 0 <= code < 65536 →
  assign_inner_inv n codes_ code (0 + SYMBOLS)
    (for_loop SYMBOLS 0 (assign_step lens_ n) (codes_, code)).
Proof.
  intros Hlen Hcode.
  apply (for_loop_ind (assign_inner_inv n codes_ code)).
  - unfold assign_inner_inv. cbn [fst snd].
    split; [done|]. split.
    + unfold rank_in. cbn [Zsum]. rewrite Z.add_0_r, u16_small; done.
    + split; [intros; lia | done].
  - intros k s Hk Hs. apply assign_step_inv; [lia | done].
Qed.

(** The scan for the smallest and the largest length. *)
Definition min_max_inv (i : nat) (mm : Z * Z) : Prop :=
  (∀ j, (j < i)%nat → mm.1 <= L j <= mm.2) ∧ 1 <= mm.1 <= mm.2 ∧ mm.2 <= 15.

Lemma min_max_step_inv (k : nat) (mm : Z * Z) :
  (k < SYMBOLS)%nat →
  min_max_inv k mm → min_max_inv (S k) (min_max_step lens_ k mm).
Proof.
  intros Hk (H1 & H2 & H3). destruct mm as [mn mx].
  cbn [fst snd] in H1, H2, H3.
  pose proof (len_of_range k Hk) as Hr.
  unfold min_max_inv, min_max_step. fold (L k).
  destruct (Z.ltb_spec mx (L k)); [|destruct (Z.ltb_spec (L k) mn)];
    cbn [fst snd]; (split; [|lia]); intros j Hj;
    (destruct (decide (j = k)) as [->|]; [lia|]);
    specialize (H1 j ltac:(lia)); lia.
Qed.

Lemma min_max_spec :
  min_max_inv (1 + (SYMBOLS - 1))
    (for_loop (SYMBOLS - 1) 1 (min_max_step lens_) (lens_ !!! 0%nat, lens_ !!! 0%nat)).
Proof.
  pose proof SYMBOLS_eq as HS.
  apply (for_loop_ind min_max_inv).
  - unfold min_max_inv. cbn [fst snd].
    pose proof (len_of_range 0%nat ltac:(lia)) as H0. unfold len_of in H0.
    split; [|lia]. intros j Hj. replace j with 0%nat by lia.
    unfold len_of. lia.
  - intros k mm Hk Hmm. apply min_max_step_inv; [lia | done].
Qed.

Definition assign_inv (n : nat) (s : list Z * Z) : Prop :=
  length s.1 = SYMBOLS
  ∧ s.2 = u16 (first_code (Z.of_nat n))
  ∧ ∀ i, (i < SYMBOLS)%nat → L i < Z.of_nat n →
         s.1 !!! i = u16 (canon L SYMBOLS i).

Lemma assign_length_eq (n : nat) (s : list Z * Z) :
  assign_length lens_ n s
  = ((for_loop SYMBOLS 0 (assign_step lens_ (Z.of_nat n)) s).1,
     u16 (Z.shiftl (for_loop SYMBOLS 0 (assign_step lens_ (Z.of_nat n)) s).2 1)).
Proof. reflexivity. Qed.

Lemma assign_length_inv (n : nat) (s : list Z * Z) :
  (1 <= n)%nat → assign_inv n s → assign_inv (S n) (assign_length lens_ n s).
Proof.
  intros Hn (H1 & H2 & H3). destruct s as [c cd]. cbn [fst snd] in H1, H2, H3.
  pose proof (assign_inner (Z.of_nat n) c cd H1
                ltac:(rewrite H2; apply u16_range)) as HI.
  rewrite assign_length_eq.
  generalize dependent (for_loop SYMBOLS 0 (assign_step lens_ (Z.of_nat n))
                                 (c, cd)).
  intros [c' cd'] (I1 & I2 & I3 & I4). cbn [fst snd] in I1, I2, I3, I4.
  unfold assign_inv. cbn [fst snd].
  split; [exact I1|]. split.
  - rewrite I2, H2, u16_add_l, u16_shiftl1.
    f_equal. rewrite Nat2Z.inj_succ. unfold Z.succ.
    rewrite first_code_succ by lia. done.
  - intros i Hi Hlt.
    destruct (decide (L i = Z.of_nat n)) as [E | E].
    + rewrite I3 by (done || lia). rewrite H2, u16_add_l.
      by rewrite (canon_split i Hi), E.
    + rewrite I4 by (done || (left; done)). apply H3; [done | lia].
Qed.

Lemma assign_codes_eq (codes_ : list Z) :
  assign_codes lens_ codes_
  = (for_loop
       (Z.to_nat ((for_loop (SYMBOLS - 1) 1 (min_max_step lens_)
                            (lens_ !!! 0%nat, lens_ !!! 0%nat)).2 + 1
                  - (for_loop (SYMBOLS - 1) 1 (min_max_step lens_)
                              (lens_ !!! 0%nat, lens_ !!! 0%nat)).1))
       (Z.to_nat (for_loop (SYMBOLS - 1) 1 (min_max_step lens_)
                           (lens_ !!! 0%nat, lens_ !!! 0%nat)).1)
       (assign_length lens_) (codes_, 0)).1.
Proof.
  unfold assign_codes.
  by destruct (for_loop (SYMBOLS - 1) 1 (min_max_step lens_)
                        (lens_ !!! 0%nat, lens_ !!! 0%nat)).
Qed.

(** The codes [assign_codes] gives are the canonical ones, modulo 2^16. *)
Lemma assign_codes_canon (codes_ : list Z) :
  length codes_ = SYMBOLS →
  length (assign_codes lens_ codes_) = SYMBOLS
  ∧ ∀ i, (i < SYMBOLS)%nat →
         assign_codes lens_ codes_ !!! i = u16 (canon L SYMBOLS i).
Proof.
  intros Hlen. rewrite assign_codes_eq.
  pose proof min_max_spec as Hmm.
  generalize dependent (for_loop (SYMBOLS - 1) 1 (min_max_step lens_)
                                 (lens_ !!! 0%nat, lens_ !!! 0%nat)).
  intros [mn mx] (Hr & Hmn & Hmx). cbn [fst snd] in Hr, Hmn, Hmx |- *.
  pose proof SYMBOLS_eq as HS.
  assert (H : assign_inv (Z.to_nat mn + Z.to_nat (mx + 1 - mn))%nat
                (for_loop (Z.to_nat (mx + 1 - mn)) (Z.to_nat mn)
                          (assign_length lens_) (codes_, 0))).
  { apply (for_loop_ind assign_inv).
    - split; [exact Hlen|]. cbn [fst snd].
      rewrite first_code_min by (intros i Hi; specialize (Hr i ltac:(lia)); lia).
      split; [done|]. intros i Hi Hlt. specialize (Hr i ltac:(lia)). lia.
    - intros n s Hn Hs. apply assign_length_inv; [lia | done]. }
  generalize dependent (for_loop (Z.to_nat (mx + 1 - mn)) (Z.to_nat mn)
                                 (assign_length lens_) (codes_, 0)).
  intros [c cd] (H1 & H2 & H3). cbn [fst snd] in H1, H3 |- *.
  split; [exact H1|]. intros i Hi. apply H3; [done|].
  specialize (Hr i ltac:(lia)). lia.
Qed.

End AssignCodes.

Lemma assign_codes_exact (lens_ codes_ : list Z) :
  length codes_ = SYMBOLS →
  (∀ i, (i < SYMBOLS)%nat → 1 <= lens_ !!! i <= 15) →
  kraft15 (len_of lens_) SYMBOLS <= 2 ^ 15 →
  ∀ i, (i < SYMBOLS)%nat →
    assign_codes lens_ codes_ !!! i = canon (len_of lens_) SYMBOLS i
    ∧ 0 <= canon (len_of lens_) SYMBOLS i < 2 ^ (lens_ !!! i).
Proof.
  intros Hlen Hr Hk i Hi.
  assert (Hr0 : ∀ i, (i < SYMBOLS)%nat → 0 <= len_of lens_ i <= 15).
  { intros k Hk'. specialize (Hr k Hk'). unfold len_of. lia. }
  pose proof (canon_nonneg (len_of lens_) SYMBOLS i) as H0.
  pose proof (canon_lt (len_of lens_) SYMBOLS Hr0 i Hk Hi) as H1.
  pose proof (Hr i Hi) as Hri. unfold len_of at 1 3 in H1.
  specialize (H1 ltac:(lia)).
  assert (2 ^ (lens_ !!! i) <= 2 ^ 15) by (apply Z.pow_le_mono_r; lia).
  destruct (assign_codes_canon lens_ Hr codes_ Hlen) as [_ Hc].
  rewrite (Hc i Hi), u16_small by lia. done.
Qed.

(** The codes the last loops of [CreateCodes] assign, for lengths
    between 1 and 15 whose Kraft sum is at most 1: every code fits its
    length, and no code is a prefix of the code of another symbol. *)
Theorem assign_codes_prefix_free (lens_ codes_ : list Z) :
  length codes_ = SYMBOLS →
  (∀ i, (i < SYMBOLS)%nat → 1 <= lens_ !!! i <= 15) →
  kraft15 (len_of lens_) SYMBOLS <= 2 ^ 15 →
  let c := assign_codes lens_ codes_ in
  (∀ i, (i < SYMBOLS)%nat → 0 <= c !!! i < 2 ^ (lens_ !!! i))
  ∧ (∀ i j, (i < SYMBOLS)%nat → (j < SYMBOLS)%nat → i ≠ j →
       lens_ !!! i <= lens_ !!! j →
       Z.shiftr (c !!! j) (lens_ !!! j - lens_ !!! i) ≠ c !!! i).
Proof.
  intros Hlen Hr Hk c. unfold c.
  pose proof (assign_codes_exact lens_ codes_ Hlen Hr Hk) as He.
  split.
  - intros i Hi. destruct (He i Hi) as [-> ?]. done.
  - intros i j Hi Hj Hne Hle.
    destruct (He i Hi) as [-> _]. destruct (He j Hj) as [-> _].
    assert (Hr0 : ∀ i, (i < SYMBOLS)%nat → 0 <= len_of lens_ i <= 15).
    { intros k Hk'. specialize (Hr k Hk'). unfold len_of. lia. }
    pose proof (Hr i Hi). pose proof (Hr j Hj).
    apply (canon_prefix_free (len_of lens_) SYMBOLS Hr0 i j Hi Hj Hne);
      unfold len_of; lia.
Qed.

(** The same codes are in canonical order: among symbols of one length the
    code grows with the symbol number, and a longer code is larger than
    every shorter code extended with zeros to its length. *)
Theorem assign_codes_ordered (lens_ codes_ : list Z) :
  length codes_ = SYMBOLS →
  (∀ i, (i < SYMBOLS)%nat → 1 <= lens_ !!! i <= 15) →
  kraft15 (len_of lens_) SYMBOLS <= 2 ^ 15 →
  let c := assign_codes lens_ codes_ in
  ∀ i j, (i < SYMBOLS)%nat → (j < SYMBOLS)%nat →
    (lens_ !!! i = lens_ !!! j → (i < j)%nat → c !!! i < c !!! j)
    ∧ (lens_ !!! i < lens_ !!! j →
       (c !!! i + 1) * 2 ^ (lens_ !!! j - lens_ !!! i) <= c !!! j).
Proof.
  intros Hlen Hr Hk c i j Hi Hj. unfold c.
  pose proof (assign_codes_exact lens_ codes_ Hlen Hr Hk) as He.
  destruct (He i Hi) as [-> _]. destruct (He j Hj) as [-> _].
  assert (Hr0 : ∀ i, (i < SYMBOLS)%nat → 0 <= len_of lens_ i <= 15).
  { intros k Hk'. specialize (Hr k Hk'). unfold len_of. lia. }
  pose proof (Hr i Hi) as Hri. pose proof (Hr j Hj) as Hrj.
  fold (len_of lens_ i) in *. fold (len_of lens_ j) in *.
  set (L := len_of lens_) in *.
  assert (Hm : prec L i j = true →
               (canon L SYMBOLS i + 1) * 2 ^ (L j - L i) <= canon L SYMBOLS j).
  { intros Hp. pose proof (pos15_mono L SYMBOLS i j Hi Hp) as Hpm.
    rewrite (pos15_canon L SYMBOLS Hr0 i Hi) in Hpm.
    rewrite (pos15_canon L SYMBOLS Hr0 j Hj) in Hpm.
    apply (prec_spec L) in Hp.
    assert (0 < 2 ^ (15 - L j)) by (apply Z.pow_pos_nonneg; lia).
    assert (2 ^ (15 - L i) = 2 ^ (L j - L i) * 2 ^ (15 - L j)) as E.
    { rewrite <- Z.pow_add_r by lia. f_equal. lia. }
    rewrite E in Hpm. nia. }
  split.
  - intros Heq Hlt. specialize (Hm ltac:(apply (prec_spec L); lia)).
    rewrite Heq, Z.sub_diag in Hm. lia.
  - intros Hlt. apply Hm. apply (prec_spec L). lia.
Qed.

Lemma assign_codes_prefix_free_witness :
  0 <= assign_codes (replicate 512 9) (replicate 512 0) !!! 7%nat
     < 2 ^ (replicate 512 9 !!! 7%nat).
Proof.
  refine (proj1 (assign_codes_prefix_free (replicate 512 9) (replicate 512 0)
                   _ _ _) 7%nat _).
  - reflexivity.
  - intros i Hi. rewrite list_lookup_total_alt, lookup_replicate_2.
    + cbn. lia.
    + pose proof SYMBOLS_eq. lia.
  - vm_compute. discriminate.
  - pose proof SYMBOLS_eq. lia.
Defined.

Lemma assign_codes_ordered_witness :
  assign_codes (replicate 512 9) (replicate 512 0) !!! 3%nat
  < assign_codes (replicate 512 9) (replicate 512 0) !!! 7%nat.
Proof.
  refine (proj1 (assign_codes_ordered (replicate 512 9) (replicate 512 0)
                   _ _ _ 3%nat 7%nat _ _) _ _).
  - reflexivity.
  - intros i Hi. rewrite list_lookup_total_alt, lookup_replicate_2.
    + cbn. lia.
    + pose proof SYMBOLS_eq. lia.
  - vm_compute. discriminate.
  - pose proof SYMBOLS_eq. lia.
  - pose proof SYMBOLS_eq. lia.
  - reflexivity.
  - lia.
Defined.

End CanonicalCodes.

(** ** The heap of [CreateCodes] *)

Module HeapFacts.

Import Huffman.

Local Open Scope nat_scope.

(** [slots heap n]: the entries [heap[1]], ..., [heap[n]]. *)
Definition slots (heap : list nat) (n : nat) : list nat :=
  take n (drop 1 heap).

(** The heap order on the slots [1 .. n]: no node is lighter than the node
    in its parent slot. *)
Definition heap_ordered (weights : list Z) (heap : list nat) (n : nat)
  : Prop :=
  ∀ k, 2 <= k <= n →
    (weights !!! (heap !!! Nat.div2 k) <= weights !!! (heap !!! k))%Z.

(** *** Lists with one entry replaced *)

Lemma insert_delete_perm {A : Type} (l : list A) (i : nat) (x : A) :
  i < length l → <[i := x]> l ≡ₚ x :: delete i l.
Proof.
  intros Hi. rewrite insert_take_drop, delete_take_drop by done.
  symmetry. apply Permutation_middle.
Qed.

(** Moving the hole of a list from [j] to [p]: the entry at [p] is copied
    to [j], and the pending value goes to [p] instead of [j]. *)
Lemma hole_move {A : Type} `{Inhabited A} (h : list A) (j p : nat) (x : A) :
  j < length h → p < length h → p ≠ j →
  <[p := x]> (<[j := h !!! p]> h) ≡ₚ <[j := x]> h.
Proof.
  intros Hj Hp Hne.
  rewrite (insert_delete_perm (<[j := h !!! p]> h))
    by (by rewrite length_insert).
  rewrite (insert_delete_perm h j x) by done.
  apply Permutation_skip.
  apply (Permutation_cons_inv (a := h !!! p)).
  rewrite <- (insert_delete_perm h j) by done.
  symmetry. apply delete_Permutation.
  rewrite list_lookup_insert_ne by done.
  by apply list_lookup_lookup_total_lt.
Qed.

Lemma list_split3 {A : Type} (h : list A) (n : nat) :
  h = take 1 h ++ take n (drop 1 h) ++ drop (S n) h.
Proof.
  rewrite <- (take_drop 1 h) at 1. f_equal.
  rewrite <- (take_drop n (drop 1 h)) at 1. f_equal.
  rewrite drop_drop. f_equal.
Qed.

(** Two lists with the same entries that agree outside the slots
    [1 .. n] have the same entries in these slots. *)
Lemma perm_slots (h h' : list nat) (n : nat) :
  h ≡ₚ h' → take 1 h = take 1 h' → drop (S n) h = drop (S n) h' →
  slots h n ≡ₚ slots h' n.
Proof.
  intros Hp Ht Hd. unfold slots.
  rewrite (list_split3 h n), (list_split3 h' n), Ht, Hd in Hp.
  apply Permutation_app_inv_l in Hp.
  by apply Permutation_app_inv_r in Hp.
Qed.

Lemma take1_lookup (h h' : list nat) :
  take 1 h = take 1 h' → h !!! 0 = h' !!! 0.
Proof.
  destruct h as [|a h], h' as [|b h']; simpl; intros E; try done.
  by injection E.
Qed.

Lemma slots_S (h : list nat) (n : nat) :
  S n < length h → slots h (S n) = slots h n ++ [h !!! S n].
Proof.
  intros Hn. unfold slots.
  rewrite (take_S_r _ _ (h !!! S n)); [done|].
  rewrite lookup_drop. simpl.
  by apply list_lookup_lookup_total_lt.
Qed.

Lemma slots_insert (h : list nat) (n j v : nat) :
  1 <= j <= n → slots (<[j := v]> h) n = <[j - 1 := v]> (slots h n).
Proof.
  intros Hj. unfold slots.
  rewrite drop_insert_ge, take_insert_lt by lia. done.
Qed.

Lemma slots_insert_above (h : list nat) (n j v : nat) :
  n < j → slots (<[j := v]> h) n = slots h n.
Proof.
  intros Hj. unfold slots.
  rewrite drop_insert_ge, take_insert_ge by lia. done.
Qed.

Lemma slots_length (h : list nat) (n : nat) :
  n < length h → length (slots h n) = n.
Proof.
  intros Hn. unfold slots. rewrite length_take, length_drop. lia.
Qed.

Lemma slots_lookup (h : list nat) (n k : nat) :
  k < n → slots h n !! k = h !! S k.
Proof.
  intros Hk. unfold slots. rewrite lookup_take_lt by done.
  by rewrite lookup_drop.
Qed.

(** The nodes in the slots are the nodes found at the indices [1 .. n]. *)
Lemma elem_of_slots (h : list nat) (n x : nat) :
  n < length h →
  x ∈ slots h n ↔ ∃ k, 1 <= k <= n ∧ h !!! k = x.
Proof.
  intros Hn. rewrite list_elem_of_lookup. split.
  - intros [i Hi].
    assert (i < n).
    { apply lookup_lt_Some in Hi. rewrite slots_length in Hi; lia. }
    rewrite slots_lookup in Hi by done.
    exists (S i). split; [lia|]. by apply list_lookup_total_correct.
  - intros [k [Hk <-]]. exists (k - 1).
    rewrite slots_lookup by lia. replace (S (k - 1)) with k by lia.
    apply list_lookup_lookup_total_lt. lia.
Qed.

(** The root slot of an ordered heap holds a lightest node. *)
Lemma heap_ordered_min (weights : list Z) (heap : list nat) (n k : nat) :
  heap_ordered weights heap n → 1 <= k <= n →
  (weights !!! (heap !!! 1%nat) <= weights !!! (heap !!! k))%Z.
Proof.
  intros Ho. induction (lt_wf k) as [k _ IH]. intros Hk.
  destruct (decide (k = 1)) as [->|Hne]; [lia|].
  specialize (Ho k ltac:(lia)).
  assert (1 <= Nat.div2 k < k) as Hd.
  { pose proof (Nat.div2_odd k). destruct (Nat.odd k); simpl in *; lia. }
  specialize (IH (Nat.div2 k) ltac:(lia) ltac:(lia)). lia.
Qed.

Lemma div2_child (k i : nat) : Nat.div2 k = i → k = 2 * i ∨ k = 2 * i + 1.
Proof.
  intros <-. pose proof (Nat.div2_odd k).
  destruct (Nat.odd k); simpl in *; lia.
Qed.

Lemma div2_lt (k : nat) : 1 <= k → Nat.div2 k < k.
Proof.
  intros Hk. pose proof (Nat.div2_odd k).
  destruct (Nat.odd k); simpl in *; lia.
Qed.

Lemma div2_pos (k : nat) : 2 <= k → 1 <= Nat.div2 k.
Proof.
  intros Hk. pose proof (Nat.div2_odd k).
  destruct (Nat.odd k); simpl in *; lia.
Qed.

(** *** HEAP_PUSH *)

Section Push.

Variables (weights : list Z) (x n : nat) (H0 : list nat).
Hypothesis weights_nonneg : ∀ i, (0 <= weights !!! i)%Z.
Hypothesis weights_0 : weights !!! 0 = 0%Z.
Hypothesis H0_0 : H0 !!! 0 = 0.
Hypothesis H0_n : n < length H0.

(** The state of the sift-up loop: the hole is at [j], and putting [x]
    there gives the entries of [H0]. *)
Definition push_inv (h : list nat) (j : nat) : Prop :=
  1 <= j <= n ∧ length h = length H0
  ∧ take 1 h = take 1 H0 ∧ drop (S n) h = drop (S n) H0
  ∧ <[j := x]> h ≡ₚ H0
  ∧ (∀ k, 2 <= k <= n → k ≠ j →
       (weights !!! (h !!! Nat.div2 k) <= weights !!! (h !!! k))%Z)
  ∧ (∀ k, 2 <= k <= n → Nat.div2 k = j →
       (weights !!! x <= weights !!! (h !!! k))%Z
       ∧ (weights !!! (h !!! Nat.div2 j) <= weights !!! (h !!! k))%Z).

Lemma HEAP_PUSH_loop_spec (fuel : nat) (h : list nat) (j : nat) :
  j <= fuel → push_inv h j →
  let r := HEAP_PUSH_loop fuel weights x h j in
  push_inv r.1 r.2
  ∧ (weights !!! (r.1 !!! Nat.div2 r.2) <= weights !!! x)%Z.
Proof.
  revert h j. induction fuel as [|f IH]; intros h j Hf Hinv.
  { destruct Hinv as [? _]. lia. }
  simpl. destruct (Z.ltb_spec (weights !!! x)
                              (weights !!! (h !!! Nat.div2 j))) as [Hlt|Hge].
  2:{ simpl. split; [done | lia]. }
  destruct Hinv as (Hj & Hlen & Ht & Hd & Hp & Ha & Hb).
  pose proof (take1_lookup _ _ Ht) as Hh0. rewrite H0_0 in Hh0.
  assert (Nat.div2 j ≠ 0) as Hp0.
  { intros E. rewrite E, Hh0, weights_0 in Hlt.
    pose proof (weights_nonneg x). lia. }
  pose proof (div2_lt j ltac:(lia)) as Hpj.
  set (p := Nat.div2 j) in *.
  apply IH; [lia|].
  unfold push_inv. rewrite length_insert.
  rewrite take_insert_ge, drop_insert_lt by lia.
  split; [lia|]. split; [done|]. split; [done|]. split; [done|]. split.
  { rewrite hole_move by lia. done. }
  split.
  - intros k Hk Hkp.
    destruct (decide (k = j)) as [->|Hkj].
    + rewrite list_lookup_total_insert_eq by lia.
      rewrite list_lookup_total_insert_ne by lia. fold p. lia.
    + rewrite (list_lookup_total_insert_ne _ j k) by lia.
      destruct (decide (Nat.div2 k = j)) as [E|E].
      * rewrite E, list_lookup_total_insert_eq by lia.
        destruct (Hb k Hk E) as [_ Hc]. done.
      * rewrite list_lookup_total_insert_ne by lia. by apply Ha.
  - intros k Hk Hkp.
    assert (Nat.div2 p ≠ j) as Hpp by (pose proof (div2_lt p); lia).
    rewrite (list_lookup_total_insert_ne _ j (Nat.div2 p)) by lia.
    destruct (decide (k = j)) as [->|Hkj].
    + rewrite list_lookup_total_insert_eq by lia. split; [lia|].
      destruct (decide (p = 1)) as [E|E].
      * rewrite E. simpl. rewrite Hh0, weights_0. apply weights_nonneg.
      * apply Ha; lia.
    + rewrite list_lookup_total_insert_ne by lia.
      assert (weights !!! (h !!! p) <= weights !!! (h !!! k))%Z as H1.
      { rewrite <- Hkp. apply Ha; lia. }
      split; [lia|].
      destruct (decide (p = 1)) as [E|E].
      * rewrite E. simpl. rewrite Hh0, weights_0. apply weights_nonneg.
      * specialize (Ha p ltac:(lia) ltac:(lia)). lia.
Qed.

End Push.

Lemma HEAP_PUSH_correct (weights : list Z) (x : nat) (heap : list nat)
  (n : nat) :
  (∀ i, (0 <= weights !!! i)%Z) → weights !!! 0 = 0%Z → heap !!! 0 = 0 →
  S n < length heap → heap_ordered weights heap n →
  let r := HEAP_PUSH weights x (heap, n) in
  r.2 = S n ∧ length r.1 = length heap ∧ r.1 !!! 0 = 0
  ∧ slots r.1 (S n) ≡ₚ x :: slots heap n
  ∧ heap_ordered weights r.1 (S n).
Proof.
  intros Hnn Hw0 Hh0 Hn Ho. unfold HEAP_PUSH.
  set (H0 := <[S n := x]> heap).
  assert (Hlen0 : length H0 = length heap) by apply length_insert.
  assert (H00 : H0 !!! 0 = 0).
  { unfold H0. by rewrite list_lookup_total_insert_ne by lia. }
  assert (Hinit : push_inv weights x (S n) H0 H0 (S n)).
  { unfold push_inv. split; [lia|]. do 3 (split; [done|]). split.
    { unfold H0. by rewrite list_insert_insert_eq. }
    split.
    - intros k Hk Hne. unfold H0.
      pose proof (div2_lt k ltac:(lia)).
      rewrite !list_lookup_total_insert_ne by lia. apply Ho. lia.
    - intros k Hk E. apply div2_child in E. lia. }
  pose proof (HEAP_PUSH_loop_spec weights x (S n) H0 Hnn Hw0 H00
                ltac:(lia) (S n) H0 (S n) ltac:(lia) Hinit) as Hl.
  destruct (HEAP_PUSH_loop (S n) weights x H0 (S n)) as [h2 j].
  simpl in Hl. destruct Hl as [(Hj & Hlen & Ht & Hd & Hp & Ha & Hb) Hc].
  simpl.
  pose proof (take1_lookup _ _ Ht) as Hh20. rewrite H00 in Hh20.
  split; [done|]. split; [rewrite length_insert; lia|]. split.
  { by rewrite list_lookup_total_insert_ne by lia. }
  split.
  - rewrite (perm_slots (<[j := x]> h2) H0 (S n)).
    + unfold H0. rewrite slots_insert by lia.
      rewrite slots_S by done.
      replace (S n - 1) with (length (slots heap n) + 0)
        by (rewrite slots_length; lia).
      rewrite insert_app_r. simpl.
      symmetry. apply Permutation_cons_append.
    + done.
    + by rewrite take_insert_ge by lia.
    + by rewrite drop_insert_lt by lia.
  - intros k Hk.
    pose proof (div2_lt k ltac:(lia)) as Hkd.
    destruct (decide (k = j)) as [->|Hkj].
    + rewrite list_lookup_total_insert_eq by lia.
      rewrite list_lookup_total_insert_ne by lia. done.
    + rewrite (list_lookup_total_insert_ne _ j k) by lia.
      destruct (decide (Nat.div2 k = j)) as [E|E].
      * rewrite E, list_lookup_total_insert_eq by lia.
        by destruct (Hb k Hk E).
      * rewrite list_lookup_total_insert_ne by lia. by apply Ha.
Qed.

(** *** HEAP_POP *)

Section Pop.

Variables (weights : list Z) (t n : nat) (H1 : list nat).
Hypothesis H1_n : n < length H1.

(** The state of the sift-down loop: the hole is at [i], and putting [t]
    there gives the entries of [H1]. *)
Definition pop_inv (h : list nat) (i : nat) : Prop :=
  1 <= i <= n ∧ length h = length H1
  ∧ take 1 h = take 1 H1 ∧ drop (S n) h = drop (S n) H1
  ∧ <[i := t]> h ≡ₚ H1
  ∧ (∀ k, 2 <= k <= n → k ≠ i → Nat.div2 k ≠ i →
       (weights !!! (h !!! Nat.div2 k) <= weights !!! (h !!! k))%Z)
  ∧ (2 <= i → (weights !!! (h !!! Nat.div2 i) <= weights !!! t)%Z)
  ∧ (2 <= i → ∀ k, 2 <= k <= n → Nat.div2 k = i →
       (weights !!! (h !!! Nat.div2 i) <= weights !!! (h !!! k))%Z).

Lemma HEAP_POP_loop_spec (fuel : nat) (h : list nat) (i : nat) :
  n < fuel + i → pop_inv h i →
  let r := HEAP_POP_loop fuel weights t n h i in
  pop_inv r.1 r.2
  ∧ (∀ k, 2 <= k <= n → Nat.div2 k = r.2 →
       (weights !!! t <= weights !!! (r.1 !!! k))%Z).
Proof.
  revert h i. induction fuel as [|f IH]; intros h i Hf Hinv.
  { destruct Hinv as [? _]. lia. }
  cbn [HEAP_POP_loop].
  destruct (Nat.ltb_spec n (2 * i)) as [Hleaf|Hchild].
  { simpl. split; [done|]. intros k Hk E. apply div2_child in E. lia. }
  destruct Hinv as (Hi & Hlen & Ht & Hd & Hp & Ha & Hb & Hc).
  assert (Hj : ∃ j,
             (if (2 * i <? n)
                 && Z.ltb (weights !!! (h !!! (2 * i + 1)))
                          (weights !!! (h !!! (2 * i)))
              then 2 * i + 1 else 2 * i) = j
             ∧ Nat.div2 j = i ∧ 2 * i <= j <= n
             ∧ ∀ k, 2 <= k <= n → Nat.div2 k = i →
                 (weights !!! (h !!! j) <= weights !!! (h !!! k))%Z).
  { destruct (Nat.ltb_spec (2 * i) n) as [H2|H2]; cbn [andb].
    - destruct (Z.ltb_spec (weights !!! (h !!! (2 * i + 1)))
                           (weights !!! (h !!! (2 * i)))) as [H3|H3].
      + eexists. split; [reflexivity|].
        split; [apply (Nat.div2_odd' i)|]. split; [lia|].
        intros k Hk E. apply div2_child in E. destruct E as [->| ->]; lia.
      + eexists. split; [reflexivity|].
        split; [apply (Nat.div2_double i)|]. split; [lia|].
        intros k Hk E. apply div2_child in E. destruct E as [->| ->]; lia.
    - eexists. split; [reflexivity|].
      split; [apply (Nat.div2_double i)|]. split; [lia|].
      intros k Hk E. apply div2_child in E. destruct E as [->| ->]; lia. }
  destruct Hj as (j & Ej & Hji & Hjr & Hjmin). rewrite Ej. clear Ej.
  destruct (Z.ltb_spec (weights !!! t) (weights !!! (h !!! j))) as [Hlt|Hge].
  { simpl. split; [done|]. intros k Hk E. specialize (Hjmin k Hk E). lia. }
  apply IH; [lia|].
  unfold pop_inv. rewrite length_insert.
  rewrite take_insert_ge, drop_insert_lt by lia.
  split; [lia|]. do 3 (split; [done|]). split.
  { rewrite hole_move by lia. done. }
  rewrite Hji. rewrite list_lookup_total_insert_eq by lia.
  split; [|split].
  - intros k Hk Hkj Hkd.
    destruct (decide (k = i)) as [->|Hki].
    + rewrite list_lookup_total_insert_eq by lia.
      pose proof (div2_lt i ltac:(lia)).
      rewrite list_lookup_total_insert_ne by lia.
      apply Hc; [lia | lia | done].
    + rewrite (list_lookup_total_insert_ne _ i k) by lia.
      destruct (decide (Nat.div2 k = i)) as [E|E].
      * rewrite E, list_lookup_total_insert_eq by lia. by apply Hjmin.
      * rewrite list_lookup_total_insert_ne by lia. by apply Ha.
  - intros _. lia.
  - intros _ k Hk E.
    assert (k ≠ i) by (apply div2_child in E; lia).
    rewrite list_lookup_total_insert_ne by lia.
    rewrite <- E. apply Ha; lia.
Qed.

End Pop.

Lemma HEAP_POP_correct (weights : list Z) (heap : list nat) (n : nat) :
  1 <= n < length heap → heap_ordered weights heap n →
  let r := HEAP_POP weights (heap, n) in
  r.2 = n - 1 ∧ length r.1 = length heap ∧ r.1 !!! 0 = heap !!! 0
  ∧ heap !!! 1 :: slots r.1 (n - 1) ≡ₚ slots heap n
  ∧ heap_ordered weights r.1 (n - 1).
Proof.
  intros Hn Ho. unfold HEAP_POP.
  set (t := heap !!! n). set (H1 := <[1 := t]> heap).
  assert (Hlen1 : length H1 = length heap) by apply length_insert.
  destruct (decide (n = 1)) as [->|Hn1].
  { simpl. split; [done|]. rewrite !length_insert.
    rewrite !list_lookup_total_insert_ne by lia.
    split; [done|]. split.
    { unfold H1. by rewrite list_lookup_total_insert_ne by lia. }
    split.
    - unfold slots. rewrite take_0.
      destruct heap as [|a [|b heap]]; simpl in *; try lia.
      by rewrite take_0.
    - intros k Hk. lia. }
  assert (Hinit : pop_inv weights t (n - 1) H1 H1 1).
  { unfold pop_inv. split; [lia|]. do 3 (split; [done|]). split.
    { unfold H1. by rewrite list_insert_insert_eq. }
    split; [|split; [lia|intros; lia]].
    intros k Hk Hk1 Hkd. unfold H1.
    rewrite !list_lookup_total_insert_ne by lia. apply Ho. lia. }
  pose proof (HEAP_POP_loop_spec weights t (n - 1) H1 ltac:(lia) n H1 1
                ltac:(lia) Hinit) as Hl.
  destruct (HEAP_POP_loop n weights t (n - 1) H1 1) as [h2 i].
  simpl in Hl. destruct Hl as [(Hi & Hlen & Ht & Hd & Hp & Ha & Hb & Hc) He].
  simpl.
  split; [done|]. split; [rewrite length_insert; lia|]. split.
  { rewrite list_lookup_total_insert_ne by lia.
    rewrite (take1_lookup _ _ Ht). unfold H1.
    by rewrite list_lookup_total_insert_ne by lia. }
  split.
  - rewrite (perm_slots (<[i := t]> h2) H1 (n - 1)).
    + unfold H1. rewrite slots_insert by lia.
      replace n with (S (n - 1)) at 2 by lia.
      rewrite slots_S by lia. replace (S (n - 1)) with n by lia. fold t.
      assert (slots heap (n - 1)
              = heap !!! 1 :: drop 1 (slots heap (n - 1))) as E.
      { unfold slots.
        destruct heap as [|a [|b heap]]; simpl in *; try lia.
        destruct (n - 1) as [|m] eqn:En; [lia|]. simpl.
        by rewrite drop_0. }
      rewrite E. simpl.
      apply Permutation_skip, Permutation_cons_append.
    + done.
    + by rewrite take_insert_ge by lia.
    + replace (S (n - 1)) with n in * by lia.
      by rewrite drop_insert_lt by lia.
  - intros k Hk.
    pose proof (div2_lt k ltac:(lia)) as Hkd.
    destruct (decide (k = i)) as [->|Hki].
    + rewrite list_lookup_total_insert_eq by lia.
      rewrite list_lookup_total_insert_ne by lia. apply Hb. lia.
    + rewrite (list_lookup_total_insert_ne _ i k) by lia.
      destruct (decide (Nat.div2 k = i)) as [E|E].
      * rewrite E, list_lookup_total_insert_eq by lia. by apply He.
      * rewrite list_lookup_total_insert_ne by lia. by apply Ha.
Qed.


(** [HEAP_POP()] on an ordered heap of [n >= 1] nodes: the node in slot 1
    is a lightest one; afterwards the heap has [n - 1] nodes, the old ones
    without that node, and is ordered again; slot 0 is untouched and the
    array keeps its size. *)
Theorem HEAP_POP_heap (weights : list Z) (heap : list nat) (n : nat) :
  1 <= n < length heap → heap_ordered weights heap n →
  let r := HEAP_POP weights (heap, n) in
  (∀ k, 1 <= k <= n →
     (weights !!! (heap !!! 1%nat) <= weights !!! (heap !!! k))%Z)
  ∧ r.2 = n - 1 ∧ length r.1 = length heap ∧ r.1 !!! 0 = heap !!! 0
  ∧ heap !!! 1 :: slots r.1 (n - 1) ≡ₚ slots heap n
  ∧ heap_ordered weights r.1 (n - 1).
Proof.
  intros Hn Ho r. split.
  - intros k Hk. by apply (heap_ordered_min weights heap n).
  - by apply HEAP_POP_correct.
Qed.

Lemma small_heap_ordered :
  heap_ordered [0; 5; 3; 7]%Z [0; 2; 1; 0; 0] 2.
Proof.
  intros k Hk. assert (k = 2) as -> by lia. vm_compute. done.
Qed.



(** An instance: the lightest of the nodes 2 and 1 leaves the heap. *)
Lemma HEAP_POP_heap_witness :
  [0; 2; 1; 0; 0] !!! 1
    :: slots (HEAP_POP [0; 5; 3; 7]%Z ([0; 2; 1; 0; 0], 2)).1 (2 - 1)
  ≡ₚ slots [0; 2; 1; 0; 0] 2.
Proof.
  refine (proj1 (proj2 (proj2 (proj2 (proj2
            (HEAP_POP_heap [0; 5; 3; 7]%Z [0; 2; 1; 0; 0] 2 _ _)))))).
  - simpl. lia.
  - apply small_heap_ordered.
Defined.

End HeapFacts.

(** ** The tree of [CreateCodes] *)

Module TreeFacts.

Import Huffman HeapFacts CanonicalCodes.

Local Open Scope nat_scope.

#[local] Arguments SYMBOLS : simpl never.
#[local] Opaque SYMBOLS.

Lemma replicate_zero_lookup (n i : nat) : replicate n 0 !!! i = 0.
Proof.
  destruct (decide (i < n)) as [Hi|Hi].
  - by apply lookup_total_replicate_2.
  - rewrite list_lookup_total_alt, lookup_ge_None_2; [done|].
    rewrite length_replicate. lia.
Qed.

Lemma combine_weights_nonneg (w1 w2 : Z) : (0 <= combine_weights w1 w2)%Z.
Proof.
  unfold combine_weights. apply Z.lor_nonneg. split.
  - unfold u32. apply Z.mod_pos_bound. lia.
  - assert (0 <= Z.land w1 255)%Z by (apply Z.land_nonneg; lia). lia.
Qed.

(** *** The invariant of the tree-building loop

    The nodes are [1 .. n_nodes]; the first [SYMBOLS] of them are the
    leaves.  The heap holds the roots of the forest built so far. *)
Record tree_inv (st : tree_state) : Prop := mkTreeInv {
  ti_weights0 : weights st !!! 0 = 0%Z;
  ti_nonneg : ∀ i, (0 <= weights st !!! i)%Z;
  ti_heap0 : heap st !!! 0 = 0;
  ti_heap_length : length (heap st) = SYMBOLS + 2;
  ti_parents_length : length (parents st) = 2 * SYMBOLS;
  ti_count : heap_len st + n_nodes st = 2 * SYMBOLS;
  ti_nodes : SYMBOLS <= n_nodes st < 2 * SYMBOLS;
  ti_ordered : heap_ordered (weights st) (heap st) (heap_len st);
  ti_nodup : NoDup (slots (heap st) (heap_len st));
  ti_roots : ∀ k, k ∈ slots (heap st) (heap_len st)
                  ↔ 1 <= k <= n_nodes st ∧ parents st !!! k = 0;
  ti_parent : ∀ k, parents st !!! k = 0
                   ∨ (1 <= k < parents st !!! k
                      ∧ SYMBOLS < parents st !!! k <= n_nodes st);
  ti_children : ∀ m, SYMBOLS < m <= n_nodes st →
                  ∃ c1 c2, c1 ≠ c2 ∧ ∀ k, parents st !!! k = m ↔ k = c1 ∨ k = c2
}.

(** The heap after the [SYMBOLS] pushes holds every leaf once. *)
Lemma initial_heap (weights_ : list Z) :
  (∀ i, (0 <= weights_ !!! i)%Z) → weights_ !!! 0 = 0%Z →
  let h := for_loop SYMBOLS 1 (HEAP_PUSH weights_)
             (replicate (SYMBOLS + 2) 0, 0) in
  h.2 = SYMBOLS ∧ length h.1 = SYMBOLS + 2 ∧ h.1 !!! 0 = 0
  ∧ heap_ordered weights_ h.1 SYMBOLS
  ∧ slots h.1 SYMBOLS ≡ₚ seq 1 SYMBOLS.
Proof.
  intros Hnn Hw0.
  pose (P := fun (i : nat) (h : list nat * nat) =>
               i <= SYMBOLS + 1
               → S h.2 = i ∧ length h.1 = SYMBOLS + 2 ∧ h.1 !!! 0 = 0
                 ∧ heap_ordered weights_ h.1 h.2
                 ∧ slots h.1 h.2 ≡ₚ seq 1 h.2).
  assert (HP : P (1 + SYMBOLS) (for_loop SYMBOLS 1 (HEAP_PUSH weights_)
                                   (replicate (SYMBOLS + 2) 0, 0))).
  { apply for_loop_ind.
    - intros _. cbn [fst snd]. split; [done|]. split; [apply length_replicate|].
      split; [apply replicate_zero_lookup|]. split.
      + intros k Hk. lia.
      + unfold slots. by rewrite take_0.
    - intros k [h n] Hk HPk Hle. unfold P in HPk. cbn [fst snd] in HPk.
      destruct (HPk ltac:(lia)) as (Hn & Hlen & Hh0 & Ho & Hs).
      pose proof (HEAP_PUSH_correct weights_ k h n Hnn Hw0 Hh0
                    ltac:(lia) Ho) as Hpush.
      destruct (HEAP_PUSH weights_ k (h, n)) as [h' n'].
      simpl in Hpush. destruct Hpush as (-> & Hlen' & Hh0' & Hs' & Ho').
      cbn [fst snd].
      split; [lia|]. split; [lia|]. split; [done|]. split; [done|].
      rewrite Hs', Hs, seq_S. replace (1 + n) with k by lia.
      apply Permutation_cons_append. }
  specialize (HP ltac:(lia)).
  destruct (for_loop SYMBOLS 1 (HEAP_PUSH weights_)
              (replicate (SYMBOLS + 2) 0, 0)) as [h n].
  cbn [fst snd] in *. destruct HP as (Hn & Hlen & Hh0 & Ho & Hs).
  assert (n = SYMBOLS) as -> by lia. done.
Qed.

(** The state the tree-building loop starts from. *)
Definition initial_tree (weights_ : list Z) : tree_state :=
  let h := for_loop SYMBOLS 1 (HEAP_PUSH weights_)
             (replicate (SYMBOLS + 2) 0, 0) in
  {| weights := weights_; heap := h.1; heap_len := h.2;
     n_nodes := SYMBOLS; parents := replicate (2 * SYMBOLS) 0 |}.

Lemma initial_tree_inv (weights_ : list Z) :
  (∀ i, (0 <= weights_ !!! i)%Z) → weights_ !!! 0 = 0%Z →
  tree_inv (initial_tree weights_).
Proof.
  intros Hnn Hw0. pose proof (initial_heap weights_ Hnn Hw0) as Hh.
  unfold initial_tree.
  destruct (for_loop SYMBOLS 1 (HEAP_PUSH weights_)
              (replicate (SYMBOLS + 2) 0, 0)) as [h n].
  simpl in Hh. destruct Hh as (-> & Hlen & Hh0 & Ho & Hs).
  pose proof SYMBOLS_eq as HS.
  split; simpl; try done; try lia.
  - rewrite Hs. apply NoDup_seq.
  - intros k. rewrite Hs, elem_of_seq, replicate_zero_lookup. lia.
  - intros k. left. apply replicate_zero_lookup.
Qed.

(** A node in the heap is a node of the forest. *)
Lemma tree_inv_slot (st : tree_state) (j : nat) :
  tree_inv st → 1 <= j <= heap_len st →
  1 <= heap st !!! j <= n_nodes st ∧ parents st !!! (heap st !!! j) = 0.
Proof.
  intros Hinv Hj. apply (ti_roots st Hinv).
  apply elem_of_slots.
  - pose proof (ti_heap_length st Hinv). pose proof (ti_count st Hinv).
    pose proof (ti_nodes st Hinv). lia.
  - by exists j.
Qed.

(** One round of the loop: the two lightest roots get a new parent. *)
Lemma build_step_inv (st : tree_state) :
  tree_inv st → 2 <= heap_len st →
  tree_inv (build_step st) ∧ heap_len (build_step st) = heap_len st - 1.
Proof.
  intros Hinv Hhl.
  destruct Hinv as [Hw0 Hnn Hh0 Hlen Hplen Hcount Hnodes Ho Hnd Hroots
                    Hpar Hchild].
  assert (Hinv : tree_inv st) by (by split).
  unfold build_step.
  set (hl := heap_len st) in *. set (N := n_nodes st) in *.
  set (n1 := heap st !!! 1).
  (* first pop *)
  pose proof (HEAP_POP_correct (weights st) (heap st) hl ltac:(lia) Ho) as P1.
  destruct (HEAP_POP (weights st) (heap st, hl)) as [h1 l1].
  simpl in P1. destruct P1 as (-> & Hlen1 & Hh10 & Hs1 & Ho1). fold n1 in Hs1.
  cbn [fst snd].
  set (n2 := h1 !!! 1).
  (* second pop *)
  pose proof (HEAP_POP_correct (weights st) h1 (hl - 1) ltac:(lia) Ho1) as P2.
  destruct (HEAP_POP (weights st) (h1, hl - 1)) as [h2 l2].
  simpl in P2. destruct P2 as (-> & Hlen2 & Hh20 & Hs2 & Ho2). fold n2 in Hs2.
  replace (hl - 1 - 1) with (hl - 2) in * by lia.
  (* the roots before and after *)
  assert (Hs : slots (heap st) hl ≡ₚ n1 :: n2 :: slots h2 (hl - 2)).
  { by rewrite <- Hs1, <- Hs2. }
  assert (Hnd' : NoDup (n1 :: n2 :: slots h2 (hl - 2))) by (by rewrite <- Hs).
  apply NoDup_cons in Hnd' as [Hn1 Hnd']. apply NoDup_cons in Hnd' as [Hn2 Hnd2].
  assert (Hroots' : ∀ k, k ∈ n1 :: n2 :: slots h2 (hl - 2)
                         ↔ 1 <= k <= N ∧ parents st !!! k = 0).
  { intros k. rewrite <- Hs. apply Hroots. }
  assert (Hr1 : 1 <= n1 <= N ∧ parents st !!! n1 = 0).
  { apply Hroots'. apply list_elem_of_here. }
  assert (Hr2 : 1 <= n2 <= N ∧ parents st !!! n2 = 0).
  { apply Hroots'. apply list_elem_of_further, list_elem_of_here. }
  assert (Hne : n1 ≠ n2).
  { intros E. apply Hn1. rewrite E. apply list_elem_of_here. }
  assert (Hin2 : ∀ k, k ∈ slots h2 (hl - 2) → 1 <= k <= N).
  { intros k Hk. apply Hroots'. by do 2 apply list_elem_of_further. }
  (* the push *)
  set (w' := <[S N := combine_weights (weights st !!! n1)
                                       (weights st !!! n2)]> (weights st)).
  assert (Hnn' : ∀ i, (0 <= w' !!! i)%Z).
  { intros i. unfold w'. rewrite list_lookup_total_insert.
    destruct (decide _); [apply combine_weights_nonneg | apply Hnn]. }
  assert (Hw0' : w' !!! 0 = 0%Z).
  { unfold w'. by rewrite list_lookup_total_insert_ne by lia. }
  assert (Hh20' : h2 !!! 0 = 0) by congruence.
  assert (Hslot2 : ∀ j, 1 <= j <= hl - 2 → h2 !!! j ≠ S N).
  { intros j Hj E.
    assert (S N ∈ slots h2 (hl - 2)) as Hin.
    { apply elem_of_slots; [lia|]. by exists j. }
    apply Hin2 in Hin. lia. }
  assert (Ho2' : heap_ordered w' h2 (hl - 2)).
  { intros k Hk. unfold w'.
    pose proof (div2_lt k ltac:(lia)). pose proof (div2_pos k ltac:(lia)).
    rewrite !list_lookup_total_insert_ne
      by (apply not_eq_sym, Hslot2; lia).
    by apply Ho2. }
  pose proof (HEAP_PUSH_correct w' (S N) h2 (hl - 2) Hnn' Hw0' Hh20'
                ltac:(lia) Ho2') as P3.
  destruct (HEAP_PUSH w' (S N) (h2, hl - 2)) as [h3 l3].
  simpl in P3. destruct P3 as (-> & Hlen3 & Hh30 & Hs3 & Ho3).
  replace (S (hl - 2)) with (hl - 1) in * by lia.
  cbn [fst snd].
  split; [|done].
  split; cbn [Huffman.weights Huffman.heap Huffman.heap_len Huffman.n_nodes
              Huffman.parents]; fold N; fold hl; try done; try lia.
  - rewrite !length_insert. done.
  - rewrite Hs3. apply NoDup_cons. split; [|done].
    intros Hin. apply Hin2 in Hin. lia.
  - intros k. rewrite Hs3, elem_of_cons.
    rewrite !list_lookup_total_insert by lia.
    rewrite !length_insert.
    destruct (decide (n1 = k ∧ n1 < length (parents st))) as [[E _]|H1].
    { subst k. split; [|lia]. intros [E|Hin]; [lia|]. exfalso.
      by apply Hn1, list_elem_of_further. }
    destruct (decide (n2 = k ∧ n2 < length (parents st))) as [[E _]|H2].
    { subst k. split; [|lia]. intros [E|Hin]; [lia|]. by exfalso. }
    assert (k ≠ n1) by (intros ->; apply H1; lia).
    assert (k ≠ n2) by (intros ->; apply H2; lia).
    specialize (Hroots' k). rewrite !elem_of_cons in Hroots'.
    destruct (Hpar k) as [Hk0|Hk1].
    + split.
      * intros [->|Hin]; [lia|]. apply Hin2 in Hin. lia.
      * intros [Hk _]. destruct (decide (k = S N)) as [->|?]; [by left|].
        right. destruct Hroots' as [_ Hr].
        destruct (Hr ltac:(lia)) as [?|[?|?]]; done.
    + split; [|lia]. intros [->|Hin]; [lia|]. exfalso.
      destruct Hroots' as [Hr _]. specialize (Hr ltac:(tauto)). lia.
  - intros k. rewrite !list_lookup_total_insert by lia.
    rewrite !length_insert.
    destruct (decide (n1 = k ∧ n1 < length (parents st))) as [[E _]|H1].
    { right. lia. }
    destruct (decide (n2 = k ∧ n2 < length (parents st))) as [[E _]|H2].
    { right. lia. }
    destruct (Hpar k) as [Hk0|Hk1]; [by left | right; lia].
  - intros m Hm.
    assert (Hlook : ∀ k, <[n1 := S N]> (<[n2 := S N]> (parents st)) !!! k
                         = if decide (k = n1 ∨ k = n2) then S N
                           else parents st !!! k).
    { intros k. rewrite !list_lookup_total_insert by lia.
      rewrite !length_insert.
      destruct (decide (n1 = k ∧ _)) as [[E _]|H1].
      { rewrite decide_True by (left; done). done. }
      destruct (decide (n2 = k ∧ _)) as [[E _]|H2].
      { rewrite decide_True by (right; done). done. }
      rewrite decide_False; [done|]. intros [->| ->]; [apply H1|apply H2]; lia. }
    destruct (decide (m = S N)) as [->|Hm'].
    + exists n1, n2. split; [done|]. intros k. rewrite Hlook.
      destruct (decide (k = n1 ∨ k = n2)) as [E|E]; [tauto|].
      split; [|tauto]. intros Hk. destruct (Hpar k); lia.
    + destruct (Hchild m ltac:(lia)) as (c1 & c2 & Hc & Hcs).
      exists c1, c2. split; [done|]. intros k. rewrite Hlook, <- Hcs.
      destruct (decide (k = n1 ∨ k = n2)) as [[->| ->]|E]; [lia|lia|done].
Qed.

Lemma build_tree_inv (fuel : nat) (st : tree_state) :
  tree_inv st → heap_len st <= S fuel →
  tree_inv (build_tree fuel st) ∧ heap_len (build_tree fuel st) = 1.
Proof.
  revert st. induction fuel as [|f IH]; intros st Hinv Hf.
  - simpl. split; [done|].
    pose proof (ti_count st Hinv). pose proof (ti_nodes st Hinv). lia.
  - simpl. destruct (Nat.ltb_spec 1 (heap_len st)) as [H1|H1].
    + destruct (build_step_inv st Hinv ltac:(lia)) as [Hinv' Hl'].
      apply IH; [done | lia].
    + split; [done|].
      pose proof (ti_count st Hinv). pose proof (ti_nodes st Hinv). lia.
Qed.

(** *** The finished tree *)

(** [tree_shape parents_]: the nodes [1 .. 2 * SYMBOLS - 1] form one
    binary tree.  The last node is the root; every other node has a parent
    with a larger number, which is an inner node; every inner node has
    exactly two children. *)
Definition tree_shape (parents_ : list nat) : Prop :=
  parents_ !!! (2 * SYMBOLS - 1) = 0
  ∧ (∀ k, 1 <= k < 2 * SYMBOLS - 1 →
       k < parents_ !!! k ∧ SYMBOLS < parents_ !!! k <= 2 * SYMBOLS - 1)
  ∧ (∀ m, SYMBOLS < m <= 2 * SYMBOLS - 1 →
       ∃ c1 c2, c1 ≠ c2 ∧ 1 <= c1 < m ∧ 1 <= c2 < m
                ∧ ∀ k, parents_ !!! k = m ↔ k = c1 ∨ k = c2).

Lemma build_tree_shape (weights_ : list Z) :
  (∀ i, (0 <= weights_ !!! i)%Z) → weights_ !!! 0 = 0%Z →
  let st := build_tree SYMBOLS (initial_tree weights_) in
  tree_shape (parents st)
  ∧ weights st !!! 0 = 0%Z ∧ (∀ i, (0 <= weights st !!! i)%Z).
Proof.
  intros Hnn Hw0 st.
  pose proof (initial_tree_inv weights_ Hnn Hw0) as Hinit.
  assert (Hl0 : heap_len (initial_tree weights_) <= S SYMBOLS).
  { pose proof (ti_count _ Hinit). pose proof (ti_nodes _ Hinit). lia. }
  destruct (build_tree_inv SYMBOLS _ Hinit Hl0) as [Hinv Hl]. fold st in Hinv, Hl.
  clearbody st.
  destruct Hinv as [Hw0' Hnn' Hh0 Hlen Hplen Hcount Hnodes Ho Hnd Hroots
                    Hpar Hchild].
  rewrite Hl in *.
  assert (HN : n_nodes st = 2 * SYMBOLS - 1) by lia.
  rewrite HN in *.
  split; [|done].
  assert (Hroot : parents st !!! (2 * SYMBOLS - 1) = 0).
  { destruct (Hpar (2 * SYMBOLS - 1)); [done | lia]. }
  assert (Hsingle : ∀ k, 1 <= k <= 2 * SYMBOLS - 1 → parents st !!! k = 0 →
                         k = 2 * SYMBOLS - 1).
  { intros k Hk Hk0.
    assert (k ∈ slots (heap st) 1) as H1 by (by apply Hroots).
    assert (2 * SYMBOLS - 1 ∈ slots (heap st) 1) as H2.
    { apply Hroots. split; [lia | done]. }
    apply elem_of_slots in H1 as (j1 & Hj1 & E1); [|lia].
    apply elem_of_slots in H2 as (j2 & Hj2 & E2); [|lia].
    assert (j1 = j2) by lia. congruence. }
  split; [done|]. split.
  - intros k Hk. destruct (Hpar k) as [Hk0|Hk1]; [|lia].
    specialize (Hsingle k ltac:(lia) Hk0). lia.
  - intros m Hm. destruct (Hchild m Hm) as (c1 & c2 & Hc & Hcs).
    exists c1, c2. split; [done|].
    assert (∀ c, parents st !!! c = m → 1 <= c < m) as Hlt.
    { intros c Hcm. destruct (Hpar c); lia. }
    split; [apply Hlt, Hcs; by left|]. split; [apply Hlt, Hcs; by right|].
    done.
Qed.

End TreeFacts.

(** ** The code lengths of [CreateCodes] *)

Module LengthFacts.

Import Huffman HeapFacts TreeFacts CanonicalCodes.

#[local] Arguments SYMBOLS : simpl never.
#[local] Opaque SYMBOLS.

(** The number of links from node [k] up to a node without parent, as far
    as [fuel] reaches. *)
Fixpoint node_depth (fuel : nat) (parents_ : list nat) (k : nat) : nat :=
  match fuel with
  | O => O
  | S f =>
      if (0 <? parents_ !!! k)%nat
      then S (node_depth f parents_ (parents_ !!! k))
      else O
  end.

(** [depth_in parents_ k d]: node [k] lies [d] links below its root. *)
Inductive depth_in (parents_ : list nat) : nat → nat → Prop :=
| depth_root k : parents_ !!! k = O → depth_in parents_ k O
| depth_link k d :
    parents_ !!! k ≠ O → depth_in parents_ (parents_ !!! k) d →
    depth_in parents_ k (S d).

Lemma depth_in_fun (parents_ : list nat) (k d d' : nat) :
  depth_in parents_ k d → depth_in parents_ k d' → d = d'.
Proof.
  intros H. revert d'. induction H as [k Hk|k d Hk H IH]; intros d' H'.
  - inversion H'; [done | congruence].
  - inversion H' as [|? d'' ? H'']; subst; [congruence|].
    f_equal. by apply IH.
Qed.

(** The loop that walks up from a leaf counts the links modulo 256. *)
Lemma depth_loop_node_depth (fuel : nat) (parents_ : list nat) (k : nat)
  (j : Z) :
  depth_loop fuel parents_ k (u8 j)
  = u8 (j + Z.of_nat (node_depth fuel parents_ k)).
Proof.
  revert k j. induction fuel as [|f IH]; intros k j; simpl.
  - f_equal; lia.
  - destruct (0 <? parents_ !!! k)%nat.
    + rewrite IH. unfold u8. rewrite <- Zplus_assoc, Zplus_mod_idemp_l.
      f_equal; lia.
    + f_equal; lia.
Qed.

Lemma depth_loop_from_zero (fuel : nat) (parents_ : list nat) (k : nat) :
  depth_loop fuel parents_ k 0 = u8 (Z.of_nat (node_depth fuel parents_ k)).
Proof. apply (depth_loop_node_depth fuel parents_ k 0). Qed.

(** *** Sums over one or two indices *)

Lemma Zsum_single (n c : nat) (g : nat → Z) :
  (c < n)%nat → Zsum n (fun k => if decide (k = c) then g k else 0) = g c.
Proof.
  intros Hc. rewrite (Zsum_remove _ _ c Hc), decide_True by done.
  rewrite Zsum_zero; [lia|].
  intros i Hi. by destruct (decide (i = c)).
Qed.

Lemma Zsum_pair (n c1 c2 : nat) (p : nat → Prop) `{∀ k, Decision (p k)}
  (g : nat → Z) :
  (c1 < n)%nat → (c2 < n)%nat → c1 ≠ c2 →
  (∀ k, p k ↔ k = c1 ∨ k = c2) →
  Zsum n (fun k => if decide (p k) then g k else 0) = g c1 + g c2.
Proof.
  intros H1 H2 Hne Hp.
  rewrite (Zsum_remove _ _ c1 H1), decide_True by (apply Hp; by left).
  rewrite (Zsum_remove _ _ c2 H2), decide_False, decide_True
    by (try apply Hp; auto).
  rewrite Zsum_zero; [lia|].
  intros i Hi. destruct (decide (i = c2)); [done|].
  destruct (decide (i = c1)); [done|].
  rewrite decide_False; [done|]. rewrite Hp. tauto.
Qed.

Lemma Zsum_shift (n : nat) (f : nat → Z) :
  Zsum (S n) f = f O + Zsum n (fun i => f (S i)).
Proof. induction n as [|n IH]; [simpl; lia|]. simpl in *. lia. Qed.

Lemma Zsum_const (n : nat) (c : Z) : Zsum n (fun _ => c) = Z.of_nat n * c.
Proof. induction n as [|n IH]; [simpl; lia|]. simpl Zsum. lia. Qed.

(** *** Depths in the finished tree *)

Section Shape.

Variable P : list nat.
Hypothesis shape : tree_shape P.

Local Abbreviation N := (2 * SYMBOLS - 1)%nat.

Lemma node_depth_sound (f k : nat) :
  (1 <= k <= N)%nat → (N < f + k)%nat →
  depth_in P k (node_depth f P k) ∧ (node_depth f P k <= N - k)%nat.
Proof.
  destruct shape as (Hroot & Hpar & _).
  revert k. induction f as [|f IH]; intros k Hk Hf; [lia|].
  simpl. destruct (Nat.ltb_spec 0 (P !!! k)) as [Hp|Hp].
  - assert (k ≠ N) by (intros ->; lia).
    destruct (Hpar k ltac:(lia)) as [Hlt Hr].
    destruct (IH (P !!! k) ltac:(lia) ltac:(lia)) as [Hd Hb].
    split; [|lia]. apply depth_link; [lia | done].
  - split; [|lia]. apply depth_root. lia.
Qed.

(** The depth of node [k]. *)
Definition D (k : nat) : nat := node_depth (2 * SYMBOLS) P k.

Lemma D_sound (k : nat) :
  (1 <= k <= N)%nat → depth_in P k (D k) ∧ (D k <= N - k)%nat.
Proof. intros Hk. apply node_depth_sound; lia. Qed.

Lemma D_root : D N = O.
Proof.
  pose proof SYMBOLS_eq.
  destruct (D_sound N ltac:(lia)) as [Hd _].
  destruct shape as (Hroot & _).
  inversion Hd; [done | congruence].
Qed.

Lemma D_child (k : nat) :
  (1 <= k < N)%nat → D k = S (D (P !!! k)).
Proof.
  intros Hk. destruct shape as (Hroot & Hpar & _).
  destruct (Hpar k Hk) as [Hlt Hr].
  destruct (D_sound k ltac:(lia)) as [Hd _].
  destruct (D_sound (P !!! k) ltac:(lia)) as [Hd' _].
  inversion Hd as [? E|? d ? Hd'' E]; [lia|].
  f_equal. apply (depth_in_fun P (P !!! k)); done.
Qed.

(** A leaf lies between 1 and [SYMBOLS - 1] links below the root. *)
Lemma D_leaf (k : nat) :
  (1 <= k <= SYMBOLS)%nat → (1 <= D k <= SYMBOLS - 1)%nat.
Proof.
  intros Hk. pose proof SYMBOLS_eq.
  destruct shape as (Hroot & Hpar & _).
  destruct (Hpar k ltac:(lia)) as [Hlt Hr].
  rewrite D_child by lia.
  destruct (D_sound (P !!! k) ltac:(lia)) as [_ Hb]. lia.
Qed.

(** *** The Kraft sum of the tree

    The weight of a node at depth [d] is [2 ^ (SYMBOLS - 1 - d)].  The nodes
    up to [m] whose parent lies above [m] cut every path from a leaf to the
    root once, and their weights add up to the weight of the root. *)

Definition T (k : nat) : Z := 2 ^ (Z.of_nat (SYMBOLS - 1) - Z.of_nat (D k)).

Definition frontier (m : nat) : Z :=
  Zsum (S m) (fun k => if decide ((1 <= k)%nat
                                  ∧ (P !!! k = O ∨ (m < P !!! k)%nat))
                       then T k else 0).

Lemma frontier_root : frontier N = 2 ^ Z.of_nat (SYMBOLS - 1).
Proof.
  pose proof SYMBOLS_eq as HS.
  destruct shape as (Hroot & Hpar & _).
  unfold frontier.
  rewrite (Zsum_ext _ _ (fun k => if decide (k = N) then T k else 0)).
  - rewrite Zsum_single by lia. unfold T. rewrite D_root. f_equal; lia.
  - intros k Hk. destruct (decide (k = N)) as [->|Hne].
    + rewrite decide_True; [done|]. split; [lia | by left].
    + rewrite decide_False; [done|]. intros [H1 H2].
      destruct (Hpar k ltac:(lia)). lia.
Qed.

Lemma frontier_step (m : nat) :
  (SYMBOLS < S m <= N)%nat → frontier m = frontier (S m).
Proof.
  intros Hm. pose proof SYMBOLS_eq as HS.
  destruct shape as (Hroot & Hpar & Hch).
  destruct (Hch (S m) Hm) as (c1 & c2 & Hne & Hc1 & Hc2 & Hcs).
  unfold frontier at 2. simpl Zsum.
  assert (Hlast : (1 <= S m)%nat ∧ (P !!! S m = O ∨ (S m < P !!! S m)%nat)).
  { split; [lia|]. destruct (decide (S m = N)) as [->|?]; [by left|].
    right. destruct (Hpar (S m) ltac:(lia)). lia. }
  rewrite (decide_True _ _ Hlast).
  unfold frontier.
  rewrite (Zsum_ext _ _
             (fun k => (if decide ((1 <= k)%nat
                                   ∧ (P !!! k = O ∨ (S m < P !!! k)%nat))
                        then T k else 0)
                       + (if decide (P !!! k = S m) then T k else 0))).
  2:{ intros k Hk. destruct (decide (P !!! k = S m)) as [E|E].
      - assert (1 <= k)%nat by (apply Hcs in E; lia).
        rewrite decide_True by (split; [done | right; lia]).
        rewrite decide_False by lia. lia.
      - destruct (decide ((1 <= k)%nat
                          ∧ (P !!! k = O ∨ (m < P !!! k)%nat))) as [H1|H1].
        + rewrite decide_True by lia. lia.
        + rewrite decide_False by lia. lia. }
  rewrite Zsum_add. f_equal.
  rewrite (Zsum_pair _ c1 c2 (fun k => P !!! k = S m)) by (done || lia).
  assert (HT : ∀ c, (1 <= c < S m)%nat → P !!! c = S m →
                    2 * T c = T (S m)).
  { intros c Hc E. unfold T. rewrite (D_child c) by lia. rewrite E.
    assert (D (S m) <= N - S m)%nat as Hb.
    { destruct (D_sound (S m) ltac:(lia)) as [_ Hb]. done. }
    rewrite <- Z.pow_succ_r by lia. f_equal; lia. }
  pose proof (HT c1 Hc1 ltac:(apply Hcs; by left)).
  pose proof (HT c2 Hc2 ltac:(apply Hcs; by right)). lia.
Qed.

Lemma frontier_all (j m : nat) :
  (m + j = N)%nat → (SYMBOLS <= m)%nat →
  frontier m = 2 ^ Z.of_nat (SYMBOLS - 1).
Proof.
  revert m. induction j as [|j IH]; intros m Hm Hs.
  - replace m with N by lia. apply frontier_root.
  - rewrite frontier_step by lia. apply IH; lia.
Qed.

Lemma kraft_tree :
  Zsum SYMBOLS (fun i => 2 ^ (Z.of_nat (SYMBOLS - 1) - Z.of_nat (D (S i))))
  = 2 ^ Z.of_nat (SYMBOLS - 1).
Proof.
  pose proof SYMBOLS_eq as HS.
  rewrite <- (frontier_all (SYMBOLS - 1) SYMBOLS) by lia.
  unfold frontier. rewrite Zsum_shift.
  rewrite decide_False by lia.
  rewrite (Zsum_ext _ (fun i => 2 ^ (Z.of_nat (SYMBOLS - 1)
                                     - Z.of_nat (D (S i))))
                      (fun i => if decide ((1 <= S i)%nat
                                  ∧ (P !!! S i = O
                                     ∨ (SYMBOLS < P !!! S i)%nat))
                                then T (S i) else 0)); [lia|].
  intros i Hi. destruct shape as (Hroot & Hpar & _).
  destruct (Hpar (S i) ltac:(lia)).
  rewrite decide_True by lia. done.
Qed.

End Shape.

(** *** Lengths that passed the check are depths

    A depth of 256 or more would leave the 8-bit counter with a small
    value.  That cannot go unnoticed: the weights of the leaves add up to
    the weight of the root, and the leaves that deep are too few and too
    light to fill the gap that the other leaves leave. *)
Lemma wrapped_depths (d : nat → Z) :
  (∀ i, (i < SYMBOLS)%nat → 1 <= d i <= Z.of_nat (SYMBOLS - 1)) →
  Zsum SYMBOLS (fun i => 2 ^ (Z.of_nat (SYMBOLS - 1) - d i))
  = 2 ^ Z.of_nat (SYMBOLS - 1) →
  (∀ i, (i < SYMBOLS)%nat → u8 (d i) <= 15) →
  (∀ i, (i < SYMBOLS)%nat → d i <= 15)
  ∧ Zsum SYMBOLS (fun i => 2 ^ (15 - d i)) = 2 ^ 15.
Proof.
  pose proof SYMBOLS_eq as HS.
  replace (Z.of_nat (SYMBOLS - 1)) with 511 by lia.
  intros Hd Hk Hu.
  set (M := 2 ^ 496).
  set (q := fun i => if d i <=? 15 then 2 ^ (15 - d i) else 0).
  set (g := fun i => if d i <=? 15 then 0 else 2 ^ (511 - d i)).
  assert (HM : 0 < M) by (apply Z.pow_pos_nonneg; lia).
  assert (Hsplit : ∀ i, (i < SYMBOLS)%nat →
                        2 ^ (511 - d i) = M * q i + g i).
  { intros i Hi. unfold q, g, M. specialize (Hd i Hi).
    destruct (Z.leb_spec (d i) 15); [|lia].
    rewrite <- Z.pow_add_r by lia. rewrite Z.add_0_r. f_equal; lia. }
  assert (Hg : ∀ i, (i < SYMBOLS)%nat → 0 <= g i <= 2 ^ 255).
  { intros i Hi. unfold g. specialize (Hd i Hi). specialize (Hu i Hi).
    destruct (Z.leb_spec (d i) 15).
    - split; [lia|]. apply Z.pow_nonneg. lia.
    - assert (256 <= d i).
      { unfold u8 in Hu. change (2 ^ 8) with 256 in Hu.
        pose proof (Z.div_mod (d i) 256 ltac:(lia)).
        pose proof (Z.mod_pos_bound (d i) 256 ltac:(lia)).
        assert (d i / 256 = 0 ∨ 1 <= d i / 256) as [E|E] by
          (pose proof (Z.div_pos (d i) 256 ltac:(lia) ltac:(lia)); lia);
          lia. }
      split; [apply Z.pow_nonneg; lia|].
      apply Z.pow_le_mono_r; lia. }
  rewrite (Zsum_ext _ _ (fun i => M * q i + g i)) in Hk by done.
  rewrite Zsum_add, Zsum_mul in Hk.
  assert (HG : 0 <= Zsum SYMBOLS g < M).
  { split; [apply Zsum_nonneg; intros; by apply Hg|].
    apply Z.le_lt_trans with (Zsum SYMBOLS (fun _ => 2 ^ 255)).
    - apply Zsum_le. intros. by apply Hg.
    - rewrite Zsum_const, HS. unfold M.
      change (Z.of_nat 512) with (2 ^ 9). rewrite <- Z.pow_add_r by lia.
      apply Z.pow_lt_mono_r; lia. }
  assert (H511 : 2 ^ 511 = M * 2 ^ 15).
  { unfold M. rewrite <- Z.pow_add_r by lia. done. }
  rewrite H511 in Hk.
  assert (HQ : Zsum SYMBOLS q = 2 ^ 15) by nia.
  assert (HG0 : Zsum SYMBOLS g = 0) by nia.
  assert (Hall : ∀ i, (i < SYMBOLS)%nat → d i <= 15).
  { intros i Hi.
    pose proof (Zsum_pos SYMBOLS g i Hi
                  ltac:(intros; by apply Hg)) as Hle.
    rewrite HG0 in Hle. unfold g in Hle.
    destruct (Z.leb_spec (d i) 15); [done|].
    assert (0 < 2 ^ (511 - d i)).
    { apply Z.pow_pos_nonneg; [lia|]. specialize (Hd i Hi). lia. }
    lia. }
  split; [done|].
  rewrite <- HQ. apply Zsum_ext. intros i Hi. unfold q.
  specialize (Hall i Hi). destruct (Z.leb_spec (d i) 15); [done | lia].
Qed.

(** *** One pass and the loop around it *)

(** Lengths as a finished pass leaves them: every symbol has a length
    between 1 and 15, and the Kraft sum of the lengths is exactly 1. *)
Definition complete_lens (lens_ : list Z) : Prop :=
  length lens_ = SYMBOLS
  ∧ (∀ i, (i < SYMBOLS)%nat → 1 <= lens_ !!! i <= 15)
  ∧ Zsum SYMBOLS (fun i => 2 ^ (15 - lens_ !!! i)) = 2 ^ 15.

Definition weights_ok (w : list Z) : Prop :=
  w !!! O = 0 ∧ ∀ i, 0 <= w !!! i.

Lemma lens_loop_spec (parents_ : list nat) (lens_ : list Z) :
  length lens_ = SYMBOLS →
  let r := for_loop SYMBOLS 1 (lens_step parents_) (lens_, false) in
  length r.1 = SYMBOLS
  ∧ (∀ i, (i < SYMBOLS)%nat →
       r.1 !!! i = depth_loop (2 * SYMBOLS) parents_ (S i) 0)
  ∧ (r.2 = false → ∀ i, (i < SYMBOLS)%nat → r.1 !!! i <= 15).
Proof.
  intros Hlen.
  pose (Q := fun (k : nat) (s : list Z * bool) =>
               (k <= SYMBOLS + 1)%nat
               → length s.1 = SYMBOLS
                 ∧ (∀ i, (S i < k)%nat →
                      s.1 !!! i = depth_loop (2 * SYMBOLS) parents_ (S i) 0)
                 ∧ (s.2 = false → ∀ i, (S i < k)%nat → s.1 !!! i <= 15)).
  assert (HQ : Q (1 + SYMBOLS)%nat
                 (for_loop SYMBOLS 1 (lens_step parents_) (lens_, false))).
  { apply for_loop_ind.
    - intros _. cbn [fst snd]. split; [done|]. split; intros; lia.
    - intros k [l b] Hk HQk Hle. unfold Q in HQk. cbn [fst snd] in HQk.
      destruct (HQk ltac:(lia)) as (Hl & Hv & Hb).
      unfold lens_step. cbn [fst snd].
      assert (Ek : S (k - 1) = k) by lia.
      split; [by rewrite length_insert|]. split.
      + intros i Hi. destruct (decide (i = k - 1)%nat) as [->|Hne].
        * rewrite Ek. by rewrite list_lookup_total_insert_eq by lia.
        * rewrite list_lookup_total_insert_ne by lia. apply Hv. lia.
      + intros Hf. apply orb_false_iff in Hf as [Hj Hb'].
        apply Z.ltb_ge in Hj. change (Z.of_nat HUFF_BITS_MAX) with 15 in Hj.
        intros i Hi. destruct (decide (i = k - 1)%nat) as [->|Hne].
        * by rewrite list_lookup_total_insert_eq by lia.
        * rewrite list_lookup_total_insert_ne by lia. apply Hb; [done | lia]. }
  specialize (HQ ltac:(lia)).
  destruct (for_loop SYMBOLS 1 (lens_step parents_) (lens_, false)) as [l b].
  cbn [fst snd] in *. destruct HQ as (Hl & Hv & Hb).
  split; [done|]. split.
  - intros i Hi. apply Hv. lia.
  - intros Hf i Hi. apply Hb; [done | lia].
Qed.

Lemma lengths_pass_eq (weights_ : list Z) (lens_ : list Z) :
  lengths_pass weights_ lens_
  = (weights (build_tree SYMBOLS (initial_tree weights_)),
     (for_loop SYMBOLS 1
        (lens_step (parents (build_tree SYMBOLS (initial_tree weights_))))
        (lens_, false)).1,
     (for_loop SYMBOLS 1
        (lens_step (parents (build_tree SYMBOLS (initial_tree weights_))))
        (lens_, false)).2).
Proof. reflexivity. Qed.

Lemma lengths_pass_spec (weights_ : list Z) (lens_ : list Z)
  (w1 l1 : list Z) (too_long : bool) :
  weights_ok weights_ → length lens_ = SYMBOLS →
  lengths_pass weights_ lens_ = (w1, l1, too_long) →
  weights_ok w1 ∧ length l1 = SYMBOLS
  ∧ (too_long = false → complete_lens l1).
Proof.
  intros [Hw0 Hnn] Hlen E. rewrite lengths_pass_eq in E.
  destruct (build_tree_shape weights_ Hnn Hw0) as (Hshape & Hw0' & Hnn').
  generalize dependent (build_tree SYMBOLS (initial_tree weights_)).
  intros st E Hshape Hw0' Hnn'.
  pose proof (lens_loop_spec (parents st) lens_ Hlen) as Hl.
  destruct (for_loop SYMBOLS 1 (lens_step (parents st)) (lens_, false))
    as [l b].
  cbn [fst snd] in Hl, E. destruct Hl as (Hll & Hv & Hb).
  injection E as <- <- <-.
  split; [done|]. split; [done|]. intros ->. specialize (Hb eq_refl).
  set (d := fun i => Z.of_nat (D (parents st) (S i))).
  assert (Hlu : ∀ i, (i < SYMBOLS)%nat → l !!! i = u8 (d i)).
  { intros i Hi. rewrite (Hv i Hi). apply depth_loop_from_zero. }
  assert (Hdr : ∀ i, (i < SYMBOLS)%nat → 1 <= d i <= Z.of_nat (SYMBOLS - 1)).
  { intros i Hi. unfold d.
    pose proof (D_leaf (parents st) Hshape (S i) ltac:(lia)). lia. }
  destruct (wrapped_depths d Hdr (kraft_tree (parents st) Hshape))
    as [Hsmall Hkraft].
  { intros i Hi. rewrite <- Hlu by done. by apply Hb. }
  assert (Hld : ∀ i, (i < SYMBOLS)%nat → l !!! i = d i).
  { intros i Hi. rewrite Hlu by done. unfold u8.
    apply Z.mod_small. specialize (Hdr i Hi). specialize (Hsmall i Hi). lia. }
  split; [done|]. split.
  - intros i Hi. rewrite Hld by done.
    specialize (Hdr i Hi). specialize (Hsmall i Hi). lia.
  - rewrite <- Hkraft. apply Zsum_ext. intros i Hi. by rewrite Hld.
Qed.

Lemma rescale_weights_ok (w : list Z) :
  weights_ok w → weights_ok (rescale_weights w).
Proof.
  intros Hw. unfold rescale_weights.
  pose (Q := fun (k : nat) (w : list Z) => weights_ok w).
  change (Q (1 + SYMBOLS)%nat
            (for_loop SYMBOLS 1
               (fun i w => <[i := u32 (Z.shiftl (1 + Z.shiftr (w !!! i) 9) 8)]> w)
               w)).
  apply for_loop_ind; [done|].
  intros k t Hk [H0 Hnn]. split.
  - by rewrite list_lookup_total_insert_ne by lia.
  - intros i. rewrite list_lookup_total_insert.
    destruct (decide _); [|done]. unfold u32. apply Z.mod_pos_bound. lia.
Qed.

Lemma initial_weights_ok (symbol_counts : list Z) :
  weights_ok (initial_weights symbol_counts).
Proof.
  unfold initial_weights.
  set (body := fun (i : nat) (w : list Z) =>
                 <[(i + 1)%nat := u32 (Z.shiftl
                     (if symbol_counts !!! i =? 0 then 1
                      else symbol_counts !!! i) 8)]> w).
  pose (Q := fun (k : nat) (w : list Z) => weights_ok w).
  change (Q (0 + SYMBOLS)%nat
            (for_loop SYMBOLS 0 body (replicate (2 * SYMBOLS) 0))).
  apply for_loop_ind.
  - split.
    + rewrite lookup_total_replicate_2; [done|]. pose proof SYMBOLS_eq. lia.
    + intros i. rewrite list_lookup_total_alt.
      destruct (replicate _ _ !! i) as [x|] eqn:E; simpl; [|lia].
      apply lookup_replicate in E as [-> _]. lia.
  - intros k t Hk [H0 Hnn]. unfold body. split.
    + by rewrite list_lookup_total_insert_ne by lia.
    + intros i. rewrite list_lookup_total_insert.
      destruct (decide _); [|done]. unfold u32. apply Z.mod_pos_bound. lia.
Qed.

Lemma lengths_loop_spec (fuel : nat) (weights_ : list Z) (lens_ l : list Z) :
  weights_ok weights_ → length lens_ = SYMBOLS →
  lengths_loop fuel weights_ lens_ = Some l → complete_lens l.
Proof.
  revert weights_ lens_. induction fuel as [|f IH]; intros w l0 Hw Hl0 Hr;
    [done|].
  cbn [lengths_loop] in Hr.
  destruct (lengths_pass w l0) as [[w1 l1] b] eqn:E.
  destruct (lengths_pass_spec w l0 w1 l1 b Hw Hl0 E) as (Hw1 & Hl1 & Hc).
  destruct b.
  - apply (IH (rescale_weights w1) l1); [by apply rescale_weights_ok|done..].
  - injection Hr as <-. by apply Hc.
Qed.

(** The Kraft sum of complete lengths in the form the code assignment
    uses. *)
Lemma complete_lens_kraft15 (l : list Z) :
  complete_lens l → kraft15 (len_of l) SYMBOLS = 2 ^ 15.
Proof.
  intros (Hlen & Hr & Hk). rewrite <- Hk. unfold kraft15.
  apply Zsum_ext. intros i Hi. unfold len_of. specialize (Hr i Hi).
  destruct (Z.ltb_spec 0 (l !!! i)); [done | lia].
Qed.

Lemma CreateCodes_correct (fuel : nat) (ctx : HuffmanEncoder)
  (symbol_counts : list Z) (enc : HuffmanEncoder) :
  length (lens ctx) = SYMBOLS →
  CreateCodes fuel ctx symbol_counts = Some enc →
  complete_lens (lens enc)
  ∧ (∀ i, (i < SYMBOLS)%nat → 0 <= codes enc !!! i < 2 ^ (lens enc !!! i))
  ∧ (∀ i j, (i < SYMBOLS)%nat → (j < SYMBOLS)%nat → i ≠ j →
       lens enc !!! i <= lens enc !!! j →
       Z.shiftr (codes enc !!! j) (lens enc !!! j - lens enc !!! i)
       ≠ codes enc !!! i).
Proof.
  intros Hlen Hr. unfold CreateCodes in Hr.
  destruct (lengths_loop fuel (initial_weights symbol_counts) (lens ctx))
    as [l|] eqn:E; [|done].
  injection Hr as <-. cbn [codes lens].
  pose proof (lengths_loop_spec fuel _ _ l
                (initial_weights_ok symbol_counts) Hlen E) as Hc.
  split; [done|].
  pose proof (complete_lens_kraft15 l Hc) as Hk.
  destruct Hc as (Hl & Hrng & _).
  pose proof (assign_codes_exact l (replicate SYMBOLS 0)
                ltac:(apply length_replicate) Hrng ltac:(lia)) as He.
  assert (Hr0 : ∀ i, (i < SYMBOLS)%nat → 0 <= len_of l i <= 15).
  { intros k Hk'. specialize (Hrng k Hk'). unfold len_of. lia. }
  split.
  - intros i Hi. destruct (He i Hi) as [-> ?]. done.
  - intros i j Hi Hj Hne Hle.
    destruct (He i Hi) as [-> _]. destruct (He j Hj) as [-> _].
    pose proof (Hrng i Hi). pose proof (Hrng j Hj).
    apply (canon_prefix_free (len_of l) SYMBOLS Hr0 i j Hi Hj Hne);
      unfold len_of; lia.
Qed.

(** One pass of [CreateCodes] over weights that are not negative, with
    weight 0 for node 0: the parents array describes one binary tree on the
    nodes [1 .. 2 * SYMBOLS - 1] (the last node is the root, every other
    node has a parent with a larger number among the inner nodes, every
    inner node has exactly two children); the walk from leaf [i + 1] to the
    root takes between 1 and [SYMBOLS - 1] links, and the length stored for
    symbol [i] is that number modulo 256; if the pass does not report a
    length as too long, no stored length exceeds 15. *)
Theorem lengths_pass_depths (weights_ lens_ w1 l1 : list Z)
  (too_long : bool) :
  weights_ !!! O = 0 → (∀ i, 0 <= weights_ !!! i) →
  length lens_ = SYMBOLS →
  lengths_pass weights_ lens_ = (w1, l1, too_long) →
  tree_shape (parents (build_tree SYMBOLS (initial_tree weights_)))
  ∧ (∀ i, (i < SYMBOLS)%nat →
       ∃ d, depth_in (parents (build_tree SYMBOLS (initial_tree weights_)))
                     (S i) d
            ∧ (1 <= d <= SYMBOLS - 1)%nat ∧ l1 !!! i = u8 (Z.of_nat d))
  ∧ (too_long = false → ∀ i, (i < SYMBOLS)%nat → l1 !!! i <= 15).
Proof.
  intros Hw0 Hnn Hlen E. rewrite lengths_pass_eq in E.
  destruct (build_tree_shape weights_ Hnn Hw0) as (Hshape & _).
  generalize dependent (build_tree SYMBOLS (initial_tree weights_)).
  intros st E Hshape.
  pose proof (lens_loop_spec (parents st) lens_ Hlen) as Hl.
  destruct (for_loop SYMBOLS 1 (lens_step (parents st)) (lens_, false))
    as [l b].
  cbn [fst snd] in Hl, E. destruct Hl as (Hll & Hv & Hb).
  injection E as <- <- <-.
  split; [done|]. split; [|done].
  intros i Hi. exists (D (parents st) (S i)).
  pose proof SYMBOLS_eq.
  destruct (D_sound (parents st) Hshape (S i) ltac:(lia)) as [Hd _].
  split; [done|]. split; [apply (D_leaf (parents st) Hshape); lia|].
  rewrite (Hv i Hi). apply depth_loop_from_zero.
Qed.

(** Whenever [CreateCodes] returns, every one of the [SYMBOLS] symbols has
    a length between 1 and 15, the Kraft sum of the lengths is exactly 1,
    every code fits its length, and no code is a prefix of the code of
    another symbol. *)
Theorem CreateCodes_prefix_code (fuel : nat) (ctx : HuffmanEncoder)
  (symbol_counts : list Z) (enc : HuffmanEncoder) :
  length (lens ctx) = SYMBOLS →
  CreateCodes fuel ctx symbol_counts = Some enc →
  length (lens enc) = SYMBOLS
  ∧ (∀ i, (i < SYMBOLS)%nat → 1 <= lens enc !!! i <= 15)
  ∧ Zsum SYMBOLS (fun i => 2 ^ (15 - lens enc !!! i)) = 2 ^ 15
  ∧ (∀ i, (i < SYMBOLS)%nat → 0 <= codes enc !!! i < 2 ^ (lens enc !!! i))
  ∧ (∀ i j, (i < SYMBOLS)%nat → (j < SYMBOLS)%nat → i ≠ j →
       lens enc !!! i <= lens enc !!! j →
       Z.shiftr (codes enc !!! j) (lens enc !!! j - lens enc !!! i)
       ≠ codes enc !!! i).
Proof.
  intros Hlen Hr.
  destruct (CreateCodes_correct fuel ctx symbol_counts enc Hlen Hr)
    as ((H1 & H2 & H3) & H4 & H5).
  done.
Qed.

Lemma triple_eta {A B C : Type} (p : A * B * C) : p = (p.1.1, p.1.2, p.2).
Proof. by destruct p as [[a b] c]. Qed.

Lemma zero_weights_nonneg (n i : nat) : 0 <= replicate n 0 !!! i.
Proof.
  rewrite list_lookup_total_alt.
  destruct (replicate _ _ !! i) as [x|] eqn:E; simpl; [|lia].
  apply lookup_replicate in E as [-> _]. lia.
Qed.

(** An instance: all weights zero. *)
Lemma lengths_pass_depths_witness :
  tree_shape (parents (build_tree SYMBOLS
                         (initial_tree (replicate (2 * SYMBOLS) 0)))).
Proof.
  refine (proj1 (lengths_pass_depths (replicate (2 * SYMBOLS) 0)
                   (replicate SYMBOLS 0) _ _ _ _ _ _
                   (triple_eta (lengths_pass (replicate (2 * SYMBOLS) 0)
                                             (replicate SYMBOLS 0))))).
  - apply lookup_total_replicate_2. pose proof SYMBOLS_eq. lia.
  - apply zero_weights_nonneg.
  - apply length_replicate.
Defined.

(** An instance: the histogram in which no symbol occurs. *)
Lemma CreateCodes_prefix_code_witness :
  length (lens (default {| codes := []; lens := [] |}
                  (CreateCodes 1
                     {| codes := replicate SYMBOLS 0;
                        lens := replicate SYMBOLS 0 |}
                     (replicate SYMBOLS 0))))
  = SYMBOLS.
Proof.
  refine (proj1 (CreateCodes_prefix_code 1
                   {| codes := replicate SYMBOLS 0;
                      lens := replicate SYMBOLS 0 |}
                   (replicate SYMBOLS 0) _ _ _)).
  - apply length_replicate.
  - apply EntryPoint.option_eta. vm_compute. reflexivity.
Defined.

End LengthFacts.

(** ** sorting.h *)

From stdpp Require Import sorting.

Module SortingFacts.

Import Sorting.

Local Open Scope nat_scope.

Section WithKeys.

Variable conditions : list Z.

Local Abbreviation key := (fun s : nat => conditions !!! s).

(** The order the sorts establish. *)
Definition key_le (s t : nat) : Prop := (key s <= key t)%Z.

(** The inner loop moves the elements [a2], whose keys exceed [cond], one
    slot up and stops at the first element from the right that does not. *)
Lemma insertion_sort_shift_spec (cond : Z) (pre a1 : list nat) :
  (∀ s, last a1 = Some s → (key s <= cond)%Z) →
  ∀ a2 y rest,
  Forall (fun s => (cond < key s)%Z) a2 →
  insertion_sort_shift conditions cond (length pre)
    (length a1 + length a2) (pre ++ a1 ++ a2 ++ y :: rest)
  = (pre ++ a1 ++ hd y a2 :: a2 ++ rest, length a1).
Proof.
  intros Hlast a2. induction a2 as [|w a2 IH] using rev_ind; intros y rest Ha2.
  - cbn [app length hd]. rewrite Nat.add_0_r.
    destruct a1 as [|s a1 _] using rev_ind; [done|].
    rewrite length_app. cbn [length]. rewrite Nat.add_1_r.
    cbn [insertion_sort_shift].
    replace (length pre + length a1) with (length (pre ++ a1))
      by (rewrite length_app; lia).
    rewrite <- (assoc_L (++) a1 [s]), (assoc_L (++) pre a1).
    cbn [app]. rewrite list_lookup_total_middle by done.
    specialize (Hlast s (last_snoc _ _)).
    replace (cond <? conditions !!! s)%Z with false
      by (symmetry; apply Z.ltb_ge; lia). done.
  - apply Forall_app in Ha2 as [Ha2 Hw]. inversion Hw as [|? ? Hw' _]; subst.
    rewrite length_app. cbn [length].
    replace (length a1 + (length a2 + 1)) with (S (length a1 + length a2))
      by lia.
    cbn [insertion_sort_shift].
    assert (E : pre ++ a1 ++ (a2 ++ [w]) ++ y :: rest
                = (pre ++ a1 ++ a2) ++ w :: y :: rest).
    { by rewrite <- !(assoc_L (++)). }
    rewrite E.
    assert (Hlen : length pre + (length a1 + length a2)
                   = length (pre ++ a1 ++ a2))
      by (rewrite !length_app; lia).
    rewrite Hlen, list_lookup_total_middle by done.
    replace (cond <? conditions !!! w)%Z with true
      by (symmetry; apply Z.ltb_lt; lia).
    replace (length pre + S (length a1 + length a2))
      with (length (pre ++ a1 ++ a2) + 1) by lia.
    rewrite insert_app_r. cbn [insert list_insert].
    rewrite <- !(assoc_L (++)).
    rewrite (IH w (w :: rest) Ha2).
    f_equal. f_equal. f_equal.
    destruct a2; reflexivity.
Qed.

(** Every list splits into a part ending with a key of at most [cond]
    and a run of keys above [cond]. *)
Lemma split_run (cond : Z) (b : list nat) :
  ∃ a1 a2, b = a1 ++ a2
    ∧ Forall (fun s => (cond < key s)%Z) a2
    ∧ (∀ s, last a1 = Some s → (key s <= cond)%Z).
Proof.
  induction b as [|s b IH] using rev_ind.
  { exists [], []. repeat split; [constructor | done]. }
  destruct (Z.ltb_spec cond (key s)) as [Hlt | Hge].
  - destruct IH as (a1 & a2 & -> & H1 & H2).
    exists a1, (a2 ++ [s]). rewrite (assoc_L (++)). split; [done|].
    split; [|done]. apply Forall_app. split; [done|]. by constructor.
  - exists (b ++ [s]), []. rewrite app_nil_r. split; [done|].
    split; [constructor|]. intros t. rewrite last_snoc. by intros [= <-].
Qed.

(** One pass of the outer loop inserts the element at index [i] into the
    sorted part before it. *)
Lemma insertion_sort_step_spec (pre b : list nat) (x : nat) (rest : list nat) :
  ∃ a1 a2, b = a1 ++ a2
    ∧ Forall (fun s => (key x < key s)%Z) a2
    ∧ (∀ s, last a1 = Some s → (key s <= key x)%Z)
    ∧ insertion_sort_step conditions (length pre) (length b)
        (pre ++ b ++ x :: rest)
      = pre ++ (a1 ++ x :: a2) ++ rest.
Proof.
  destruct (split_run (key x) b) as (a1 & a2 & -> & H2 & H1).
  exists a1, a2. split; [done|]. split; [done|]. split; [done|].
  unfold insertion_sort_step.
  assert (Hx : (pre ++ (a1 ++ a2) ++ x :: rest)
               !!! (length pre + length (a1 ++ a2)) = x).
  { rewrite (assoc_L (++) pre). apply list_lookup_total_middle.
    rewrite !length_app. lia. }
  rewrite Hx. rewrite length_app.
  rewrite <- (assoc_L (++) a1 a2).
  rewrite (insertion_sort_shift_spec (key x) pre a1 H1 a2 x rest H2).
  rewrite (assoc_L (++) pre a1).
  replace (length pre + length a1) with (length (pre ++ a1) + 0)
    by (rewrite length_app; lia).
  rewrite insert_app_r. cbn [insert list_insert].
  by rewrite <- !(assoc_L (++)).
Qed.

Lemma key_le_insert (a1 a2 : list nat) (x : nat) :
  StronglySorted key_le (a1 ++ a2) →
  Forall (fun s => (key x < key s)%Z) a2 →
  (∀ s, last a1 = Some s → (key s <= key x)%Z) →
  StronglySorted key_le (a1 ++ x :: a2).
Proof.
  intros Hs H2 H1.
  apply StronglySorted_app in Hs as (H12 & Hs1 & Hs2).
  assert (Ha1 : ∀ s, s ∈ a1 → key_le s x).
  { intros s Hs. destruct a1 as [|t a1 _] using rev_ind; [by inversion Hs|].
    specialize (H1 t (last_snoc _ _)).
    apply elem_of_app in Hs as [Hs | Hs].
    - apply StronglySorted_app in Hs1 as (H' & _ & _).
      specialize (H' s t Hs ltac:(by apply list_elem_of_singleton)).
      unfold key_le in *. lia.
    - apply list_elem_of_singleton in Hs as ->. done. }
  apply StronglySorted_app_2.
  - intros s t Hs Ht. apply elem_of_cons in Ht as [-> | Ht].
    + by apply Ha1.
    + by apply H12.
  - done.
  - apply SSorted_cons; [done|].
    rewrite Forall_forall in *. intros t Ht. specialize (H2 t Ht).
    unfold key_le. lia.
Qed.

(** [l'] keeps the entries of [l] that share a key in their order. *)
Definition same_key_order (l' l : list nat) : Prop :=
  ∀ v : Z, filter (fun s => key s = v) l' = filter (fun s => key s = v) l.

Lemma filter_none (P : nat → Prop) `{∀ s, Decision (P s)} (l : list nat) :
  Forall (fun s => ¬ P s) l → filter P l = [].
Proof.
  induction 1 as [|s l Hs Hl IH]; [done|].
  by rewrite filter_cons_False.
Qed.

Lemma same_key_order_insert (a1 a2 : list nat) (x : nat) :
  Forall (fun s => (key x < key s)%Z) a2 →
  same_key_order (a1 ++ x :: a2) ((a1 ++ a2) ++ [x]).
Proof.
  intros H2 v. rewrite !filter_app, !filter_cons, filter_nil.
  destruct (decide (key x = v)) as [E | E].
  - rewrite !decide_True by done.
    rewrite (filter_none _ a2); [by rewrite !app_nil_r|].
    rewrite Forall_forall in *. intros s Hs. specialize (H2 s Hs). lia.
  - rewrite !decide_False by done. by rewrite !app_nil_r.
Qed.

(** The outer loop after the elements below [i] have been inserted. *)
Definition insertion_inv (pre seg post : list nat) (i : nat)
  (syms : list nat) : Prop :=
  ∃ b, syms = pre ++ b ++ drop i seg ++ post
    ∧ b ≡ₚ take i seg
    ∧ StronglySorted key_le b
    ∧ same_key_order b (take i seg).

Lemma insertion_sort_step_inv (pre seg post : list nat) (i : nat)
  (syms : list nat) :
  i < length seg →
  insertion_inv pre seg post i syms →
  insertion_inv pre seg post (S i)
    (insertion_sort_step conditions (length pre) i syms).
Proof.
  intros Hi (b & -> & Hp & Hs & Hk).
  assert (Hlen : length b = i).
  { rewrite Hp, length_take. lia. }
  destruct (lookup_lt_is_Some_2 seg i Hi) as [x Hx].
  rewrite (drop_S seg x i Hx). rewrite <- (app_comm_cons _ _ x).
  destruct (insertion_sort_step_spec pre b x (drop (S i) seg ++ post))
    as (a1 & a2 & Hb & H2 & H1 & E).
  rewrite Hlen in E. rewrite E. subst b.
  exists (a1 ++ x :: a2). split; [done|]. split.
  - rewrite (take_S_r seg i x Hx), <- Hp.
    rewrite <- Permutation_middle, Permutation_cons_append. done.
  - split; [by apply key_le_insert|].
    intros v. rewrite (same_key_order_insert a1 a2 x H2 v).
    rewrite (take_S_r seg i x Hx).
    rewrite (filter_app _ (a1 ++ a2)), (filter_app _ (take i seg)).
    by rewrite (Hk v).
Qed.

End WithKeys.

Lemma insertion_sort_correct (conditions : list Z) (pre seg post : list nat) :
  ∃ seg',
    insertion_sort conditions (length pre) (length seg) (pre ++ seg ++ post)
    = pre ++ seg' ++ post
    ∧ seg' ≡ₚ seg
    ∧ StronglySorted (key_le conditions) seg'
    ∧ same_key_order conditions seg' seg.
Proof.
  unfold insertion_sort.
  destruct seg as [|x seg].
  { exists []. cbn. split; [done|]. split; [done|]. split; [constructor|done]. }
  cbn [length]. replace (S (length seg) - 1) with (length seg) by lia.
  pose proof (for_loop_ind (insertion_inv conditions pre (x :: seg) post)
                (length seg) 1 (insertion_sort_step conditions (length pre))
                (pre ++ (x :: seg) ++ post)) as H.
  destruct H as (b & -> & Hp & Hs & Hk).
  - exists [x]. cbn. split; [done|]. split; [done|].
    split; [apply SSorted_cons; constructor | done].
  - intros k t Hk Ht. apply insertion_sort_step_inv; [cbn [length]; lia | done].
  - exists b. replace (1 + length seg) with (length (x :: seg)) in * by done.
    rewrite drop_all, take_ge in * by done. cbn [app] in *. done.
Qed.

(** [insertion_sort] on the [length seg] entries of [syms] that start at
    index [length pre]: these entries are rearranged into a permutation
    of themselves in which the keys [conditions[s]] never decrease and
    entries with equal keys keep their order (the sort is stable); the
    entries before and after them stay as they are. *)
Theorem insertion_sort_sorted (conditions : list Z) (pre seg post : list nat) :
  ∃ seg',
    insertion_sort conditions (length pre) (length seg) (pre ++ seg ++ post)
    = pre ++ seg' ++ post
    ∧ seg' ≡ₚ seg
    ∧ StronglySorted (key_le conditions) seg'
    ∧ same_key_order conditions seg' seg.
Proof. apply insertion_sort_correct. Qed.

(** [memcpy] copies [n] consecutive entries. *)
Lemma memcpy_spec (dst src : list nat) (d s : nat) : ∀ n,
  d + n <= length dst → s + n <= length src →
  memcpy dst d src s n = take d dst ++ take n (drop s src) ++ drop (d + n) dst.
Proof.
  unfold memcpy. induction n as [|n IH]; intros Hd Hs.
  { cbn [for_loop]. rewrite Nat.add_0_r, take_0. cbn [app].
    by rewrite take_drop. }
  rewrite for_loop_S_r, IH by lia. cbn [Nat.add].
  destruct (lookup_lt_is_Some_2 src (s + n) ltac:(lia)) as [x Hx].
  rewrite (list_lookup_total_correct _ _ _ Hx).
  assert (Hl : length (take d dst ++ take n (drop s src)) = d + n).
  { rewrite length_app, !length_take, length_drop. lia. }
  rewrite (assoc_L (++)). rewrite <- Hl at 1.
  replace (length (take d dst ++ take n (drop s src)))
    with (length (take d dst ++ take n (drop s src)) + 0) at 1 by lia.
  rewrite insert_app_r.
  destruct (drop (d + n) dst) as [|y tl] eqn:E.
  { apply (f_equal length) in E. rewrite length_drop in E. cbn in E. lia. }
  cbn [insert list_insert].
  assert (drop (d + S n) dst = tl) as ->.
  { replace (d + S n) with ((d + n) + 1) by lia.
    rewrite <- drop_drop, E. done. }
  rewrite (take_S_r (drop s src) n x) by (by rewrite lookup_drop).
  by rewrite <- !(assoc_L (++)).
Qed.

Section Merge.

Variable conditions : list Z.

Local Abbreviation key := (fun s : nat => conditions !!! s).
Local Abbreviation sorted := (StronglySorted (key_le conditions)).
Local Abbreviation keyed v := (filter (fun s : nat => conditions !!! s = v)).

Lemma sorted_take_drop (l : list nat) (n : nat) (x y : nat) :
  sorted l → x ∈ take n l → y ∈ drop n l → (key x <= key y)%Z.
Proof.
  intros Hs Hx Hy. rewrite <- (take_drop n l) in Hs.
  exact (StronglySorted_app_1_elem_of _ _ _ x y Hs Hx Hy).
Qed.

Lemma elem_of_drop_S (l : list nat) (n : nat) (x : nat) :
  x ∈ drop (S n) l → x ∈ drop n l.
Proof.
  replace (S n) with (n + 1) by lia. rewrite <- drop_drop.
  destruct (drop n l) as [|y tl]; [done|]. cbn. rewrite drop_0.
  apply list_elem_of_further.
Qed.

Lemma elem_of_drop_lookup (l : list nat) (n : nat) (x : nat) :
  l !! n = Some x → x ∈ drop n l.
Proof. intros H. rewrite (drop_S l x n H). apply list_elem_of_here. Qed.

Lemma elem_of_take_S (l : list nat) (n : nat) (x u : nat) :
  l !! n = Some x → u ∈ take (S n) l → u ∈ take n l ∨ u = x.
Proof.
  intros H. rewrite (take_S_r l n x H), elem_of_app, list_elem_of_singleton.
  done.
Qed.

Lemma sorted_snoc (out : list nat) (z : nat) :
  sorted out → (∀ u, u ∈ out → (key u <= key z)%Z) → sorted (out ++ [z]).
Proof.
  intros Hs Hz. apply StronglySorted_app_2; [|done|].
  - intros u t Hu Ht. apply list_elem_of_singleton in Ht as ->. by apply Hz.
  - apply SSorted_cons; constructor.
Qed.

Variables pre post tp tq l1 l2 : list nat.
Hypothesis tp_length : length tp = length pre.
Hypothesis l1_sorted : sorted l1.
Hypothesis l2_sorted : sorted l2.

Local Abbreviation o := (length pre).
Local Abbreviation m := (length l1).
Local Abbreviation len := (length l1 + length l2).
Local Abbreviation temp := (tp ++ l1 ++ l2 ++ tq).

(** The merging loop after [j] entries of the first run and [k - m] of
    the second have been moved to the front of the segment. *)
Definition merge_inv (st : list nat * nat * nat * nat) : Prop :=
  let '(syms, i, j, k) := st in
  ∃ out junk k',
    k = m + k' ∧ i = j + k' ∧ j <= m ∧ k' <= length l2
    ∧ syms = pre ++ out ++ junk ++ post
    ∧ length out = i ∧ length junk = len - i
    ∧ out ≡ₚ take j l1 ++ take k' l2
    ∧ sorted out
    ∧ (∀ v, keyed v out = keyed v (take j l1) ++ keyed v (take k' l2))
    ∧ (∀ x y, x ∈ take j l1 → y ∈ drop k' l2 → (key x <= key y)%Z)
    ∧ (∀ y x, y ∈ take k' l2 → x ∈ drop j l1 → (key y < key x)%Z).

Lemma temp_lookup_l (j : nat) (x : nat) :
  l1 !! j = Some x → temp !!! (o + j) = x.
Proof.
  intros H. apply list_lookup_total_correct.
  rewrite <- tp_length, lookup_app_r by lia.
  replace (length tp + j - length tp) with j by lia.
  by rewrite lookup_app_l by (by eapply lookup_lt_Some).
Qed.

Lemma temp_lookup_r (k' : nat) (y : nat) :
  l2 !! k' = Some y → temp !!! (o + (m + k')) = y.
Proof.
  intros H. apply list_lookup_total_correct.
  rewrite <- tp_length, lookup_app_r by lia.
  replace (length tp + (m + k') - length tp) with (m + k') by lia.
  rewrite lookup_app_r by lia.
  replace (m + k' - m) with k' by lia.
  by rewrite lookup_app_l by (by eapply lookup_lt_Some).
Qed.

Lemma store_next (out junk : list nat) (z : nat) :
  junk ≠ [] →
  ∃ junk', <[o + length out := z]> (pre ++ out ++ junk ++ post)
           = pre ++ (out ++ [z]) ++ junk' ++ post
         ∧ length junk = S (length junk').
Proof.
  intros Hj. destruct junk as [|w junk']; [done|]. exists junk'.
  split; [|done].
  rewrite (assoc_L (++) pre out).
  replace (o + length out) with (length (pre ++ out) + 0)
    by (rewrite length_app; lia).
  rewrite insert_app_r. cbn [app insert list_insert].
  by rewrite <- !(assoc_L (++)).
Qed.

Lemma merge_loop_inv : ∀ fuel syms i j k,
  merge_inv (syms, i, j, k) →
  (m - j) + (len - k) <= fuel →
  let r := merge_loop fuel conditions temp o m len syms i j k in
  merge_inv r ∧ (r.1.2 = m ∨ r.2 = len).
Proof.
  induction fuel as [|fuel IH]; intros syms i j k Hinv Hf.
  { cbn [merge_loop]. split; [done|]. cbn [fst snd].
    destruct Hinv as (out & junk & k' & -> & -> & Hj & Hk & _). lia. }
  cbn [merge_loop].
  destruct ((j <? m) && (k <? len)) eqn:Hc.
  2:{ split; [done|]. cbn [fst snd].
      destruct Hinv as (out & junk & k' & -> & -> & Hj & Hk & _).
      apply andb_false_iff in Hc as [Hc | Hc];
        [apply Nat.ltb_ge in Hc | apply Nat.ltb_ge in Hc]; lia. }
  apply andb_true_iff in Hc as [Hjm Hkl].
  apply Nat.ltb_lt in Hjm, Hkl.
  destruct Hinv as (out & junk & k' & -> & -> & Hj & Hk & -> & Hlo & Hlj
                    & Hp & Hs & Hst & HA & HB).
  destruct (lookup_lt_is_Some_2 l1 j Hjm) as [x Hx].
  destruct (lookup_lt_is_Some_2 l2 k' ltac:(lia)) as [y Hy].
  rewrite (temp_lookup_l j x Hx), (temp_lookup_r k' y Hy).
  assert (Hjunk : junk ≠ []).
  { intros ->. cbn in Hlj. lia. }
  assert (Hout : ∀ u, u ∈ out → u ∈ take j l1 ∨ u ∈ take k' l2).
  { intros u Hu. rewrite Hp in Hu. by apply elem_of_app in Hu. }
  rewrite <- Hlo.
  destruct (Z.ltb_spec (key y) (key x)) as [Hlt | Hge].
  - destruct (store_next out junk y Hjunk) as (junk' & -> & Hlj').
    apply IH; [|lia].
    exists (out ++ [y]), junk', (S k').
    split; [lia|]. split; [lia|]. split; [lia|]. split; [lia|].
    split; [done|]. split; [rewrite length_app; cbn; lia|].
    split; [lia|]. split.
    { rewrite (take_S_r l2 k' y Hy), Hp. by rewrite (assoc_L (++)). }
    split.
    { apply sorted_snoc; [done|]. intros u Hu.
      destruct (Hout u Hu) as [H1 | H2].
      - apply HA; [done|]. by apply elem_of_drop_lookup.
      - apply (sorted_take_drop l2 k'); [done | done|].
        by apply elem_of_drop_lookup. }
    split.
    { intros v. rewrite filter_app, Hst, (take_S_r l2 k' y Hy), filter_app.
      by rewrite (assoc_L (++)). }
    split.
    { intros u t Hu Ht. apply HA; [done|]. by apply elem_of_drop_S. }
    { intros u t Hu Ht. destruct (elem_of_take_S l2 k' y u Hy Hu) as [H1 | ->].
      - by apply HB.
      - assert ((key x <= key t)%Z); [|cbv beta in *; lia].
        destruct (decide (t = x)) as [-> | Hne]; [cbv beta; lia|].
        rewrite (drop_S l1 x j Hx) in Ht.
        apply elem_of_cons in Ht as [-> | Ht]; [done|].
        apply (sorted_take_drop l1 (S j)); [done | | done].
        rewrite (take_S_r l1 j x Hx). apply elem_of_app. right.
        by apply list_elem_of_singleton. }
  - destruct (store_next out junk x Hjunk) as (junk' & -> & Hlj').
    apply IH; [|lia].
    exists (out ++ [x]), junk', k'.
    split; [lia|]. split; [lia|]. split; [lia|]. split; [lia|].
    split; [done|]. split; [rewrite length_app; cbn; lia|].
    split; [lia|]. split.
    { rewrite (take_S_r l1 j x Hx), Hp.
      rewrite <- !(assoc_L (++)). apply Permutation_app_head.
      apply Permutation_app_comm. }
    split.
    { apply sorted_snoc; [done|]. intros u Hu.
      destruct (Hout u Hu) as [H1 | H2].
      - apply (sorted_take_drop l1 j); [done | done|].
        by apply elem_of_drop_lookup.
      - assert ((key u < key x)%Z); [|cbv beta in *; lia].
        apply HB; [done|]. by apply elem_of_drop_lookup. }
    split.
    { intros v. rewrite filter_app, Hst, (take_S_r l1 j x Hx), filter_app.
      rewrite <- !(assoc_L (++)). f_equal.
      rewrite !filter_cons, filter_nil.
      destruct (decide (key x = v)) as [E | E].
      - rewrite !decide_True by done.
        rewrite (filter_none _ (take k' l2)); [done|].
        apply Forall_forall. intros u Hu.
        assert ((key u < key x)%Z); [|cbv beta in *; lia].
        apply HB; [done|]. by apply elem_of_drop_lookup.
      - rewrite !decide_False by done. by rewrite app_nil_r. }
    split.
    { intros u t Hu Ht. destruct (elem_of_take_S l1 j x u Hx Hu) as [H1 | ->].
      - by apply HA.
      - assert ((key y <= key t)%Z); [|cbv beta in *; lia].
        rewrite (drop_S l2 y k' Hy) in Ht.
        apply elem_of_cons in Ht as [-> | Ht]; [done|].
        apply (sorted_take_drop l2 (S k')); [done | | done].
        rewrite (take_S_r l2 k' y Hy). apply elem_of_app. right.
        by apply list_elem_of_singleton. }
    { intros u t Hu Ht. apply HB; [done|]. by apply elem_of_drop_S. }
Qed.

(** What the loop and the copy of the remaining run leave behind. *)
Lemma merge_result (out : list nat) (j k' : nat) :
  j <= m → k' <= length l2 → (j = m ∨ k' = length l2) →
  out ≡ₚ take j l1 ++ take k' l2 →
  sorted out →
  (∀ v, keyed v out = keyed v (take j l1) ++ keyed v (take k' l2)) →
  (∀ x y, x ∈ take j l1 → y ∈ drop k' l2 → (key x <= key y)%Z) →
  (∀ y x, y ∈ take k' l2 → x ∈ drop j l1 → (key y < key x)%Z) →
  out ++ drop j l1 ++ drop k' l2 ≡ₚ l1 ++ l2
  ∧ sorted (out ++ drop j l1 ++ drop k' l2)
  ∧ same_key_order conditions (out ++ drop j l1 ++ drop k' l2) (l1 ++ l2).
Proof.
  clear tp_length. intros Hj Hk Hend Hp Hs Hst HA HB.
  assert (Hout : ∀ u, u ∈ out → u ∈ take j l1 ∨ u ∈ take k' l2).
  { intros u Hu. rewrite Hp in Hu. by apply elem_of_app in Hu. }
  split; [|split].
  - rewrite Hp. rewrite <- (take_drop j l1) at 3.
    rewrite <- (take_drop k' l2) at 3.
    rewrite <- !(assoc_L (++)). apply Permutation_app_head.
    rewrite !(assoc_L (++)). apply Permutation_app_tail.
    apply Permutation_app_comm.
  - apply StronglySorted_app_2; [|done|].
    + intros u t Hu Ht. apply elem_of_app in Ht as [Ht | Ht];
        destruct (Hout u Hu) as [H1 | H2].
      * by apply (sorted_take_drop l1 j).
      * assert ((key u < key t)%Z) by (by apply HB).
        unfold key_le. cbv beta in *. lia.
      * by apply HA.
      * by apply (sorted_take_drop l2 k').
    + destruct Hend as [-> | ->].
      * rewrite drop_all. cbn [app].
        rewrite <- (take_drop k' l2) in l2_sorted.
        by apply StronglySorted_app_1_r in l2_sorted.
      * rewrite drop_all, app_nil_r.
        rewrite <- (take_drop j l1) in l1_sorted.
        by apply StronglySorted_app_1_r in l1_sorted.
  - intros v. rewrite !filter_app, Hst.
    rewrite <- (take_drop j l1) at 3. rewrite <- (take_drop k' l2) at 3.
    rewrite !filter_app, <- !(assoc_L (++)). f_equal.
    destruct Hend as [-> | ->].
    + by rewrite !drop_all, filter_nil.
    + rewrite !drop_all, filter_nil, !app_nil_r.
      rewrite take_ge in * by lia.
      destruct (keyed v l2) as [|y tl] eqn:E2; [by rewrite app_nil_r|].
      rewrite (filter_none _ (drop j l1)); [by rewrite app_nil_r|].
      apply Forall_forall. intros x Hx.
      assert (Hy : y ∈ keyed v l2) by (rewrite E2; apply list_elem_of_here).
      apply list_elem_of_filter in Hy as [Hyv Hy].
      specialize (HB y x Hy Hx). cbv beta in *. lia.
Qed.

End Merge.

(** The merge step of [merge_sort] on two adjacent sorted runs. *)
Lemma merge_step (conditions : list Z) (pre l1 l2 post temp2 : list nat) :
  StronglySorted (key_le conditions) l1 →
  StronglySorted (key_le conditions) l2 →
  length pre + (length l1 + length l2) <= length temp2 →
  let o := length pre in
  let m := length l1 in
  let len := length l1 + length l2 in
  let syms2 := pre ++ (l1 ++ l2) ++ post in
  let temp3 := memcpy temp2 o syms2 o len in
  let r := merge_loop len conditions temp3 o m len syms2 0 0 m in
  ∃ seg',
    (if r.1.2 <? m
     then memcpy r.1.1.1 (o + r.1.1.2) temp3 (o + r.1.2) (m - r.1.2)
     else if r.2 <? len
          then memcpy r.1.1.1 (o + r.1.1.2) temp3 (o + r.2) (len - r.2)
          else r.1.1.1) = pre ++ seg' ++ post
    ∧ length temp3 = length temp2
    ∧ seg' ≡ₚ l1 ++ l2
    ∧ StronglySorted (key_le conditions) seg'
    ∧ same_key_order conditions seg' (l1 ++ l2).
Proof.
  intros Hs1 Hs2 Hlen o m len syms2 temp3 r.
  subst o m len syms2.
  assert (Ht3 : temp3 = take (length pre) temp2 ++ l1 ++ l2 ++ drop ((length pre) + (length l1 + length l2)) temp2).
  { unfold temp3. rewrite memcpy_spec.
    - rewrite drop_app_length.
      rewrite take_app_length' by (rewrite length_app; lia).
      by rewrite <- !(assoc_L (++)).
    - lia.
    - rewrite !length_app. lia. }
  assert (Htp : length (take (length pre) temp2) = length pre).
  { rewrite length_take. lia. }
  assert (Hlt3 : length temp3 = length temp2).
  { rewrite Ht3, !length_app, length_take, length_drop. lia. }
  pose proof (merge_loop_inv conditions pre post (take (length pre) temp2)
                (drop ((length pre) + (length l1 + length l2)) temp2) l1 l2 Htp Hs1 Hs2 (length l1 + length l2) (pre ++ (l1 ++ l2) ++ post) 0 0 (length l1))
    as HL.
  rewrite <- Ht3 in HL. fold r in HL.
  destruct HL as [Hinv Hend].
  { exists [], (l1 ++ l2), 0. cbn [app length take].
    rewrite !take_0. cbn [app filter].
    split; [lia|]. split; [lia|]. split; [lia|]. split; [lia|].
    split; [done|]. split; [done|]. split; [rewrite length_app; lia|].
    split; [done|]. split; [constructor|]. split; [done|].
    split; intros ? ? H; by apply elem_of_nil in H. }
  { lia. }
  destruct r as [[[syms3 i] j] k]. cbn [fst snd] in *.
  destruct Hinv as (out & junk & k' & -> & -> & Hj & Hk & -> & Hlo & Hlj
                    & Hp & Hs & Hst & HA & HB).
  assert (Hend' : j = (length l1) ∨ k' = length l2) by lia.
  destruct (merge_result conditions l1 l2 Hs1 Hs2 out j k' Hj Hk Hend'
              Hp Hs Hst HA HB) as (R1 & R2 & R3).
  exists (out ++ drop j l1 ++ drop k' l2).
  split; [|done].
  assert (Hd1 : drop ((length pre) + j) temp3 = drop j l1 ++ l2 ++ drop ((length pre) + (length l1 + length l2)) temp2).
  { rewrite Ht3. rewrite drop_app_ge by lia.
    rewrite Htp. replace ((length pre) + j - length pre) with j by lia.
    by rewrite drop_app_le by lia. }
  assert (Hd2 : drop ((length pre) + ((length l1) + k')) temp3
                = drop k' l2 ++ drop ((length pre) + (length l1 + length l2)) temp2).
  { rewrite Ht3. rewrite drop_app_ge by lia.
    rewrite Htp. replace ((length pre) + ((length l1) + k') - length pre) with ((length l1) + k') by lia.
    rewrite drop_app_ge by lia. replace ((length l1) + k' - length l1) with k' by lia.
    by rewrite drop_app_le by lia. }
  assert (Hpo : length (pre ++ out) = (length pre) + (j + k'))
    by (rewrite length_app; lia).
  destruct (Nat.ltb_spec j (length l1)) as [Hjm | Hjm].
  - assert (k' = length l2) as Hk' by lia.
    rewrite memcpy_spec, Hd1.
    + rewrite (assoc_L (++) pre out), <- Hpo, take_app_length.
      rewrite take_app_length' by (rewrite length_drop; lia).
      rewrite drop_app_ge by lia.
      rewrite drop_app_ge by lia.
      replace (length (pre ++ out) + ((length l1) - j) - length (pre ++ out)
               - length junk) with 0 by lia.
      rewrite drop_0, Hk', drop_all, app_nil_r.
      by rewrite <- !(assoc_L (++)).
    + rewrite !length_app. lia.
    + rewrite Hlt3. lia.
  - assert (j = (length l1)) as Hjm' by lia.
    destruct (Nat.ltb_spec ((length l1) + k') (length l1 + length l2)) as [Hkl | Hkl].
    + rewrite memcpy_spec, Hd2.
      * rewrite (assoc_L (++) pre out), <- Hpo, take_app_length.
        rewrite take_app_length' by (rewrite length_drop; lia).
        rewrite drop_app_ge by lia.
        rewrite drop_app_ge by lia.
        replace (length (pre ++ out) + ((length l1 + length l2) - ((length l1) + k')) - length (pre ++ out)
                 - length junk) with 0 by lia.
        rewrite drop_0, Hjm', drop_all. cbn [app].
        by rewrite <- !(assoc_L (++)).
      * rewrite !length_app. lia.
      * rewrite Hlt3. lia.
    + assert (k' = length l2) as Hk' by lia.
      rewrite Hjm', Hk', !drop_all, app_nil_r.
      assert (junk = []) as -> by (apply nil_length_inv; lia).
      done.
Qed.

(** The recursion of [merge_sort]; [fuel] at least the segment length is
    more than its depth. *)
Lemma merge_sort_correct (conditions : list Z) : ∀ fuel pre seg post temp,
  length seg <= fuel →
  length pre + length seg <= length temp →
  ∃ seg' temp',
    merge_sort fuel conditions (length pre) (length seg)
               (pre ++ seg ++ post, temp)
    = (pre ++ seg' ++ post, temp')
    ∧ length temp' = length temp
    ∧ seg' ≡ₚ seg
    ∧ StronglySorted (key_le conditions) seg'
    ∧ same_key_order conditions seg' seg.
Proof.
  assert (Hsmall : ∀ fuel pre seg post temp,
    length seg < SORT_SWITCH_TO_INSERT_LIMIT →
    ∃ seg' temp',
      merge_sort fuel conditions (length pre) (length seg)
                 (pre ++ seg ++ post, temp)
      = (pre ++ seg' ++ post, temp')
      ∧ length temp' = length temp
      ∧ seg' ≡ₚ seg
      ∧ StronglySorted (key_le conditions) seg'
      ∧ same_key_order conditions seg' seg).
  { intros fuel pre seg post temp Hlt.
    destruct (insertion_sort_correct conditions pre seg post)
      as (seg' & E & Hp & Hs & Hk).
    exists seg', temp.
    apply Nat.ltb_lt in Hlt.
    destruct fuel; cbn [merge_sort]; rewrite Hlt, E; done. }
  induction fuel as [|fuel IH]; intros pre seg post temp Hf Ht.
  { apply Hsmall. unfold SORT_SWITCH_TO_INSERT_LIMIT. lia. }
  destruct (Nat.ltb_spec (length seg) SORT_SWITCH_TO_INSERT_LIMIT)
    as [Hlt | Hge]; [by apply Hsmall|].
  cbn [merge_sort].
  replace (length seg <? SORT_SWITCH_TO_INSERT_LIMIT) with false
    by (symmetry; by apply Nat.ltb_ge).
  unfold SORT_SWITCH_TO_INSERT_LIMIT in Hge.
  rewrite Nat.shiftr_div_pow2. change (2 ^ 1) with 2.
  set (m := length seg / 2).
  assert (Hm : m < length seg)
    by (apply Nat.div_lt; lia).
  assert (Hm1 : 1 <= m) by (apply Nat.div_le_lower_bound; lia).
  clearbody m.
  assert (Hsplit : ∃ s1 s2, seg = s1 ++ s2 ∧ length s1 = m).
  { exists (take m seg), (drop m seg). rewrite take_drop, length_take.
    split; [done | lia]. }
  destruct Hsplit as (s1 & s2 & -> & Hl1).
  rewrite length_app in *.
  replace (length s1 + length s2 - m) with (length s2) by lia.
  rewrite <- (assoc_L (++) s1 s2 post). rewrite <- Hl1.
  destruct (IH pre s1 (s2 ++ post) temp ltac:(lia) ltac:(lia))
    as (s1' & temp1 & -> & Ht1 & Hp1 & Hs1 & Hk1).
  assert (Hl1' : length s1' = length s1) by (by rewrite Hp1).
  rewrite (assoc_L (++) pre s1').
  replace (length pre + length s1) with (length (pre ++ s1'))
    by (rewrite length_app; lia).
  destruct (IH (pre ++ s1') s2 post temp1 ltac:(lia)
              ltac:(rewrite length_app; lia))
    as (s2' & temp2 & -> & Ht2 & Hp2 & Hs2 & Hk2).
  assert (Hl2' : length s2' = length s2) by (by rewrite Hp2).
  rewrite <- (assoc_L (++) pre s1'), (assoc_L (++) s1' s2' post).
  rewrite <- Hl1', <- Hl2'.
  destruct (merge_step conditions pre s1' s2' post temp2 Hs1 Hs2
              ltac:(lia)) as (seg' & E & Ht3 & Hp & Hs & Hk).
  cbv zeta in E, Ht3.
  destruct (merge_loop _ _ _ _ _ _ _ _ _ _) as [[[syms3 i] j] k].
  cbn [fst snd] in E.
  exists seg', (memcpy temp2 (length pre) (pre ++ (s1' ++ s2') ++ post)
                       (length pre) (length s1' + length s2')).
  split.
  { destruct (j <? length s1'); [|destruct (k <? _)]; by rewrite E. }
  split; [lia|].
  split; [by rewrite Hp, Hp1, Hp2|].
  split; [done|].
  intros v. rewrite (Hk v), !filter_app. by rewrite (Hk1 v), (Hk2 v).
Qed.

(** [merge_sort] on the [length seg] entries of [syms] that start at
    index [length pre], with a scratch array [temp] that reaches as far:
    these entries are rearranged into a permutation of themselves in which
    the keys [conditions[s]] never decrease and entries with equal keys
    keep their order; the entries before and after them stay as they are,
    and the scratch array keeps its length. *)
Theorem merge_sort_sorted (conditions : list Z) (fuel : nat)
  (pre seg post temp : list nat) :
  length seg <= fuel →
  length pre + length seg <= length temp →
  ∃ seg' temp',
    merge_sort fuel conditions (length pre) (length seg)
               (pre ++ seg ++ post, temp)
    = (pre ++ seg' ++ post, temp')
    ∧ length temp' = length temp
    ∧ seg' ≡ₚ seg
    ∧ StronglySorted (key_le conditions) seg'
    ∧ same_key_order conditions seg' seg.
Proof. apply merge_sort_correct. Qed.

Lemma merge_sort_sorted_witness :
  ∃ seg' temp',
    merge_sort 3 [5; 1; 4]%Z (length [7]) (length [2; 0; 1])
               ([7] ++ [2; 0; 1] ++ [9], [0; 0; 0; 0; 0])
    = ([7] ++ seg' ++ [9], temp')
    ∧ length temp' = length [0; 0; 0; 0; 0]
    ∧ seg' ≡ₚ [2; 0; 1]
    ∧ StronglySorted (key_le [5; 1; 4]%Z) seg'
    ∧ same_key_order [5; 1; 4]%Z seg' [2; 0; 1].
Proof.
  refine (merge_sort_sorted [5; 1; 4]%Z 3 [7] [2; 0; 1] [9] [0; 0; 0; 0; 0]
            _ _).
  - cbn. lia.
  - cbn. lia.
Defined.

End SortingFacts.
